(** * Quiz application (test4.py): response parser, answer scoring and
    session state

    A shallow embedding of the Python module [test4.py] and of the parts of
    the Python runtime it relies on ([re], [str], [json], [tenacity]).

    Source text (the model's reply, the blocks cut out of it) is a list of
    8-bit characters read as the code points U+0000..U+00FF; the character
    classes of [re] and [str.strip] are the Unicode ones restricted to that
    range.  Text produced by the JSON decoder is a list of code points,
    because a [\uXXXX] escape can denote any of them. *)

From Stdlib Require Import Ascii String List ZArith NArith Bool Arith Lia.
From Stdlib Require Import DecimalString.
Import ListNotations.

Set Implicit Arguments.
Set Warnings "-register-all".

(** ** Text *)

Definition text := list ascii.
Definition ustr := list N.

Definition t (s : string) : text := list_ascii_of_string s.
Definition code (c : ascii) : N := N_of_ascii c.
Definition u (s : string) : ustr := map code (t s).

Definition newline : ascii := "010".

Definition between (lo hi c : N) : bool := ((lo <=? c) && (c <=? hi))%N.

(** [str.isspace] / [\s] on a code point. *)
Definition uni_space (c : N) : bool :=
  between 9 13 c || between 28 32 c || (c =? 133)%N || (c =? 160)%N
  || (c =? 5760)%N || between 8192 8202 c || (c =? 8232)%N || (c =? 8233)%N
  || (c =? 8239)%N || (c =? 8287)%N || (c =? 12288)%N.

Definition is_space (c : ascii) : bool := uni_space (code c).

(** [\d]: the decimal digits; below U+0100 these are 0-9 only. *)
Definition is_digit (c : ascii) : bool := between 48 57 (code c).

(** [\w]: alphanumeric or underscore.  Below U+0100 the alphanumerics are the
    ASCII letters and digits, the letters of Latin-1, and the numeric signs
    U+00B2, U+00B3, U+00B9, U+00BC..U+00BE. *)
Definition is_word (c : ascii) : bool :=
  let n := code c in
  between 48 57 n || between 65 90 n || between 97 122 n || (n =? 95)%N
  || (n =? 170)%N || (n =? 178)%N || (n =? 179)%N || (n =? 181)%N
  || (n =? 185)%N || (n =? 186)%N || between 188 190 n
  || between 192 214 n || between 216 246 n || between 248 255 n.

(** ** Regular expressions ([re])

    The fragment of [re] syntax that the module's three patterns use.
    Quantifiers only ever apply to a single character class there. *)

Inductive cls := Dot | Digit | Space | Word.

Definition in_cls (k : cls) (c : ascii) : bool :=
  match k with
  | Dot => true          (* re.DOTALL: "." also matches a newline *)
  | Digit => is_digit c
  | Space => is_space c
  | Word => is_word c
  end.

Inductive regex :=
| Lit (c : ascii)                      (* one literal character *)
| Star (k : cls) (greedy : bool)       (* k*  and  k*? *)
| Plus (k : cls)                       (* k+ *)
| Cat (r1 r2 : regex)
| Alt (r1 r2 : regex)
| Group (r : regex)                    (* ( ... ), numbered as completed *)
| Ahead (r : regex)                    (* (?= ... ) *)
| Eos.                                 (* $ without re.MULTILINE *)

(** A run of literal characters (the empty run is written as a lookahead
    that always holds). *)
Fixpoint lits (s : text) : regex :=
  match s with
  | [] => Ahead (Star Dot false)
  | [c] => Lit c
  | c :: s' => Cat (Lit c) (lits s')
  end.

(** What was consumed between the suffix [s] and its later suffix [s']. *)
Definition consumed (s s' : text) : text :=
  firstn (length s - length s') s.

Definition orelse {R} (a : option R) (b : unit -> option R) : option R :=
  match a with Some x => Some x | None => b tt end.

(** Backtracking matcher in continuation-passing style.  [k] receives the
    remaining input and the groups captured so far; alternatives are tried in
    the priority order of [re] (greedy: longest first, lazy: shortest first,
    [|]: left first). *)
Fixpoint rmatch (r : regex) (R : Type) (s : text) (caps : list text)
         (k : text -> list text -> option R) {struct r} : option R :=
  match r with
  | Lit c =>
      match s with
      | a :: s' => if Ascii.eqb a c then k s' caps else None
      | [] => None
      end
  | Star c g =>
      (fix loop (s : text) : option R :=
         match s with
         | a :: s' =>
             if in_cls c a then
               if g then orelse (loop s') (fun _ => k s caps)
               else orelse (k s caps) (fun _ => loop s')
             else k s caps
         | [] => k s caps
         end) s
  | Plus c =>
      match s with
      | a :: s0 =>
          if in_cls c a then
            (fix loop (s : text) : option R :=
               match s with
               | a :: s' =>
                   if in_cls c a then orelse (loop s') (fun _ => k s caps)
                   else k s caps
               | [] => k s caps
               end) s0
          else None
      | [] => None
      end
  | Cat r1 r2 => rmatch r1 s caps (fun s' caps' => rmatch r2 s' caps' k)
  | Alt r1 r2 => orelse (rmatch r1 s caps k) (fun _ => rmatch r2 s caps k)
  | Group r0 =>
      rmatch r0 s caps (fun s' caps' => k s' (caps' ++ [consumed s s']))
  | Ahead r0 =>
      match rmatch r0 s caps (fun _ _ => Some tt) with
      | Some _ => k s caps
      | None => None
      end
  | Eos =>
      match s with
      | [] => k s caps
      | [a] => if Ascii.eqb a "010" then k s caps else None
      | _ => None
      end
  end.

(** A match anchored at the start of [s]: the unconsumed rest and the
    groups. *)
Definition match_at (r : regex) (s : text) : option (text * list text) :=
  rmatch r s [] (fun s' caps => Some (s', caps)).

(** The declarative reading of a pattern, without priorities: [r] can
    consume the front of [s] down to [s'], taking the groups from [caps] to
    [caps']. *)
Inductive matches : regex -> text -> list text -> text -> list text -> Prop :=
| M_Lit c s caps : matches (Lit c) (c :: s) caps s caps
| M_Star k g p s caps :
    Forall (fun a => in_cls k a = true) p ->
    matches (Star k g) (p ++ s) caps s caps
| M_Plus k p s caps :
    p <> [] -> Forall (fun a => in_cls k a = true) p ->
    matches (Plus k) (p ++ s) caps s caps
| M_Cat r1 r2 s caps s1 caps1 s2 caps2 :
    matches r1 s caps s1 caps1 -> matches r2 s1 caps1 s2 caps2 ->
    matches (Cat r1 r2) s caps s2 caps2
| M_AltL r1 r2 s caps s' caps' :
    matches r1 s caps s' caps' -> matches (Alt r1 r2) s caps s' caps'
| M_AltR r1 r2 s caps s' caps' :
    matches r2 s caps s' caps' -> matches (Alt r1 r2) s caps s' caps'
| M_Group r s caps s' caps' :
    matches r s caps s' caps' ->
    matches (Group r) s caps s' (caps' ++ [consumed s s'])
| M_Ahead r s caps s' caps' :
    matches r s caps s' caps' -> matches (Ahead r) s caps s caps
| M_Eos_end caps : matches Eos [] caps [] caps
| M_Eos_nl caps : matches Eos ["010"%char] caps ["010"%char] caps.

(** [re.findall] for a pattern with one group: the group of every
    non-overlapping match, leftmost first.  [skip] counts the characters of
    the previous match still to be stepped over.  (The module's patterns
    never match the empty text; after an empty match the search moves on by
    one character.) *)
Fixpoint findall_from (r : regex) (s : text) (skip : nat) : list text :=
  match s with
  | [] => []
  | _ :: s' =>
      match skip with
      | S n => findall_from r s' n
      | O =>
          match match_at r s with
          | Some (rest, caps) =>
              nth 0 caps [] :: findall_from r s' (length s - length rest - 1)
          | None => findall_from r s' 0
          end
      end
  end.

Definition findall (r : regex) (s : text) : list text := findall_from r s 0.

(** [re.sub]: every non-overlapping match replaced by [repl] of its groups,
    the text between matches copied. *)
Fixpoint sub_from (r : regex) (repl : list text -> text) (s : text)
         (skip : nat) : text :=
  match s with
  | [] => []
  | a :: s' =>
      match skip with
      | S n => sub_from r repl s' n
      | O =>
          match match_at r s with
          | Some (rest, caps) =>
              if length rest <? length s
              then repl caps ++ sub_from r repl s' (length s - length rest - 1)
              else repl caps ++ a :: sub_from r repl s' 0
          | None => a :: sub_from r repl s' 0
          end
      end
  end.

Definition re_sub (r : regex) (repl : list text -> text) (s : text) : text :=
  sub_from r repl s 0.

(** [str.replace] of one character by another. *)
Definition replace_char (old new : ascii) (s : text) : text :=
  map (fun c => if Ascii.eqb c old then new else c) s.

(** ** The parser's patterns *)

(** [\*\*Question\d+\*\*] *)
Definition marker_re : regex :=
  Cat (lits (t "**Question")) (Cat (Plus Digit) (lits (t "**"))).

(** [\*\*Question\d+\*\*\s*({.*?})\s*(?=\*\*Question\d+\*\*|$)] with
    [re.DOTALL]. *)
Definition question_re : regex :=
  Cat marker_re
 (Cat (Star Space true)
 (Cat (Group (Cat (Lit "{") (Cat (Star Dot false) (Lit "}"))))
 (Cat (Star Space true)
      (Ahead (Alt marker_re Eos))))).

(** The text of a marker with the digits [d]. *)
Definition marker (d : text) : text := t "**Question" ++ d ++ t "**".

(** The end of the parser's pattern, after the group: optional whitespace,
    then a marker or the end of the text ahead. *)
Definition tail_re : regex := Cat (Star Space true) (Ahead (Alt marker_re Eos)).

(** Whether a group may end right before [s]. *)
Definition closes (s : text) : bool :=
  match match_at tail_re s with Some _ => true | None => false end.

(** Whether some closing brace of [body] is followed by text at which the
    group may end, when [body] itself is followed by a closing brace. *)
Fixpoint early_close (body : text) : bool :=
  match body with
  | [] => false
  | c :: body' =>
      (Ascii.eqb c "}" && closes (body' ++ ["}"%char])) || early_close body'
  end.

(** A block: an opening brace, a body, a closing brace. *)
Definition braced (body : text) : text := "{"%char :: body ++ ["}"%char].

Definition all_space (s : text) : bool := forallb is_space s.
Definition all_digits (s : text) : bool := forallb is_digit s.

(** The text [s] does not go on with a character of the class. *)
Definition stops (k0 : cls) (s : text) : Prop :=
  match s with
  | a :: _ => in_cls k0 a = false
  | [] => True
  end.

(** The text starts with a marker. *)
Definition at_marker_text (r : text) : Prop :=
  exists d r', d <> [] /\ Forall (fun a => in_cls Digit a = true) d
               /\ r = marker d ++ r'.

(** The three ways the text ahead lets a group end. *)
Definition ahead_ok (r : text) : Prop :=
  at_marker_text r \/ r = [] \/ r = [newline].

(** The key pattern: group 1 is [\w+], group 2 is [\s*], a colon, [\s*]. *)
Definition key_re : regex :=
  Cat (Group (Plus Word))
      (Group (Cat (Star Space true) (Cat (Lit ":") (Star Space true)))).

Definition dquote : ascii := "034".
Definition squote : ascii := "039".

(** The replacement template: group 1 between double quotes, then group 2. *)
Definition key_repl (caps : list text) : text :=
  dquote :: nth 0 caps [] ++ dquote :: nth 1 caps [].

(** The conversion "to valid JSON" in [extract_questions]: [block.replace]
    of every single quote by a double quote, then [re.sub] of the key
    pattern. *)
Definition normalize (block : text) : text :=
  re_sub key_re key_repl (replace_char squote dquote block).

(** ** Python values and exceptions *)

Inductive pyval :=
| PNone
| PBool (b : bool)
| PInt (z : Z)
| PFloat (lexeme : text)               (* a float, kept as its literal *)
| PStr (s : ustr)
| PList (l : list pyval)
| PDict (d : list (ustr * pyval)).     (* insertion-ordered, keys unique *)

(** The messages of [json.JSONDecodeError]. *)
Inductive json_msg :=
| ExpectingValue | ExtraData | UnterminatedString | InvalidControl
| InvalidEscape | InvalidUEscape | ExpectingPropertyName
| ExpectingColon | ExpectingComma.

Inductive exn :=
| JSONDecodeError (m : json_msg) (doc : text) (pos : nat)
| RecursionError
| ValueError
| AttributeError
| KeyError
| TypeError
| IndexError
| APIError (why : text)                (* raised by the Groq client *)
| RetryError.                          (* tenacity.RetryError *)

Inductive res (A : Type) :=
| Ok (a : A)
| Error (e : exn).
Arguments Ok {A} a.
Arguments Error {A} e.

(** The limits of the interpreter that [json.loads] can run into: how many
    nested containers the recursion limit still allows, and
    [sys.get_int_max_str_digits()] (0 when there is no such limit). *)
Record interp := {
  recursion_depth : nat;
  int_max_str_digits : nat
}.

(** CPython's defaults. *)
Definition default_interp : interp :=
  {| recursion_depth := 1000; int_max_str_digits := 4300 |}.

Definition ustr_eqb (a b : ustr) : bool :=
  if list_eq_dec N.eq_dec a b then true else false.

Fixpoint dict_get (d : list (ustr * pyval)) (k : ustr) : option pyval :=
  match d with
  | [] => None
  | (k', v) :: d' => if ustr_eqb k k' then Some v else dict_get d' k
  end.

(** [d[k] = v]: an existing key keeps its place. *)
Fixpoint dict_set (d : list (ustr * pyval)) (k : ustr) (v : pyval)
  : list (ustr * pyval) :=
  match d with
  | [] => [(k, v)]
  | (k', v') :: d' =>
      if ustr_eqb k k' then (k, v) :: d' else (k', v') :: dict_set d' k v
  end.

(** ** The JSON decoder ([json.loads], C scanner) *)

Inductive jres (A : Type) :=
| JOk (a : A) (rest : text)
| JFail (m : json_msg) (at_ : text)    (* decode error where [at_] starts *)
| JRaise (e : exn)                     (* an interpreter limit was hit *)
| JStuck.                              (* iteration bound; see [scan_once_not_stuck] *)
Arguments JOk {A} a rest.
Arguments JFail {A} m at_.
Arguments JRaise {A} e.
Arguments JStuck {A}.

Definition is_json_ws (c : ascii) : bool :=
  let n := code c in ((n =? 32) || (n =? 9) || (n =? 10) || (n =? 13))%N.

Fixpoint skip_ws (s : text) : text :=
  match s with
  | c :: s' => if is_json_ws c then skip_ws s' else s
  | [] => []
  end.

Fixpoint starts_with (p s : text) : option text :=
  match p, s with
  | [], _ => Some s
  | a :: p', b :: s' => if Ascii.eqb a b then starts_with p' s' else None
  | _ :: _, [] => None
  end.

Definition hexval (c : ascii) : option N :=
  let n := code c in
  if between 48 57 n then Some (n - 48)%N
  else if between 97 102 n then Some (n - 87)%N
  else if between 65 70 n then Some (n - 55)%N
  else None.

Definition hex4 (s : text) : option N :=
  match s with
  | a :: b :: c :: d :: _ =>
      match hexval a, hexval b, hexval c, hexval d with
      | Some x, Some y, Some z, Some w =>
          Some (((x * 16 + y) * 16 + z) * 16 + w)%N
      | _, _, _, _ => None
      end
  | _ => None
  end.

Inductive esc_res :=
| Esc (c : N) (skip : nat)             (* code point; characters after the backslash to pass *)
| EscFail (m : json_msg) (back : nat). (* error [back] characters after the backslash *)

(** The escape after a backslash; [s] starts right after it and is not
    empty. *)
Definition escape (s : text) : esc_res :=
  match s with
  | [] => EscFail InvalidEscape 0
  | e :: s2 =>
      if Ascii.eqb e "u" then
        if length s2 <? 5 then EscFail InvalidUEscape 1
        else
          match hex4 s2 with
          | None => EscFail InvalidUEscape 1
          | Some c =>
              let s6 := skipn 4 s2 in
              if between 55296 56319 c && (7 <=? length s6)
                 && match s6 with
                    | a :: b :: _ => Ascii.eqb a "\" && Ascii.eqb b "u"
                    | _ => false
                    end
              then
                match hex4 (skipn 2 s6) with
                | None => EscFail InvalidUEscape 7
                | Some c2 =>
                    if between 56320 57343 c2
                    then Esc (65536 + (c - 55296) * 1024 + (c2 - 56320))%N 11
                    else Esc c 5
                end
              else Esc c 5
          end
      else if Ascii.eqb e dquote then Esc 34 1
      else if Ascii.eqb e "\" then Esc 92 1
      else if Ascii.eqb e "/" then Esc 47 1
      else if Ascii.eqb e "b" then Esc 8 1
      else if Ascii.eqb e "f" then Esc 12 1
      else if Ascii.eqb e "n" then Esc 10 1
      else if Ascii.eqb e "r" then Esc 13 1
      else if Ascii.eqb e "t" then Esc 9 1
      else EscFail InvalidEscape 0
  end.

(** [scanstring]: [s] starts after the opening quote, [start] at it. *)
Fixpoint scanstring (start s : text) (skip : nat) (acc : ustr) : jres ustr :=
  match s with
  | [] => JFail UnterminatedString start
  | c :: s1 =>
      match skip with
      | S n => scanstring start s1 n acc
      | O =>
          if Ascii.eqb c dquote then JOk (rev acc) s1
          else if Ascii.eqb c "\" then
            match s1 with
            | [] => JFail UnterminatedString start
            | _ =>
                match escape s1 with
                | Esc x n => scanstring start s1 n (x :: acc)
                | EscFail m back => JFail m (skipn back s)
                end
            end
          else if (code c <=? 31)%N then JFail InvalidControl s
          else scanstring start s1 0 (code c :: acc)
      end
  end.

Definition is_dec (c : ascii) : bool := between 48 57 (code c).

Fixpoint span_digits (s : text) : text * text :=
  match s with
  | c :: s' =>
      if is_dec c then let (d, r) := span_digits s' in (c :: d, r) else ([], s)
  | [] => ([], [])
  end.

Definition digits_value (ds : text) : Z :=
  fold_left (fun acc c => (acc * 10 + Z.of_N (code c - 48))%Z) ds 0%Z.

(** The parts of a number literal: each function splits off its part from
    the front of the text. *)
Definition sign_part (s : text) : bool * text :=
  match s with
  | c :: s' => if Ascii.eqb c "-" then (true, s') else (false, s)
  | [] => (false, s)
  end.

(** A single 0, or a non-zero digit and the digits after it. *)
Definition int_part (s : text) : option (text * text) :=
  match s with
  | [] => None
  | c :: s2 =>
      if between 49 57 (code c) then
        let (d, r) := span_digits s2 in Some (c :: d, r)
      else if Ascii.eqb c "0" then Some ([c], s2)
      else None
  end.

(** A point and at least one digit. *)
Definition frac_part (s : text) : text * text :=
  match s with
  | p :: q :: r' =>
      if Ascii.eqb p "." && is_dec q then
        let (d, r2) := span_digits r' in (p :: q :: d, r2)
      else ([], s)
  | _ => ([], s)
  end.

(** e or E, an optional sign, and at least one digit. *)
Definition exp_part (s : text) : text * text :=
  match s with
  | e :: r' =>
      if Ascii.eqb e "e" || Ascii.eqb e "E" then
        let (sg, r3) :=
          match r' with
          | g :: h :: r'' =>
              if Ascii.eqb g "+" || Ascii.eqb g "-"
              then ([g], h :: r'') else ([], r')
          | _ => ([], r')
          end in
        let (d, r4) := span_digits r3 in
        match d with
        | [] => ([], s)
        | _ => (e :: sg ++ d, r4)
        end
      else ([], s)
  | [] => ([], s)
  end.

(** The number at the start of [s], if any: whether it is negative, its
    integer part, its fraction and exponent, and the rest. *)
Definition match_number (s : text) : option (bool * text * text * text) :=
  let (neg, s1) := sign_part s in
  match int_part s1 with
  | None => None
  | Some (ip, r) =>
      let (fr, r1) := frac_part r in
      let (ex, r2) := exp_part r1 in
      Some (neg, ip, fr ++ ex, r2)
  end.

Definition number (cfg : interp) (s : text) : jres pyval :=
  match match_number s with
  | None => JFail ExpectingValue s
  | Some (neg, int_part, tail, rest) =>
      match tail with
      | [] =>
          if (0 <? int_max_str_digits cfg)
             && (int_max_str_digits cfg <? length int_part)
          then JRaise ValueError
          else JOk (PInt (if neg then - digits_value int_part
                          else digits_value int_part)%Z) rest
      | _ =>
          JOk (PFloat ((if neg then ["-"%char] else []) ++ int_part ++ tail))
              rest
      end
  end.

Definition literal (cfg : interp) (word : string) (v : pyval) (s : text)
  : jres pyval :=
  match starts_with (t word) s with
  | Some rest => JOk v rest
  | None => number cfg s
  end.

Definition str_value (r : jres ustr) : jres pyval :=
  match r with
  | JOk k rest => JOk (PStr k) rest
  | JFail m a => JFail m a
  | JRaise e => JRaise e
  | JStuck => JStuck
  end.

(** Whether [s] starts with the character [c], and what follows it. *)
Definition after (c : ascii) (s : text) : option text :=
  match s with
  | a :: s' => if Ascii.eqb a c then Some s' else None
  | [] => None
  end.

(** The loop of [_parse_object]: [s] is where a key is expected, [scan]
    decodes one value.  [gas] bounds the iterations; each needs at least
    two characters. *)
Fixpoint object_members (scan : text -> jres pyval) (gas : nat) (s : text)
         (acc : list (ustr * pyval)) : jres pyval :=
  match gas with
  | O => JStuck
  | S g =>
      match after dquote s with
      | None => JFail ExpectingPropertyName s
      | Some sk =>
          match scanstring s sk 0 [] with
          | JOk key r =>
              match after ":" (skip_ws r) with
              | None => JFail ExpectingColon (skip_ws r)
              | Some r1 =>
                  match scan (skip_ws r1) with
                  | JOk v r2 =>
                      let acc' := dict_set acc key v in
                      match after "}" (skip_ws r2) with
                      | Some r3 => JOk (PDict acc') r3
                      | None =>
                          match after "," (skip_ws r2) with
                          | Some r3 => object_members scan g (skip_ws r3) acc'
                          | None => JFail ExpectingComma (skip_ws r2)
                          end
                      end
                  | JFail m a => JFail m a
                  | JRaise e => JRaise e
                  | JStuck => JStuck
                  end
              end
          | JFail m a => JFail m a
          | JRaise e => JRaise e
          | JStuck => JStuck
          end
      end
  end.

(** The loop of [_parse_array]: [s] is where an item is expected. *)
Fixpoint array_items (scan : text -> jres pyval) (gas : nat) (s : text)
         (acc : list pyval) : jres pyval :=
  match gas with
  | O => JStuck
  | S g =>
      match scan s with
      | JOk v r =>
          match after "]" (skip_ws r) with
          | Some r1 => JOk (PList (rev (v :: acc))) r1
          | None =>
              match after "," (skip_ws r) with
              | Some r1 => array_items scan g (skip_ws r1) (v :: acc)
              | None => JFail ExpectingComma (skip_ws r)
              end
          end
      | JFail m a => JFail m a
      | JRaise e => JRaise e
      | JStuck => JStuck
      end
  end.

(** [scan_once]: one JSON value at the start of [s].  Entering an object or
    an array takes one level of [depth]. *)
Fixpoint scan_once (cfg : interp) (depth : nat) (s : text) {struct depth}
  : jres pyval :=
  match s with
  | [] => JFail ExpectingValue s
  | c :: s1 =>
      if Ascii.eqb c dquote then str_value (scanstring s s1 0 [])
      else if Ascii.eqb c "{" then
        match depth with
        | O => JRaise RecursionError
        | S d =>
            match after "}" (skip_ws s1) with
            | Some s3 => JOk (PDict []) s3
            | None =>
                object_members (scan_once cfg d)
                               (S (length (skip_ws s1))) (skip_ws s1) []
            end
        end
      else if Ascii.eqb c "[" then
        match depth with
        | O => JRaise RecursionError
        | S d =>
            match after "]" (skip_ws s1) with
            | Some s3 => JOk (PList []) s3
            | None =>
                array_items (scan_once cfg d)
                            (S (length (skip_ws s1))) (skip_ws s1) []
            end
        end
      else if Ascii.eqb c "n" then literal cfg "null" PNone s
      else if Ascii.eqb c "t" then literal cfg "true" (PBool true) s
      else if Ascii.eqb c "f" then literal cfg "false" (PBool false) s
      else if Ascii.eqb c "N" then literal cfg "NaN" (PFloat (t "NaN")) s
      else if Ascii.eqb c "I" then
        literal cfg "Infinity" (PFloat (t "Infinity")) s
      else if Ascii.eqb c "-" then
        literal cfg "-Infinity" (PFloat (t "-Infinity")) s
      else number cfg s
  end.

(** [json.loads]: one value, surrounded by optional whitespace and nothing
    else. *)
Definition json_loads (cfg : interp) (doc : text) : res pyval :=
  match scan_once cfg (recursion_depth cfg) (skip_ws doc) with
  | JOk v rest =>
      match skip_ws rest with
      | [] => Ok v
      | r => Error (JSONDecodeError ExtraData doc (length doc - length r))
      end
  | JFail m a => Error (JSONDecodeError m doc (length doc - length a))
  | JRaise e => Error e
  | JStuck => Error RecursionError
  end.

(** The exceptions of [json.loads] that are not decode errors. *)
Definition limit_error (e : exn) : Prop :=
  e = RecursionError \/ e = ValueError.

(** [str(e)] of a [JSONDecodeError]: the message, then line, column and
    offset of [pos] in [doc]. *)
Definition nat_text (n : nat) : text := t (NilEmpty.string_of_uint (Nat.to_uint n)).

Definition msg_text (m : json_msg) : text :=
  match m with
  | ExpectingValue => t "Expecting value"
  | ExtraData => t "Extra data"
  | UnterminatedString => t "Unterminated string starting at"
  | InvalidControl => t "Invalid control character at"
  | InvalidEscape => t "Invalid \escape"
  | InvalidUEscape => t "Invalid \uXXXX escape"
  | ExpectingPropertyName =>
      t "Expecting property name enclosed in double quotes"
  | ExpectingColon => t "Expecting ':' delimiter"
  | ExpectingComma => t "Expecting ',' delimiter"
  end.

(** The column of the end of [s]: one more than the characters after its
    last newline. *)
Fixpoint colno (s : text) (col : nat) : nat :=
  match s with
  | [] => col
  | c :: s' => if Ascii.eqb c newline then colno s' 1 else colno s' (S col)
  end.

Definition decode_error_str (m : json_msg) (doc : text) (pos : nat) : text :=
  let before := firstn pos doc in
  msg_text m ++ t ": line "
    ++ nat_text (S (count_occ ascii_dec before newline))
    ++ t " column " ++ nat_text (colno before 1)
    ++ t " (char " ++ nat_text pos ++ t ")".

(** ** Session state *)

Record ParseError := {
  error_type : text;
  message : text;
  block : text
}.

Record AnswerRecord := {
  question : pyval;
  user_answer : pyval;
  correct_answer : pyval;
  is_correct : bool
}.

Record UserDetails := {
  name : text;
  grade : Z;
  subject : text;
  topic : text;
  level : text;
  num_questions : Z
}.

Record ChatTurn := {
  is_user : bool;
  content : text
}.

(** [st.session_state.quiz].  [user_details] is [None] for the empty dict
    of the initial state. *)
Record Quiz := {
  api_key : option text;
  user_details : option UserDetails;
  questions : list pyval;
  current_q : Z;
  score : Z;
  difficulty : text;
  history : list AnswerRecord;
  feedback : text;
  chat_history : list ChatTurn;
  raw_response : option text;
  parsing_errors : list ParseError;
  attempt_count : Z
}.

Definition initial_quiz : Quiz := {|
  api_key := None;
  user_details := None;
  questions := [];
  current_q := 0;
  score := 0;
  difficulty := t "beginner";
  history := [];
  feedback := [];
  chat_history := [];
  raw_response := None;
  parsing_errors := [];
  attempt_count := 0
|}.

(** ** The parser *)

(** The loop of [extract_questions] over the candidate blocks:
    [json.JSONDecodeError] is caught and logged, any other exception leaves
    the function with the diagnostics appended so far. *)
Fixpoint parse_blocks (cfg : interp) (blocks : list text)
         (qs : list pyval) (errs : list ParseError)
  : res (list pyval) * list ParseError :=
  match blocks with
  | [] => (Ok qs, errs)
  | b :: bs =>
      match json_loads cfg (normalize b) with
      | Ok question_data => parse_blocks cfg bs (qs ++ [question_data]) errs
      | Error (JSONDecodeError m doc pos) =>
          parse_blocks cfg bs qs
            (errs ++ [{| error_type := t "JSON Decode";
                         message := decode_error_str m doc pos;
                         block := b |}])
      | Error e => (Error e, errs)
      end
  end.

Definition set_parsing_errors (q : Quiz) (errs : list ParseError) : Quiz := {|
  api_key := api_key q;
  user_details := user_details q;
  questions := questions q;
  current_q := current_q q;
  score := score q;
  difficulty := difficulty q;
  history := history q;
  feedback := feedback q;
  chat_history := chat_history q;
  raw_response := raw_response q;
  parsing_errors := errs;
  attempt_count := attempt_count q
|}.

Definition extract_questions (cfg : interp) (response : text) (q : Quiz)
  : res (list pyval) * Quiz :=
  let question_blocks := findall question_re response in
  let (r, errs) := parse_blocks cfg question_blocks [] (parsing_errors q) in
  (r, set_parsing_errors q errs).

(** ** What the parser returns, block by block *)

(** The diagnostic logged for a block whose decoding raised
    [JSONDecodeError m doc pos]. *)
Definition diagnostic (b : text) (m : json_msg) (doc : text) (pos : nat)
  : ParseError :=
  {| error_type := t "JSON Decode";
     message := decode_error_str m doc pos;
     block := b |}.

(** The values of the blocks that decode, in order. *)
Definition decoded (cfg : interp) (blocks : list text) : list pyval :=
  flat_map (fun b => match json_loads cfg (normalize b) with
                     | Ok v => [v]
                     | Error _ => []
                     end) blocks.

(** The diagnostics of the blocks that fail to decode, in order. *)
Definition diagnosed (cfg : interp) (blocks : list text) : list ParseError :=
  flat_map (fun b => match json_loads cfg (normalize b) with
                     | Error (JSONDecodeError m doc pos) =>
                         [diagnostic b m doc pos]
                     | _ => []
                     end) blocks.

(** Whether decoding the block raises something else than a decode error. *)
Definition hits_limit (cfg : interp) (b : text) : bool :=
  match json_loads cfg (normalize b) with
  | Ok _ | Error (JSONDecodeError _ _ _) => false
  | Error _ => true
  end.

Definition is_dict (v : pyval) : Prop := exists d, v = PDict d.

(** The record has the three fields, with a text, four options that are
    texts, and a text. *)
Definition is_text (v : pyval) : bool :=
  match v with PStr _ => true | _ => false end.

Definition well_formed_record (v : pyval) : bool :=
  match v with
  | PDict d =>
      match dict_get d (u "Question"), dict_get d (u "Options"),
            dict_get d (u "Answer") with
      | Some qt, Some (PDict opts), Some a =>
          is_text qt && is_text a && (length opts =? 4)
          && forallb (fun kv => is_text (snd kv)) opts
      | _, _, _ => false
      end
  | _ => false
  end.

(** ** The environment of a handler

    What a handler does besides changing the session state: calls of the
    completion API (the outcome of the k-th call is given by [net]: the
    reply's text, or the exception the client raised), seconds slept between
    attempts, and the messages put on the page. *)

Inductive notice :=
| KeyMissing                           (* "Please enter your Groq API key" *)
| AttemptFailed (n : Z) (e : exn)      (* "Attempt n failed: ..." *)
| GenerationFailed                     (* "Failed to generate questions. ..." *)
| FeedbackError (e : exn).             (* "Feedback Error: ..." *)

Record World := {
  net : nat -> res text;
  calls : nat;
  slept : nat;
  shown : list notice
}.

Definition say (m : notice) (w : World) : World :=
  {| net := net w; calls := calls w; slept := slept w;
     shown := shown w ++ [m] |}.

Definition sleep (secs : nat) (w : World) : World :=
  {| net := net w; calls := calls w; slept := slept w + secs;
     shown := shown w |}.

(** [client.chat.completions.create(...)] and the reply's content. *)
Definition create_completion (w : World) : res text * World :=
  (net w (calls w),
   {| net := net w; calls := S (calls w); slept := slept w;
      shown := shown w |}).

(** How a handler ends.  [st.stop()] and [st.rerun()] raise Streamlit's
    script-control exceptions, which are not subclasses of [Exception]. *)
Inductive outcome (A : Type) :=
| Return (a : A)
| Raise (e : exn)
| Stop
| Rerun.
Arguments Return {A} a.
Arguments Raise {A} e.
Arguments Stop {A}.
Arguments Rerun {A}.

Definition truthy (k : option text) : bool :=
  match k with
  | Some (_ :: _) => true
  | _ => false
  end.

(** [get_groq_client]: without a key, a warning and [st.stop()].  The
    client's constructor accepts any non-empty key. *)
Definition get_groq_client (q : Quiz) (w : World) : outcome unit * World :=
  if truthy (api_key q) then (Return tt, w) else (Stop, say KeyMissing w).

Definition set_raw_response (q : Quiz) (raw : text) : Quiz := {|
  api_key := api_key q;
  user_details := user_details q;
  questions := questions q;
  current_q := current_q q;
  score := score q;
  difficulty := difficulty q;
  history := history q;
  feedback := feedback q;
  chat_history := chat_history q;
  raw_response := Some raw;
  parsing_errors := parsing_errors q;
  attempt_count := attempt_count q
|}.

Definition bump_attempt_count (q : Quiz) : Quiz := {|
  api_key := api_key q;
  user_details := user_details q;
  questions := questions q;
  current_q := current_q q;
  score := score q;
  difficulty := difficulty q;
  history := history q;
  feedback := feedback q;
  chat_history := chat_history q;
  raw_response := raw_response q;
  parsing_errors := parsing_errors q;
  attempt_count := attempt_count q + 1
|}.

(** The [except Exception] branch of [generate_questions]. *)
Definition attempt_failed (e : exn) (q : Quiz) (w : World)
  : outcome (option (list pyval)) * Quiz * World :=
  let q' := bump_attempt_count q in
  (Return None, q', say (AttemptFailed (attempt_count q') e) w).

(** The body of [generate_questions], without its decorator. *)
Definition generate_questions_body (cfg : interp) (q : Quiz) (w : World)
  : outcome (option (list pyval)) * Quiz * World :=
  match get_groq_client q w with
  | (Return _, w1) =>
      match create_completion w1 with
      | (Ok raw_response, w2) =>
          let q1 := set_raw_response q raw_response in
          match extract_questions cfg raw_response q1 with
          | (Ok qs, q2) => (Return (Some qs), q2, w2)
          | (Error e, q2) => attempt_failed e q2 w2
          end
      | (Error e, w2) => attempt_failed e q w2
      end
  | (Raise e, w1) => (Raise e, q, w1)
  | (Stop, w1) => (Stop, q, w1)
  | (Rerun, w1) => (Rerun, q, w1)
  end.

(** [tenacity.retry(stop=stop_after_attempt(n), wait=wait_fixed(secs))]:
    the call is repeated while it raises an [Exception]; after the n-th
    such failure [RetryError] is raised.  A call that returns, whatever the
    value, is final. *)
Fixpoint retrying (A : Type) (attempts secs : nat)
         (f : Quiz -> World -> outcome A * Quiz * World)
         (q : Quiz) (w : World) : outcome A * Quiz * World :=
  match attempts with
  | O => (Raise RetryError, q, w)
  | S n =>
      match f q w with
      | (Raise e, q1, w1) =>
          match n with
          | O => (Raise RetryError, q1, w1)
          | S _ => retrying n secs f q1 (sleep secs w1)
          end
      | r => r
      end
  end.

Definition generate_questions (cfg : interp) (q : Quiz) (w : World)
  : outcome (option (list pyval)) * Quiz * World :=
  retrying 3 1 (generate_questions_body cfg) q w.

(** The [update] of [generate_quiz] after a successful generation. *)
Definition start_quiz (q : Quiz) (qs : list pyval) : Quiz := {|
  api_key := api_key q;
  user_details := user_details q;
  questions := qs;
  current_q := 0;
  score := 0;
  difficulty := difficulty q;
  history := [];
  feedback := [];
  chat_history := chat_history q;
  raw_response := raw_response q;
  parsing_errors := parsing_errors q;
  attempt_count := 0
|}.

(** [generate_quiz].  The prompt reads the fields of [user_details]; with the
    empty dict of the initial state that is a [KeyError]. *)
Definition generate_quiz (cfg : interp) (q : Quiz) (w : World)
  : outcome unit * Quiz * World :=
  match user_details q with
  | None => (Raise KeyError, q, w)
  | Some _ =>
      match generate_questions cfg q w with
      | (Return (Some (x :: qs)), q1, w1) => (Rerun, start_quiz q1 (x :: qs), w1)
      | (Return _, q1, w1) => (Return tt, q1, say GenerationFailed w1)
      | (Raise e, q1, w1) => (Raise e, q1, w1)
      | (Stop, q1, w1) => (Stop, q1, w1)
      | (Rerun, q1, w1) => (Rerun, q1, w1)
      end
  end.

(** The update of the "Retake Quiz" button, followed by [st.rerun()]. *)
Definition retake_quiz (q : Quiz) : outcome unit * Quiz :=
  (Rerun,
   {| api_key := api_key q;
      user_details := user_details q;
      questions := [];
      current_q := 0;
      score := 0;
      difficulty := difficulty q;
      history := [];
      feedback := [];
      chat_history := chat_history q;
      raw_response := raw_response q;
      parsing_errors := parsing_errors q;
      attempt_count := attempt_count q |}).

(** ** Answers *)

Fixpoint lstrip (s : ustr) : ustr :=
  match s with
  | c :: s' => if uni_space c then lstrip s' else s
  | [] => []
  end.

(** [str.strip()] *)
Definition strip (s : ustr) : ustr := rev (lstrip (rev (lstrip s))).

(** [v.strip()]: only a [str] has the method. *)
Definition py_strip (v : pyval) : res ustr :=
  match v with
  | PStr s => Ok (strip s)
  | _ => Error AttributeError
  end.

(** [v[key]] for a string key. *)
Definition subscript (v : pyval) (key : string) : res pyval :=
  match v with
  | PDict d =>
      match dict_get d (u key) with
      | Some x => Ok x
      | None => Error KeyError
      end
  | _ => Error TypeError
  end.

Definition set_feedback (q : Quiz) (fb : text) : Quiz := {|
  api_key := api_key q;
  user_details := user_details q;
  questions := questions q;
  current_q := current_q q;
  score := score q;
  difficulty := difficulty q;
  history := history q;
  feedback := fb;
  chat_history := chat_history q;
  raw_response := raw_response q;
  parsing_errors := parsing_errors q;
  attempt_count := attempt_count q
|}.

(** [generate_feedback]: the prompt is built outside the [try]. *)
Definition generate_feedback (q : Quiz) (w : World)
  : outcome unit * Quiz * World :=
  match user_details q with
  | None => (Raise KeyError, q, w)
  | Some _ =>
      match get_groq_client q w with
      | (Return _, w1) =>
          match create_completion w1 with
          | (Ok reply, w2) => (Return tt, set_feedback q reply, w2)
          | (Error e, w2) => (Return tt, q, say (FeedbackError e) w2)
          end
      | (Raise e, w1) => (Return tt, q, say (FeedbackError e) w1)
      | (Stop, w1) => (Stop, q, w1)
      | (Rerun, w1) => (Rerun, q, w1)
      end
  end.

(** The three updates of [process_answer]. *)
Definition record_answer (q : Quiz) (r : AnswerRecord) : Quiz := {|
  api_key := api_key q;
  user_details := user_details q;
  questions := questions q;
  current_q := current_q q;
  score := if is_correct r then score q + 1 else score q;
  difficulty := difficulty q;
  history := history q ++ [r];
  feedback := feedback q;
  chat_history := chat_history q;
  raw_response := raw_response q;
  parsing_errors := parsing_errors q;
  attempt_count := attempt_count q
|}.

Definition next_question (q : Quiz) : Quiz := {|
  api_key := api_key q;
  user_details := user_details q;
  questions := questions q;
  current_q := current_q q + 1;
  score := score q;
  difficulty := difficulty q;
  history := history q;
  feedback := feedback q;
  chat_history := chat_history q;
  raw_response := raw_response q;
  parsing_errors := parsing_errors q;
  attempt_count := attempt_count q
|}.

(** The first statement of [process_answer]:
    [user_answer.strip() == q['Answer'].strip()], left operand first. *)
Definition answer_matches (qd user_ans : pyval) : res bool :=
  match py_strip user_ans with
  | Error e => Error e
  | Ok ua =>
      match subscript qd "Answer" with
      | Error e => Error e
      | Ok a =>
          match py_strip a with
          | Error e => Error e
          | Ok ca => Ok (ustr_eqb ua ca)
          end
      end
  end.

Definition process_answer (qd user_ans : pyval) (q : Quiz) (w : World)
  : outcome unit * Quiz * World :=
  match answer_matches qd user_ans with
  | Error e => (Raise e, q, w)
  | Ok correct =>
      match subscript qd "Question", subscript qd "Answer" with
      | Ok qt, Ok a =>
          let q1 := record_answer q
                      {| question := qt; user_answer := user_ans;
                         correct_answer := a; is_correct := correct |} in
          if (current_q q1 <? Z.of_nat (length (questions q1)) - 1)%Z
          then (Rerun, next_question q1, w)
          else generate_feedback q1 w
      | Error e, _ => (Raise e, q, w)
      | _, Error e => (Raise e, q, w)
      end
  end.

(** [l[i]]: a negative index counts from the end. *)
Definition py_index (A : Type) (l : list A) (i : Z) : option A :=
  let n := Z.of_nat (length l) in
  if (i <? - n)%Z || (n <=? i)%Z then None
  else nth_error l (Z.to_nat (if (i <? 0)%Z then i + n else i)%Z).

(** [q['Options'].values()]: the values of a dict, in order. *)
Definition option_values (qd : pyval) : res (list pyval) :=
  match subscript qd "Options" with
  | Error e => Error e
  | Ok (PDict opts) => Ok (map snd opts)
  | Ok _ => Error AttributeError
  end.

(** [show_question] with its submit button pressed: the current question is
    looked up and displayed (which reads its [Question] and [Options]), and
    the value picked in the radio group, [PNone] when nothing is picked, goes
    to [process_answer]. *)
Definition submit (user_ans : pyval) (q : Quiz) (w : World)
  : outcome unit * Quiz * World :=
  match py_index (questions q) (current_q q) with
  | None => (Raise IndexError, q, w)
  | Some qd =>
      match subscript qd "Question", option_values qd with
      | Ok _, Ok _ => process_answer qd user_ans q w
      | Error e, _ => (Raise e, q, w)
      | _, Error e => (Raise e, q, w)
      end
  end.

(** Successive submissions, each on the state the previous one left; a
    submission that raises leaves the page and the next one starts from the
    state at that point. *)
Fixpoint submit_all (answers : list pyval) (q : Quiz) (w : World)
  : Quiz * World :=
  match answers with
  | [] => (q, w)
  | a :: rest =>
      let '(_, q1, w1) := submit a q w in submit_all rest q1 w1
  end.

(** ** Sample data *)

Definition nl : text := [newline].

(** The example of the system instruction, as a reply. *)
Definition sample_block : text :=
  t "{'Question': 'What is 2+2?', 'Options': {'OptionA': '3','OptionB': '4','OptionC': '5','OptionD': '6'}, 'Answer': '4'}".

Definition sample_reply : text := t "**Question1**" ++ nl ++ sample_block.

(** A question about a ratio, in the format of the system instruction. *)
Definition ratio_block : text :=
  t "{'Question': 'What is the ratio 2:4 in simplest form?', 'Options': {'OptionA': '1:2','OptionB': '2:1','OptionC': '1:4','OptionD': '4:1'}, 'Answer': '1:2'}".

Definition ratio_reply : text := t "**Question1**" ++ nl ++ ratio_block.

(** A block that is an empty object. *)
Definition empty_object_reply : text := t "**Question1**{}".

(** A block whose value is nested [n] arrays deep. *)
Definition nested_body (n : nat) : text := t "'a':" ++ repeat "["%char n.

Definition nested_reply (n : nat) : text :=
  marker (t "1") ++ braced (nested_body n).

(** Two blocks back to back; the text of the first question quotes a brace
    and a marker. *)
Definition quoting_body : text :=
  t "'Question': 'What follows {x}**Question2** here?', 'Options': {'OptionA': 'a','OptionB': 'b','OptionC': 'c','OptionD': 'd'}, 'Answer': 'a'".

Definition sample_body : text :=
  t "'Question': 'What is 2+2?', 'Options': {'OptionA': '3','OptionB': '4','OptionC': '5','OptionD': '6'}, 'Answer': '4'".

Definition quoting_reply : text :=
  marker (t "1") ++ braced quoting_body ++ marker (t "2") ++ braced sample_body.

Definition two_block_reply : text :=
  marker (t "1") ++ nl ++ braced sample_body
  ++ marker (t "2") ++ nl ++ braced sample_body.

Definition sample_options : pyval :=
  PDict [(u "OptionA", PStr (u "3")); (u "OptionB", PStr (u "4"));
         (u "OptionC", PStr (u "5")); (u "OptionD", PStr (u "6"))].

Definition sample_question : pyval :=
  PDict [(u "Question", PStr (u "What is 2+2?"));
         (u "Options", sample_options);
         (u "Answer", PStr (u "4"))].

(** ** Re-serialization

    The module has no function that writes a record back as text.  The
    definitions of this section, up to [dumps], model one: [json.dumps] with
    its defaults. *)

(** Modelled from the spec: a hexadecimal digit of the re-serialization,
    lower case as [json.dumps] writes it. *)
Definition hexdigit (n : N) : ascii :=
  ascii_of_N (if (n <? 10)%N then 48 + n else 87 + n).

(** Modelled from the spec: the escape of the re-serialization for a code
    point below U+10000, a backslash, u and four hexadecimal digits. *)
Definition u_escape (n : N) : text :=
  "\"%char :: "u"%char
    :: map hexdigit [n / 4096; (n / 256) mod 16; (n / 16) mod 16; n mod 16]%N.

(** Modelled from the spec: how the re-serialization writes one character
    of a text, as [json.dumps] does with ensure_ascii: the two characters
    that need a backslash, the short escapes, printable ASCII as it is,
    everything else as a four-digit escape, above U+FFFF as a surrogate
    pair. *)
Definition escape_char (c : N) : text :=
  if (c =? 34)%N then ["\"%char; dquote]
  else if (c =? 92)%N then ["\"%char; "\"%char]
  else if (c =? 10)%N then ["\"%char; "n"%char]
  else if (c =? 13)%N then ["\"%char; "r"%char]
  else if (c =? 9)%N then ["\"%char; "t"%char]
  else if (c =? 8)%N then ["\"%char; "b"%char]
  else if (c =? 12)%N then ["\"%char; "f"%char]
  else if between 32 126 c then [ascii_of_N c]
  else if (c <? 65536)%N then u_escape c
  else u_escape (55296 + ((c - 65536) / 1024) mod 1024)
         ++ u_escape (56320 + (c - 65536) mod 1024).

(** Modelled from the spec: a text of the re-serialization, between double
    quotes. *)
Definition dumps_str (s : ustr) : text :=
  dquote :: flat_map escape_char s ++ [dquote].

(** [sep.join(parts)] *)
Fixpoint join (sep : text) (parts : list text) : text :=
  match parts with
  | [] => []
  | [p] => p
  | p :: rest => p ++ sep ++ join sep rest
  end.

(** Modelled from the spec: the re-serialization of a decoded record, which
    the module does not contain.  It is taken to be [json.dumps] with its
    defaults, the inverse of the decoder the parser uses: items separated by
    a comma and a space, a colon and a space after each key.  A float is
    written as the literal it was read from. *)
Fixpoint dumps (v : pyval) : text :=
  match v with
  | PNone => t "null"
  | PBool true => t "true"
  | PBool false => t "false"
  | PInt z => t (NilEmpty.string_of_int (Z.to_int z))
  | PFloat lexeme => lexeme
  | PStr s => dumps_str s
  | PList l => "["%char :: join (t ", ") (map dumps l) ++ ["]"%char]
  | PDict d =>
      "{"%char
        :: join (t ", ")
                (map (fun kv => dumps_str (fst kv) ++ t ": " ++ dumps (snd kv)) d)
        ++ ["}"%char]
  end.

(** A text of Unicode scalar values without apostrophe and colon. *)
Definition plain_char (c : N) : bool :=
  ((c <? 55296) || (57344 <=? c) && (c <? 1114112))%N
  && negb (c =? 39)%N && negb (c =? 58)%N.

Definition plain_text (s : ustr) : bool := forallb plain_char s.

Fixpoint unique_keys (A : Type) (d : list (ustr * A)) : bool :=
  match d with
  | [] => true
  | (k, _) :: d' =>
      negb (existsb (fun kv => ustr_eqb k (fst kv)) d') && unique_keys d'
  end.

(** A dict of plain texts under distinct plain keys. *)
Definition plain_options (v : pyval) : bool :=
  match v with
  | PDict d =>
      unique_keys d
      && forallb (fun kv => plain_text (fst kv)
                            && match snd kv with
                               | PStr s => plain_text s
                               | _ => false
                               end) d
  | _ => false
  end.

(** A record in the shape of a question: a dict whose values are plain
    texts or dicts of plain texts, under distinct plain keys. *)
Definition plain_record (v : pyval) : bool :=
  match v with
  | PDict d =>
      unique_keys d
      && forallb (fun kv => plain_text (fst kv)
                            && match snd kv with
                               | PStr s => plain_text s
                               | other => plain_options other
                               end) d
  | _ => false
  end.

(** A Unicode scalar value: a code point that is not a surrogate. *)
Definition scalar (c : N) : Prop :=
  (c < 55296 \/ 57344 <= c < 1114112)%N.

(** One item of a serialized dict. *)
Definition entry (kv : ustr * pyval) : text :=
  dumps_str (fst kv) ++ t ": " ++ dumps (snd kv).

(** The text starts with a character that is not JSON whitespace. *)
Definition solid (x : text) : Prop :=
  exists a r, x = a :: r /\ is_json_ws a = false.

(** The value is read back from its serialization by [scan], whatever
    follows. *)
Definition reads (scan : text -> jres pyval) (v : pyval) : Prop :=
  solid (dumps v) /\ forall tail, scan (dumps v ++ tail) = JOk v tail.

(** Every colon of the text comes right after a double quote ([prev] is
    the character before the text). *)
Fixpoint guarded (prev : ascii) (s : text) : bool :=
  match s with
  | [] => true
  | c :: s' =>
      (negb (Ascii.eqb c ":") || Ascii.eqb prev dquote) && guarded c s'
  end.

(** The characters [json.dumps] writes for a plain text. *)
Definition tame (c : ascii) : bool :=
  negb (Ascii.eqb c squote) && negb (Ascii.eqb c ":").

(** What normalization needs of a serialization: no apostrophe, and every
    colon after a double quote. *)
Definition settled (x : text) : Prop :=
  ~ In squote x /\ forall prev, guarded prev x = true.

(** A reply whose question text writes its apostrophe as an escape. *)
Definition escaped_reply : text :=
  t "**Question1**{'Question': 'What\u0027s 2+2?', 'Options': {'OptionA': '3','OptionB': '4','OptionC': '5','OptionD': '6'}, 'Answer': '4'}".

Definition escaped_question : pyval :=
  PDict [(u "Question", PStr (u "What's 2+2?"));
         (u "Options", sample_options);
         (u "Answer", PStr (u "4"))].

Definition sample_details : UserDetails := {|
  name := t "Ada";
  grade := 5;
  subject := t "Math";
  topic := t "Fractions";
  level := t "Beginner";
  num_questions := 5
|}.

(** A session with a key and the form filled in, after one failed
    generation. *)
Definition ready_quiz : Quiz := {|
  api_key := Some (t "gsk_key");
  user_details := Some sample_details;
  questions := [];
  current_q := 0;
  score := 0;
  difficulty := t "beginner";
  history := [];
  feedback := [];
  chat_history := [{| is_user := true; content := t "hello" |}];
  raw_response := Some (t "sorry");
  parsing_errors := [];
  attempt_count := 1
|}.

Definition world_of (f : nat -> res text) : World :=
  {| net := f; calls := 0; slept := 0; shown := [] |}.

(** Every call of the API answers with the sample reply. *)
Definition steady_world : World := world_of (fun _ => Ok sample_reply).

(** The first call fails, the later ones answer. *)
Definition flaky_world : World :=
  world_of (fun k => match k with
                     | O => Error (APIError (t "connection reset"))
                     | S _ => Ok sample_reply
                     end).

Definition count_correct (h : list AnswerRecord) : nat :=
  length (filter is_correct h).

(** ** Replies laid out block by block *)

(** One block of a reply: the digits of its marker, the text between marker
    and opening brace, the text between the braces, and the text after the
    closing brace. *)
Record Layout := {
  digits : text;
  gap : text;
  body : text;
  trail : text
}.

Definition laid_out (b : Layout) : text :=
  marker (digits b) ++ gap b ++ braced (body b) ++ trail b.

Definition reply_of (bs : list Layout) : text := flat_map laid_out bs.

Definition no_char (c : ascii) (s : text) : bool :=
  forallb (fun a => negb (Ascii.eqb a c)) s.

(** A marker with digits, whitespace around the braces, and a body none of
    whose closing braces is followed by optional whitespace and a marker. *)
Definition clean_layout (b : Layout) : bool :=
  match digits b with [] => false | _ :: _ => true end
  && all_digits (digits b) && all_space (gap b) && all_space (trail b)
  && negb (early_close (body b)).

(** The same, but followed by text without a closing brace at which the
    pattern cannot end: something else than whitespace up to the end of the
    reply or up to a marker. *)
Definition cut_off_layout (b : Layout) : bool :=
  match digits b with [] => false | _ :: _ => true end
  && all_digits (digits b) && all_space (gap b)
  && negb (early_close (body b))
  && no_char "}" (trail b) && negb (closes (trail b)).

(** Whether a marker occurs somewhere in the text. *)
Fixpoint has_marker (s : text) : bool :=
  match s with
  | [] => false
  | _ :: s' =>
      match match_at marker_re s with
      | Some _ => true
      | None => has_marker s'
      end
  end.

(** The text without its quote characters of either kind. *)
Definition unquoted (s : text) : text :=
  filter (fun c => negb (Ascii.eqb c squote) && negb (Ascii.eqb c dquote)) s.

(** Two clean blocks as a model usually writes them: a newline after each
    marker and after each block. *)
Definition sample_layouts : list Layout :=
  [{| digits := t "1"; gap := [newline]; body := sample_body;
      trail := [newline; newline] |};
   {| digits := t "2"; gap := [newline]; body := sample_body;
      trail := [newline] |}].

(** A block followed by a closing remark. *)
Definition remark_layout : Layout :=
  {| digits := t "3"; gap := [newline]; body := sample_body;
     trail := t " Good luck!" |}.

(** ** The form, the question page and the chat *)

Definition set_user_details (q : Quiz) (d : UserDetails) : Quiz := {|
  api_key := api_key q;
  user_details := Some d;
  questions := questions q;
  current_q := current_q q;
  score := score q;
  difficulty := difficulty q;
  history := history q;
  feedback := feedback q;
  chat_history := chat_history q;
  raw_response := raw_response q;
  parsing_errors := parsing_errors q;
  attempt_count := attempt_count q
|}.

(** [user_details_form]: the dict of the six widget values is stored every
    time the form is drawn; [generate_quiz] follows when the button was
    pressed. *)
Definition user_details_form (cfg : interp) (form : UserDetails)
           (pressed : bool) (q : Quiz) (w : World)
  : outcome unit * Quiz * World :=
  let q1 := set_user_details q form in
  if pressed then generate_quiz cfg q1 w else (Return tt, q1, w).

(** [show_question]: the current question is looked up and displayed, which
    reads its [Question] and the values of its [Options]; [choice] is what
    the radio group returns, [PNone] when nothing is picked, and it goes to
    [process_answer] when the button was pressed.  The audio of the question
    is outside the model. *)
Definition show_question (choice : pyval) (pressed : bool)
           (q : Quiz) (w : World) : outcome unit * Quiz * World :=
  match py_index (questions q) (current_q q) with
  | None => (Raise IndexError, q, w)
  | Some qd =>
      match subscript qd "Question", option_values qd with
      | Ok _, Ok _ =>
          if pressed then process_answer qd choice q w else (Return tt, q, w)
      | Error e, _ => (Raise e, q, w)
      | _, Error e => (Raise e, q, w)
      end
  end.

(** What the radio group of a question can return: nothing, or one of the
    values of its [Options]. *)
Definition radio_value (qd choice : pyval) : Prop :=
  choice = PNone
  \/ exists opts, option_values qd = Ok opts /\ In choice opts.

Definition add_chat_turn (q : Quiz) (turn : ChatTurn) : Quiz := {|
  api_key := api_key q;
  user_details := user_details q;
  questions := questions q;
  current_q := current_q q;
  score := score q;
  difficulty := difficulty q;
  history := history q;
  feedback := feedback q;
  chat_history := chat_history q ++ [turn];
  raw_response := raw_response q;
  parsing_errors := parsing_errors q;
  attempt_count := attempt_count q
|}.

(** The error message of the chat: "Chat Error: ...". *)
Inductive chat_notice :=
| ChatError (e : exn).

(** [chat_interface]: [prompt] is what the chat input returns, [None] or the
    text the user sent.  The user's turn is stored before the API is
    called. *)
Definition chat_interface (prompt : option text) (q : Quiz) (w : World)
  : outcome unit * Quiz * World * list chat_notice :=
  match prompt with
  | Some (c :: p) =>
      let q1 := add_chat_turn q {| is_user := true; content := c :: p |} in
      match get_groq_client q1 w with
      | (Return _, w1) =>
          match create_completion w1 with
          | (Ok reply, w2) =>
              (Rerun,
               add_chat_turn q1 {| is_user := false; content := reply |},
               w2, [])
          | (Error e, w2) => (Return tt, q1, w2, [ChatError e])
          end
      | (Raise e, w1) => (Return tt, q1, w1, [ChatError e])
      | (Stop, w1) => (Stop, q1, w1, [])
      | (Rerun, w1) => (Rerun, q1, w1, [])
      end
  | _ => (Return tt, q, w, [])
  end.

(** ** One run of the script *)

(** What the widgets return in one run. *)
Record Inputs := {
  key_box : text;              (* the API key field *)
  form_values : UserDetails;   (* the widgets of the form *)
  start_pressed : bool;        (* "Start Quiz" *)
  radio_choice : pyval;        (* the radio group of the question *)
  submit_pressed : bool;       (* "Submit Answer" *)
  retake_pressed : bool;       (* "Retake Quiz" *)
  chat_box : option text       (* the chat input *)
}.

Definition set_api_key (q : Quiz) (k : text) : Quiz := {|
  api_key := Some k;
  user_details := user_details q;
  questions := questions q;
  current_q := current_q q;
  score := score q;
  difficulty := difficulty q;
  history := history q;
  feedback := feedback q;
  chat_history := chat_history q;
  raw_response := raw_response q;
  parsing_errors := parsing_errors q;
  attempt_count := attempt_count q
|}.

(** The form or the current question, whichever the state calls for. *)
Definition quiz_stage (cfg : interp) (inp : Inputs) (q : Quiz) (w : World)
  : outcome unit * Quiz * World :=
  match user_details q, questions q with
  | Some _, _ :: _ =>
      show_question (radio_choice inp) (submit_pressed inp) q w
  | _, _ =>
      user_details_form cfg (form_values inp) (start_pressed inp) q w
  end.

(** The report with its "Retake Quiz" button, drawn when there is a
    feedback text; then the chat.  The debug panel, drawn last, only
    displays. *)
Definition report_stage (inp : Inputs) (q : Quiz) (w : World)
  : outcome unit * Quiz * World * list chat_notice :=
  match feedback q with
  | _ :: _ =>
      if retake_pressed inp
      then let '(o, q1) := retake_quiz q in (o, q1, w, [])
      else chat_interface (chat_box inp) q w
  | [] => chat_interface (chat_box inp) q w
  end.

(** The main application flow: the key field is stored, and with a key the
    stages follow one another until one of them leaves the script. *)
Definition main_flow (cfg : interp) (inp : Inputs) (q : Quiz) (w : World)
  : outcome unit * Quiz * World * list chat_notice :=
  let q0 := set_api_key q (key_box inp) in
  if truthy (api_key q0) then
    match quiz_stage cfg inp q0 w with
    | (Return _, q1, w1) => report_stage inp q1 w1
    | (o, q1, w1) => (o, q1, w1, [])
    end
  else (Return tt, q0, w, []).

(** ** What a quiz run is expected to record *)

(** The field of a record, [PNone] when it has none. *)
Definition field (qd : pyval) (key : string) : pyval :=
  match subscript qd key with
  | Ok v => v
  | Error _ => PNone
  end.

(** Whether the text equals the record's answer once both are stripped. *)
Definition verdict (qd : pyval) (a : ustr) : bool :=
  match field qd "Answer" with
  | PStr c => ustr_eqb (strip a) (strip c)
  | _ => false
  end.

Definition answer_record (qd : pyval) (a : ustr) : AnswerRecord :=
  {| question := field qd "Question";
     user_answer := PStr a;
     correct_answer := field qd "Answer";
     is_correct := verdict qd a |}.

(** The cursor points at a question, when there are questions. *)
Definition cursor_ok (q : Quiz) : Prop :=
  questions q = []
  \/ (0 <= current_q q < Z.of_nat (length (questions q)))%Z.

(** [a] is the beginning of [b]. *)
Definition prefix_of (A : Type) (a b : list A) : Prop :=
  exists more, b = a ++ more.

(** A state in which a quiz is under way, on its second question. *)
Definition running_quiz : Quiz := {|
  api_key := Some (t "gsk_key");
  user_details := Some sample_details;
  questions := [sample_question; sample_question; sample_question];
  current_q := 1;
  score := 1;
  difficulty := t "beginner";
  history := [answer_record sample_question (u "4")];
  feedback := [];
  chat_history := [];
  raw_response := Some sample_reply;
  parsing_errors := [];
  attempt_count := 0
|}.

(** The user picks "5" and submits. *)
Definition sample_inputs : Inputs := {|
  key_box := t "gsk_key";
  form_values := sample_details;
  start_pressed := false;
  radio_choice := PStr (u "5");
  submit_pressed := true;
  retake_pressed := false;
  chat_box := None
|}.

(** A record whose answer is none of its options. *)
Definition mismatched_question : pyval :=
  PDict [(u "Question", PStr (u "What is 2+2?"));
         (u "Options", sample_options);
         (u "Answer", PStr (u "four"))].

(** ** Runs of the script, one after the other *)



(** What every handler keeps to: the key stays, user details are not lost,
    diagnostics and chat transcript only grow, nothing sleeps, at most one
    call of the API is made, and with a key the script is not stopped and
    the key is not asked for. *)
Definition orderly (A : Type) (q : Quiz) (w : World) (o : outcome A)
           (q' : Quiz) (w' : World) : Prop :=
  api_key q' = api_key q
  /\ (user_details q <> None -> user_details q' <> None)
  /\ prefix_of (parsing_errors q) (parsing_errors q')
  /\ prefix_of (chat_history q) (chat_history q')
  /\ slept w' = slept w
  /\ calls w <= calls w' <= S (calls w)
  /\ (truthy (api_key q) = true ->
      o <> Stop /\ (In KeyMissing (shown w') -> In KeyMissing (shown w))).

(** The exceptions of a question record that lacks a field or holds a value
    of another type than expected. *)
Definition record_error (e : exn) : Prop :=
  e = AttributeError \/ e = KeyError \/ e = TypeError.

(** The user submits without having picked an option. *)
Definition blank_inputs : Inputs := {|
  key_box := t "gsk_key";
  form_values := sample_details;
  start_pressed := false;
  radio_choice := PNone;
  submit_pressed := true;
  retake_pressed := false;
  chat_box := None
|}.

(** * Properties *)

(** ** The decoder: iteration bound and exceptions *)

Lemma skip_ws_length (s : text) : length (skip_ws s) <= length s.
Proof.
  induction s as [|c s IH]; cbn; [lia|]. destruct (is_json_ws c); cbn; lia.
Qed.

Lemma scanstring_shorter (start s : text) :
  forall skip acc k r,
    scanstring start s skip acc = JOk k r -> length r < length s.
Proof.
  induction s as [|c s IH]; intros skip acc k r H; cbn in H; [discriminate|].
  destruct skip as [|n].
  - destruct (Ascii.eqb c dquote).
    + injection H as _ <-. cbn. lia.
    + destruct (Ascii.eqb c "\").
      * destruct s as [|e s2]; [discriminate|].
        destruct (escape (e :: s2)); [|discriminate].
        apply IH in H. cbn in *. lia.
      * destruct (code c <=? 31)%N; [discriminate|].
        apply IH in H. cbn. lia.
  - apply IH in H. cbn. lia.
Qed.

Lemma scanstring_plain (start s : text) :
  forall skip acc,
    match scanstring start s skip acc with
    | JOk _ _ | JFail _ _ => True
    | JRaise _ | JStuck => False
    end.
Proof.
  induction s as [|c s IH]; intros skip acc; cbn; [exact I|].
  destruct skip as [|n]; [|apply IH].
  destruct (Ascii.eqb c dquote); [exact I|].
  destruct (Ascii.eqb c "\").
  - destruct s as [|e s2]; [exact I|].
    destruct (escape (e :: s2)); [apply IH|exact I].
  - destruct (code c <=? 31)%N; [exact I|apply IH].
Qed.

Lemma span_digits_length (s : text) :
  length (snd (span_digits s)) <= length s.
Proof.
  induction s as [|c s IH]; cbn; [lia|].
  destruct (is_dec c); cbn; [|lia].
  destruct (span_digits s); cbn in *. lia.
Qed.

Lemma sign_part_length (s : text) : length (snd (sign_part s)) <= length s.
Proof.
  destruct s as [|c s]; cbn; [lia|]. destruct (Ascii.eqb c "-"); cbn; lia.
Qed.

Lemma int_part_shorter (s ip r : text) :
  int_part s = Some (ip, r) -> length r < length s.
Proof.
  destruct s as [|c s]; cbn; [discriminate|].
  pose proof (span_digits_length s) as E.
  destruct (between 49 57 (code c)).
  - destruct (span_digits s) as [d r']. intro H. injection H as _ <-.
    cbn in *. lia.
  - destruct (Ascii.eqb c "0"); [|discriminate].
    intro H. injection H as _ <-. cbn. lia.
Qed.

Lemma frac_part_length (s : text) : length (snd (frac_part s)) <= length s.
Proof.
  destruct s as [|p [|q r]]; cbn; try lia.
  destruct (Ascii.eqb p "." && is_dec q); cbn; [|lia].
  pose proof (span_digits_length r) as E.
  destruct (span_digits r). cbn in *. lia.
Qed.

Lemma exp_part_length (s : text) : length (snd (exp_part s)) <= length s.
Proof.
  destruct s as [|e r]; cbn; [lia|].
  destruct (Ascii.eqb e "e" || Ascii.eqb e "E"); cbn; [|lia].
  assert (H : forall r3, length r3 <= length r ->
            length (snd (let (d, r4) := span_digits r3 in
                         match d with
                         | [] => (@nil ascii, e :: r)
                         | _ :: _ => (e :: [] ++ d, r4)
                         end)) <= S (length r)).
  { intros r3 H3. pose proof (span_digits_length r3) as E.
    destruct (span_digits r3) as [d r4]. destruct d; cbn in *; lia. }
  destruct r as [|g [|h r'']]; try (cbn; lia).
  - cbn. destruct (is_dec g); cbn; lia.
  - destruct (Ascii.eqb g "+" || Ascii.eqb g "-").
    + pose proof (span_digits_length (h :: r'')) as E.
      destruct (span_digits (h :: r'')) as [d r4].
      destruct d; cbn in *; lia.
    + pose proof (span_digits_length (g :: h :: r'')) as E.
      destruct (span_digits (g :: h :: r'')) as [d r4].
      destruct d; cbn in *; lia.
Qed.

Lemma match_number_shorter (s : text) neg ip tl r :
  match_number s = Some (neg, ip, tl, r) -> length r < length s.
Proof.
  unfold match_number.
  pose proof (sign_part_length s) as E1.
  destruct (sign_part s) as [n s1]. cbn in E1.
  destruct (int_part s1) as [[ip' r0]|] eqn:Ei; [|discriminate].
  apply int_part_shorter in Ei.
  pose proof (frac_part_length r0) as E2.
  destruct (frac_part r0) as [fr r1]. cbn in E2.
  pose proof (exp_part_length r1) as E3.
  destruct (exp_part r1) as [ex r2]. cbn in E3.
  intro H. injection H as _ _ _ <-. lia.
Qed.

Lemma number_shorter (cfg : interp) (s : text) v r :
  number cfg s = JOk v r -> length r < length s.
Proof.
  unfold number.
  destruct (match_number s) as [[[[neg ip] tl] r0]|] eqn:E; [|discriminate].
  apply match_number_shorter in E.
  destruct tl.
  - destruct (_ && _); [discriminate|]. intro H. injection H as _ <-. exact E.
  - intro H. injection H as _ <-. exact E.
Qed.

Lemma number_no_stuck (cfg : interp) (s : text) : number cfg s <> JStuck.
Proof.
  unfold number.
  destruct (match_number s) as [[[[neg ip] tl] r0]|]; [|discriminate].
  destruct tl; [destruct (_ && _)|]; discriminate.
Qed.

Lemma number_raise (cfg : interp) (s : text) e :
  number cfg s = JRaise e -> e = ValueError.
Proof.
  unfold number.
  destruct (match_number s) as [[[[neg ip] tl] r0]|]; [|discriminate].
  destruct tl; [destruct (_ && _)|]; congruence.
Qed.

Lemma starts_with_length (p : text) :
  forall s r, starts_with p s = Some r -> length s = length p + length r.
Proof.
  induction p as [|a p IH]; intros s r; cbn.
  - intro H. now injection H as ->.
  - destruct s as [|b s]; [discriminate|].
    destruct (Ascii.eqb a b); [|discriminate].
    intro H. apply IH in H. cbn. lia.
Qed.

Lemma literal_shorter (cfg : interp) (word : string) (v0 : pyval) (s : text) v r :
  t word <> [] -> literal cfg word v0 s = JOk v r -> length r < length s.
Proof.
  unfold literal. intros Hw.
  destruct (starts_with (t word) s) eqn:E.
  - apply starts_with_length in E. intro H. injection H as _ <-.
    destruct (t word); [congruence|]. cbn in E. lia.
  - apply number_shorter.
Qed.

Lemma literal_no_stuck (cfg : interp) word v0 s : literal cfg word v0 s <> JStuck.
Proof.
  unfold literal. destruct (starts_with _ _); [discriminate|apply number_no_stuck].
Qed.

Lemma literal_raise (cfg : interp) word v0 s e :
  literal cfg word v0 s = JRaise e -> e = ValueError.
Proof.
  unfold literal. destruct (starts_with _ _); [discriminate|apply number_raise].
Qed.

Lemma after_length (c : ascii) (s r : text) :
  after c s = Some r -> length s = S (length r).
Proof.
  destruct s as [|a s]; cbn; [discriminate|].
  destruct (Ascii.eqb a c); [|discriminate]. intro H. now injection H as ->.
Qed.

Lemma after_cons (c : ascii) (s r : text) : after c s = Some r -> s = c :: r.
Proof.
  destruct s as [|a s]; cbn; [discriminate|].
  destruct (Ascii.eqb a c) eqn:E; [|discriminate].
  apply Ascii.eqb_eq in E. intro H. injection H as ->. now subst.
Qed.

Section Loops.
Variable scan : text -> jres pyval.

Section Shorter.
Hypothesis scan_shorter :
  forall s v r, scan s = JOk v r -> length r < length s.

Lemma object_members_shorter (gas : nat) :
  forall s acc v r,
    object_members scan gas s acc = JOk v r -> length r < length s.
Proof.
  induction gas as [|g IH]; intros s acc v r; cbn; [discriminate|].
  destruct (after dquote s) as [sk|] eqn:Ea; [|discriminate].
  apply after_length in Ea.
  destruct (scanstring s sk 0 []) as [key r0| | |] eqn:Ek; try discriminate.
  apply scanstring_shorter in Ek.
  pose proof (skip_ws_length r0) as E0.
  destruct (after ":" (skip_ws r0)) as [r1|] eqn:E1; [|discriminate].
  apply after_length in E1.
  pose proof (skip_ws_length r1) as E2.
  destruct (scan (skip_ws r1)) as [v1 r2| | |] eqn:Es; try discriminate.
  apply scan_shorter in Es.
  pose proof (skip_ws_length r2) as E3.
  destruct (after "}" (skip_ws r2)) as [r3|] eqn:E4.
  { apply after_length in E4. intro H. injection H as _ <-. lia. }
  destruct (after "," (skip_ws r2)) as [r3|] eqn:E5; [|discriminate].
  apply after_length in E5. pose proof (skip_ws_length r3) as E6.
  intro H. apply IH in H. lia.
Qed.

Lemma array_items_shorter (gas : nat) :
  forall s acc v r,
    array_items scan gas s acc = JOk v r -> length r < length s.
Proof.
  induction gas as [|g IH]; intros s acc v r; cbn; [discriminate|].
  destruct (scan s) as [v1 r2| | |] eqn:Es; try discriminate.
  apply scan_shorter in Es.
  pose proof (skip_ws_length r2) as E3.
  destruct (after "]" (skip_ws r2)) as [r3|] eqn:E4.
  { apply after_length in E4. intro H. injection H as _ <-. lia. }
  destruct (after "," (skip_ws r2)) as [r3|] eqn:E5; [|discriminate].
  apply after_length in E5. pose proof (skip_ws_length r3) as E6.
  intro H. apply IH in H. lia.
Qed.

Hypothesis scan_not_stuck : forall s, scan s <> JStuck.

(** The bound on the iterations is never what ends the loop. *)
Lemma object_members_not_stuck (gas : nat) :
  forall s acc, length s < gas -> object_members scan gas s acc <> JStuck.
Proof.
  induction gas as [|g IH]; intros s acc Hg; [lia|]. cbn.
  destruct (after dquote s) as [sk|] eqn:Ea; [|discriminate].
  apply after_length in Ea.
  pose proof (scanstring_plain s sk 0 []) as Hp.
  destruct (scanstring s sk 0 []) as [key r0| | |] eqn:Ek;
    try discriminate; try contradiction.
  apply scanstring_shorter in Ek.
  pose proof (skip_ws_length r0) as E0.
  destruct (after ":" (skip_ws r0)) as [r1|] eqn:E1; [|discriminate].
  apply after_length in E1.
  pose proof (skip_ws_length r1) as E2.
  pose proof (@scan_not_stuck (skip_ws r1)) as Hn.
  destruct (scan (skip_ws r1)) as [v1 r2| | |] eqn:Es;
    try discriminate; try contradiction.
  apply scan_shorter in Es.
  pose proof (skip_ws_length r2) as E3.
  destruct (after "}" (skip_ws r2)) as [r3|] eqn:E4; [discriminate|].
  destruct (after "," (skip_ws r2)) as [r3|] eqn:E5; [|discriminate].
  apply after_length in E5. pose proof (skip_ws_length r3) as E6.
  apply IH. lia.
Qed.

Lemma array_items_not_stuck (gas : nat) :
  forall s acc, length s < gas -> array_items scan gas s acc <> JStuck.
Proof.
  induction gas as [|g IH]; intros s acc Hg; [lia|]. cbn.
  pose proof (@scan_not_stuck s) as Hn.
  destruct (scan s) as [v1 r2| | |] eqn:Es;
    try discriminate; try contradiction.
  apply scan_shorter in Es.
  pose proof (skip_ws_length r2) as E3.
  destruct (after "]" (skip_ws r2)) as [r3|] eqn:E4; [discriminate|].
  destruct (after "," (skip_ws r2)) as [r3|] eqn:E5; [|discriminate].
  apply after_length in E5. pose proof (skip_ws_length r3) as E6.
  apply IH. lia.
Qed.
End Shorter.

Variable P : exn -> Prop.
Hypothesis scan_raise : forall s e, scan s = JRaise e -> P e.

Lemma object_members_raise (gas : nat) :
  forall s acc e, object_members scan gas s acc = JRaise e -> P e.
Proof.
  induction gas as [|g IH]; intros s acc e; cbn; [discriminate|].
  destruct (after dquote s) as [sk|]; [|discriminate].
  pose proof (scanstring_plain s sk 0 []) as Hp.
  destruct (scanstring s sk 0 []) as [key r0| | |];
    try discriminate; try contradiction.
  destruct (after ":" (skip_ws r0)) as [r1|]; [|discriminate].
  destruct (scan (skip_ws r1)) as [v1 r2| | |] eqn:Es; try discriminate.
  - destruct (after "}" (skip_ws r2)); [discriminate|].
    destruct (after "," (skip_ws r2)); [apply IH|discriminate].
  - intro H. injection H as <-. eapply scan_raise, Es.
Qed.

Lemma array_items_raise (gas : nat) :
  forall s acc e, array_items scan gas s acc = JRaise e -> P e.
Proof.
  induction gas as [|g IH]; intros s acc e; cbn; [discriminate|].
  destruct (scan s) as [v1 r2| | |] eqn:Es; try discriminate.
  - destruct (after "]" (skip_ws r2)); [discriminate|].
    destruct (after "," (skip_ws r2)); [apply IH|discriminate].
  - intro H. injection H as <-. eapply scan_raise, Es.
Qed.
End Loops.

Ltac scan_cases c :=
  destruct (Ascii.eqb c dquote);
  [|destruct (Ascii.eqb c "{");
    [|destruct (Ascii.eqb c "[");
      [|destruct (Ascii.eqb c "n");
        [|destruct (Ascii.eqb c "t");
          [|destruct (Ascii.eqb c "f");
            [|destruct (Ascii.eqb c "N");
              [|destruct (Ascii.eqb c "I");
                [|destruct (Ascii.eqb c "-")]]]]]]]].

Lemma scan_once_shorter (cfg : interp) (depth : nat) :
  forall s v r, scan_once cfg depth s = JOk v r -> length r < length s.
Proof.
  induction depth as [|d IH]; intros s v r; destruct s as [|c s1];
    try discriminate; cbn [scan_once]; scan_cases c;
    try discriminate;
    try (apply literal_shorter; discriminate);
    try apply number_shorter.
  all: try (destruct (scanstring (c :: s1) s1 0 []) eqn:E; try discriminate;
            apply scanstring_shorter in E; cbn;
            intro H; injection H as _ <-; cbn; lia).
  all: pose proof (skip_ws_length s1) as Hw.
  - destruct (after "}" (skip_ws s1)) as [s3|] eqn:Ea.
    + apply after_length in Ea. intro H. injection H as _ <-. cbn. lia.
    + intro H. apply (@object_members_shorter (scan_once cfg d) IH) in H. cbn. lia.
  - destruct (after "]" (skip_ws s1)) as [s3|] eqn:Ea.
    + apply after_length in Ea. intro H. injection H as _ <-. cbn. lia.
    + intro H. apply (@array_items_shorter (scan_once cfg d) IH) in H. cbn. lia.
Qed.

(** [JStuck] is never produced: the iteration bound handed to the loops is
    always enough. *)
Lemma scan_once_not_stuck (cfg : interp) (depth : nat) :
  forall s, scan_once cfg depth s <> JStuck.
Proof.
  induction depth as [|d IH]; intros s; destruct s as [|c s1];
    try discriminate; cbn [scan_once]; scan_cases c;
    try discriminate;
    try apply literal_no_stuck; try apply number_no_stuck.
  all: try (pose proof (scanstring_plain (c :: s1) s1 0 []) as Hp;
            destruct (scanstring (c :: s1) s1 0 []);
            try discriminate; contradiction).
  - destruct (after "}" (skip_ws s1)); [discriminate|].
    apply object_members_not_stuck;
      [apply scan_once_shorter | apply IH | lia].
  - destruct (after "]" (skip_ws s1)); [discriminate|].
    apply array_items_not_stuck;
      [apply scan_once_shorter | apply IH | lia].
Qed.

Lemma scan_once_raise (cfg : interp) (depth : nat) :
  forall s e, scan_once cfg depth s = JRaise e -> limit_error e.
Proof.
  induction depth as [|d IH]; intros s e; destruct s as [|c s1];
    try discriminate; cbn [scan_once]; scan_cases c;
    try (intro H; right; revert H; first [apply literal_raise | apply number_raise]).
  all: try (pose proof (scanstring_plain (c :: s1) s1 0 []) as Hp;
            destruct (scanstring (c :: s1) s1 0 []);
            try discriminate; contradiction).
  all: try (intro H; injection H as <-; left; reflexivity).
  - destruct (after "}" (skip_ws s1)); [discriminate|].
    apply object_members_raise. exact IH.
  - destruct (after "]" (skip_ws s1)); [discriminate|].
    apply array_items_raise. exact IH.
Qed.

(** [json.loads] ends in a value, a [JSONDecodeError], or one of the two
    limit errors. *)
Lemma json_loads_outcome (cfg : interp) (doc : text) :
  match json_loads cfg doc with
  | Ok _ => True
  | Error (JSONDecodeError _ d _) => d = doc
  | Error e => limit_error e
  end.
Proof.
  unfold json_loads.
  pose proof (@scan_once_raise cfg (recursion_depth cfg) (skip_ws doc)) as Hr.
  pose proof (@scan_once_not_stuck cfg (recursion_depth cfg) (skip_ws doc)) as Hs.
  destruct (scan_once cfg (recursion_depth cfg) (skip_ws doc)) as [v r|m a|e|].
  - destruct (skip_ws r); [exact I|reflexivity].
  - reflexivity.
  - destruct (Hr e eq_refl) as [-> | ->]; [left|right]; reflexivity.
  - contradiction.
Qed.


(** ** The matcher is sound for the declarative reading of a pattern *)

Lemma orelse_some {R} (a : option R) (b : unit -> option R) (x : R) :
  orelse a b = Some x -> a = Some x \/ (a = None /\ b tt = Some x).
Proof. destruct a; cbn; intro H; [left|right]; auto. Qed.

Lemma star_loop_sound (k0 : cls) (g : bool) (R : Type) (caps : list text)
      (k : text -> list text -> option R) (x : R) :
  forall s,
    rmatch (Star k0 g) s caps k = Some x ->
    exists p s', s = p ++ s' /\ Forall (fun a => in_cls k0 a = true) p
                 /\ k s' caps = Some x.
Proof.
  induction s as [|a s IH]; cbn.
  - intro H. exists [], []. auto.
  - destruct (in_cls k0 a) eqn:Ea.
    + assert (Hrec : rmatch (Star k0 g) s caps k = Some x ->
                     exists p s', a :: s = p ++ s'
                                  /\ Forall (fun a => in_cls k0 a = true) p
                                  /\ k s' caps = Some x).
      { intro H. destruct (IH H) as (p & s' & -> & Hp & Hk).
        exists (a :: p), s'. auto. }
      assert (Hstop : k (a :: s) caps = Some x ->
                      exists p s', a :: s = p ++ s'
                                   /\ Forall (fun a => in_cls k0 a = true) p
                                   /\ k s' caps = Some x).
      { intro H. exists [], (a :: s). auto. }
      destruct g; intro H; apply orelse_some in H;
        destruct H as [H | [_ H]]; auto.
    + intro H. exists [], (a :: s). auto.
Qed.

Lemma plus_loop_sound (k0 : cls) (R : Type) (caps : list text)
      (k : text -> list text -> option R) (x : R) (s : text) :
  rmatch (Plus k0) s caps k = Some x ->
  exists p s', s = p ++ s' /\ p <> []
               /\ Forall (fun a => in_cls k0 a = true) p
               /\ k s' caps = Some x.
Proof.
  destruct s as [|a s]; cbn; [discriminate|].
  destruct (in_cls k0 a) eqn:Ea; [|discriminate].
  intro H.
  assert (Hs : rmatch (Star k0 true) s caps k = Some x) by exact H.
  apply star_loop_sound in Hs. destruct Hs as (p & s' & -> & Hp & Hk).
  exists (a :: p), s'. repeat split; auto. discriminate.
Qed.

Lemma rmatch_sound (r : regex) :
  forall (R : Type) (s : text) (caps : list text)
         (k : text -> list text -> option R) (x : R),
    rmatch r s caps k = Some x ->
    exists s' caps', matches r s caps s' caps' /\ k s' caps' = Some x.
Proof.
  induction r as [c|k0 g|k0|r1 IH1 r2 IH2|r1 IH1 r2 IH2|r0 IH|r0 IH|];
    intros R s caps k x H.
  - cbn in H. destruct s as [|a s]; [discriminate|].
    destruct (Ascii.eqb a c) eqn:E; [|discriminate].
    apply Ascii.eqb_eq in E. subst a. exists s, caps. split; [constructor|auto].
  - apply star_loop_sound in H. destruct H as (p & s' & -> & Hp & Hk).
    exists s', caps. split; [now constructor|auto].
  - apply plus_loop_sound in H. destruct H as (p & s' & -> & Hn & Hp & Hk).
    exists s', caps. split; [now constructor|auto].
  - cbn in H. apply IH1 in H. destruct H as (s1 & caps1 & M1 & H).
    apply IH2 in H. destruct H as (s2 & caps2 & M2 & H).
    exists s2, caps2. split; [econstructor; eauto|auto].
  - cbn in H. apply orelse_some in H. destruct H as [H | [_ H]].
    + apply IH1 in H. destruct H as (s1 & caps1 & M1 & H).
      exists s1, caps1. split; [now apply M_AltL|auto].
    + apply IH2 in H. destruct H as (s1 & caps1 & M1 & H).
      exists s1, caps1. split; [now apply M_AltR|auto].
  - cbn in H. apply IH in H. destruct H as (s1 & caps1 & M1 & H).
    exists s1, (caps1 ++ [consumed s s1]). split; [now constructor|auto].
  - cbn in H.
    destruct (rmatch r0 s caps (fun _ _ => Some tt)) eqn:E; [|discriminate].
    apply IH in E. destruct E as (s1 & caps1 & M1 & _).
    exists s, caps. split; [econstructor; eauto|auto].
  - cbn in H. destruct s as [|a [|b s]]; try discriminate.
    + exists [], caps. split; [constructor|auto].
    + destruct (Ascii.eqb a "010") eqn:E; [|discriminate].
      apply Ascii.eqb_eq in E. subst a.
      exists [newline], caps. split; [constructor|auto].
Qed.

(** What a match leaves is a suffix of what it started from. *)
Lemma matches_suffix r s caps s' caps' :
  matches r s caps s' caps' -> exists p, s = p ++ s'.
Proof.
  induction 1.
  - exists [c]. reflexivity.
  - eauto.
  - eauto.
  - destruct IHmatches1 as [p1 ->]. destruct IHmatches2 as [p2 ->].
    exists (p1 ++ p2). now rewrite app_assoc.
  - assumption.
  - assumption.
  - assumption.
  - exists []. reflexivity.
  - exists []. reflexivity.
  - exists []. reflexivity.
Qed.

Lemma consumed_app (p s : text) : consumed (p ++ s) s = p.
Proof.
  unfold consumed. rewrite length_app.
  replace (length p + length s - length s) with (length p) by lia.
  rewrite firstn_app, firstn_all, Nat.sub_diag. cbn. apply app_nil_r.
Qed.

(** ** How the matcher runs on delimited blocks *)

Lemma forallb_Forall (A : Type) (f : A -> bool) (l : list A) :
  forallb f l = true -> Forall (fun a => f a = true) l.
Proof. intro H. apply Forall_forall. now apply forallb_forall. Qed.

(** A greedy star takes the whole run when the rest of the pattern matches
    after it. *)
Lemma star_greedy_max (k0 : cls) (R : Type) (caps : list text)
      (k : text -> list text -> option R) (x : R) (s : text) :
  stops k0 s -> k s caps = Some x ->
  forall p, Forall (fun a => in_cls k0 a = true) p ->
            rmatch (Star k0 true) (p ++ s) caps k = Some x.
Proof.
  intros Hs Hk p Hp. induction Hp as [|a p Ha Hp IH].
  - cbn. destruct s as [|a s]; [exact Hk|]. cbn in Hs. now rewrite Hs.
  - cbn [app]. cbn. rewrite Ha. cbn in IH. now rewrite IH.
Qed.

Lemma plus_greedy_max (k0 : cls) (R : Type) (caps : list text)
      (k : text -> list text -> option R) (x : R) (s : text) :
  stops k0 s -> k s caps = Some x ->
  forall p, p <> [] -> Forall (fun a => in_cls k0 a = true) p ->
            rmatch (Plus k0) (p ++ s) caps k = Some x.
Proof.
  intros Hs Hk p Hn Hp. destruct Hp as [|a p Ha Hp]; [congruence|].
  cbn [app]. cbn. rewrite Ha.
  apply star_greedy_max; assumption.
Qed.

(** Whatever the split, a star followed by a matching rest matches. *)
Lemma star_complete (k0 : cls) (g : bool) (R : Type) (caps : list text)
      (k : text -> list text -> option R) (s : text) :
  k s caps <> None ->
  forall p, Forall (fun a => in_cls k0 a = true) p ->
            rmatch (Star k0 g) (p ++ s) caps k <> None.
Proof.
  intros Hk p Hp. induction Hp as [|a p Ha Hp IH].
  - cbn. destruct s as [|a s]; [exact Hk|].
    destruct (in_cls k0 a); [|exact Hk].
    destruct g; cbn.
    + destruct ((fix loop (s0 : text) : option R := _) s); [discriminate|].
      cbn. exact Hk.
    + destruct (k (a :: s) caps); [discriminate|]. congruence.
  - cbn [app]. cbn. rewrite Ha. cbn in IH.
    destruct g; cbn.
    + destruct ((fix loop (s0 : text) : option R := _) (p ++ s));
        [discriminate|congruence].
    + destruct (k (a :: p ++ s) caps); [discriminate|]. cbn. exact IH.
Qed.

(** A lazy star stops at the first place where the rest of the pattern
    matches. *)
Lemma star_lazy_first (k0 : cls) (R : Type) (caps : list text)
      (k : text -> list text -> option R) (x : R) (s : text) :
  k s caps = Some x ->
  forall p, Forall (fun a => in_cls k0 a = true) p ->
            (forall p1 p2, p = p1 ++ p2 -> p2 <> [] -> k (p2 ++ s) caps = None) ->
            rmatch (Star k0 false) (p ++ s) caps k = Some x.
Proof.
  intros Hk p Hp. induction Hp as [|a p Ha Hp IH]; intros Hnone.
  - cbn. destruct s as [|a s]; [exact Hk|].
    destruct (in_cls k0 a); [|exact Hk]. now rewrite Hk.
  - cbn [app]. cbn. rewrite Ha.
    pose proof (Hnone [] (a :: p) eq_refl ltac:(discriminate)) as H0.
    cbn [app] in H0. rewrite H0. cbn [orelse].
    apply IH. intros p1 p2 -> Hn. apply (Hnone (a :: p1) p2 eq_refl Hn).
Qed.

(** Whether a pattern matches does not depend on the groups collected so
    far, nor on what the continuation returns. *)
Lemma rmatch_none_indep (r : regex) :
  forall (R1 R2 : Type) (s : text) (caps1 caps2 : list text)
         (k1 : text -> list text -> option R1)
         (k2 : text -> list text -> option R2),
    (forall s' c1 c2, k1 s' c1 = None <-> k2 s' c2 = None) ->
    (rmatch r s caps1 k1 = None <-> rmatch r s caps2 k2 = None).
Proof.
  assert (Horelse : forall R1 R2 (a1 : option R1) (a2 : option R2) b1 b2,
             (a1 = None <-> a2 = None) -> (b1 tt = None <-> b2 tt = None) ->
             (orelse a1 b1 = None <-> orelse a2 b2 = None)).
  { intros R1 R2 [x1|] [x2|] b1 b2 [Ha1 Ha2] Hb; cbn; try tauto;
      split; intro; try discriminate.
    - now specialize (Ha2 eq_refl).
    - now specialize (Ha1 eq_refl). }
  assert (Hstar : forall k0 g R1 R2 caps1 caps2
                         (k1 : text -> list text -> option R1)
                         (k2 : text -> list text -> option R2),
             (forall s' c1 c2, k1 s' c1 = None <-> k2 s' c2 = None) ->
             forall s, rmatch (Star k0 g) s caps1 k1 = None
                       <-> rmatch (Star k0 g) s caps2 k2 = None).
  { intros k0 g R1 R2 caps1 caps2 k1 k2 Hk.
    induction s as [|a s IH]; cbn; [apply Hk|].
    destruct (in_cls k0 a); [|apply Hk].
    destruct g; apply Horelse; auto; apply Hk. }
  induction r as [c|k0 g|k0|r1 IH1 r2 IH2|r1 IH1 r2 IH2|r0 IH|r0 IH|];
    intros R1 R2 s caps1 caps2 k1 k2 Hk.
  - cbn. destruct s as [|a s]; [tauto|].
    destruct (Ascii.eqb a c); [apply Hk|tauto].
  - now apply Hstar.
  - cbn. destruct s as [|a s]; [tauto|].
    destruct (in_cls k0 a); [|tauto].
    apply (Hstar k0 true R1 R2 caps1 caps2 k1 k2 Hk s).
  - cbn. apply IH1. intros s' c1 c2. now apply IH2.
  - cbn. apply Horelse; [now apply IH1|now apply IH2].
  - cbn. apply IH. intros s' c1 c2. apply Hk.
  - cbn.
    assert (H : rmatch r0 s caps1 (fun _ _ => Some tt) = None
                <-> rmatch r0 s caps2 (fun _ _ => Some tt) = None).
    { apply IH. intros; tauto. }
    destruct (rmatch r0 s caps1 (fun _ _ => Some tt)),
             (rmatch r0 s caps2 (fun _ _ => Some tt)).
    + apply Hk.
    + destruct H as [_ H]. now specialize (H eq_refl).
    + destruct H as [H _]. now specialize (H eq_refl).
    + tauto.
  - cbn. destruct s as [|a [|b s]]; [apply Hk| |tauto].
    destruct (Ascii.eqb a "010"); [apply Hk|tauto].
Qed.

Lemma marker_app (d rest : text) :
  marker d ++ rest = t "**Question" ++ d ++ t "**" ++ rest.
Proof. unfold marker. now rewrite <- !app_assoc. Qed.

Lemma rmatch_cat (r1 r2 : regex) (R : Type) (s : text) (caps : list text)
      (k : text -> list text -> option R) :
  rmatch (Cat r1 r2) s caps k
  = rmatch r1 s caps (fun s' caps' => rmatch r2 s' caps' k).
Proof. reflexivity. Qed.

Lemma rmatch_lit (c : ascii) (R : Type) (s : text) (caps : list text)
      (k : text -> list text -> option R) :
  rmatch (Lit c) (c :: s) caps k = k s caps.
Proof. cbn. now rewrite Ascii.eqb_refl. Qed.

Lemma rmatch_lits (p : text) (R : Type) (s : text) (caps : list text)
      (k : text -> list text -> option R) :
  p <> [] -> rmatch (lits p) (p ++ s) caps k = k s caps.
Proof.
  induction p as [|c p IH]; [congruence|]. intros _.
  destruct p as [|c' p].
  - apply rmatch_lit.
  - change (lits (c :: c' :: p)) with (Cat (Lit c) (lits (c' :: p))).
    rewrite rmatch_cat. cbn [app]. rewrite rmatch_lit.
    apply IH. discriminate.
Qed.

(** The marker pattern matches a marker, taking all its digits. *)
Lemma marker_match (R : Type) (caps : list text)
      (k : text -> list text -> option R) (x : R) (d rest : text) :
  d <> [] -> Forall (fun a => in_cls Digit a = true) d ->
  k rest caps = Some x ->
  rmatch marker_re (marker d ++ rest) caps k = Some x.
Proof.
  intros Hn Hd Hk. rewrite marker_app. unfold marker_re.
  rewrite rmatch_cat, rmatch_lits by discriminate. rewrite rmatch_cat.
  apply plus_greedy_max; auto. reflexivity.
Qed.

Ltac inv_matches :=
  repeat match goal with
         | H : matches (Cat _ _) _ _ _ _ |- _ => inversion H; subst; clear H
         | H : matches (Lit _) _ _ _ _ |- _ => inversion H; subst; clear H
         | H : matches (Plus _) _ _ _ _ |- _ => inversion H; subst; clear H
         | H : matches (Star _ _) _ _ _ _ |- _ => inversion H; subst; clear H
         | H : matches (Group _) _ _ _ _ |- _ => inversion H; subst; clear H
         | H : matches (Ahead _) _ _ _ _ |- _ => inversion H; subst; clear H
         end.

Lemma matches_marker (s s' : text) (caps caps' : list text) :
  matches marker_re s caps s' caps' ->
  caps' = caps
  /\ exists d, d <> [] /\ Forall (fun a => in_cls Digit a = true) d
               /\ s = marker d ++ s'.
Proof.
  unfold marker_re. cbn [lits t list_ascii_of_string]. intro H. inv_matches.
  split; [reflexivity|].
  match goal with
  | Hp : ?p <> [], Hf : Forall _ ?p |- _ => exists p; repeat split; auto
  end.
  rewrite marker_app. reflexivity.
Qed.

Lemma closes_elim (s : text) :
  closes s = true ->
  exists w r, s = w ++ r /\ Forall (fun a => in_cls Space a = true) w
              /\ ahead_ok r.
Proof.
  unfold closes, match_at.
  destruct (rmatch tail_re s [] _) as [[s' caps']|] eqn:E; [|discriminate].
  intros _. apply rmatch_sound in E. destruct E as (s1 & caps1 & M & _).
  unfold tail_re in M. inv_matches.
  match goal with
  | Hf : Forall _ ?p |- exists w r, ?p ++ ?r0 = _ /\ _ =>
      exists p, r0; repeat split; auto
  end.
  match goal with
  | H : matches (Alt _ _) _ _ _ _ |- _ => inversion H; subst; clear H
  end.
  - match goal with
    | H : matches marker_re _ _ _ _ |- _ =>
        apply matches_marker in H; destruct H as (_ & d & Hn & Hd & ->)
    end.
    left. exists d. eauto.
  - match goal with
    | H : matches Eos _ _ _ _ |- _ => inversion H; subst; clear H
    end; [right; left|right; right]; reflexivity.
Qed.

Lemma ahead_ok_match (r : text) (caps : list text) :
  ahead_ok r ->
  rmatch (Ahead (Alt marker_re Eos)) r caps (fun s c => Some (s, c))
  = Some (r, caps).
Proof.
  intros [(d & r' & Hn & Hd & ->) | [-> | ->]].
  - change (rmatch (Ahead (Alt marker_re Eos)) (marker d ++ r') caps
                   (fun s c => Some (s, c)))
      with (match orelse (rmatch marker_re (marker d ++ r') caps
                                 (fun _ _ => Some tt))
                         (fun _ => rmatch Eos (marker d ++ r') caps
                                          (fun _ _ => Some tt))
            with
            | Some _ => Some (marker d ++ r', caps)
            | None => None
            end).
    rewrite (@marker_match unit caps (fun _ _ => Some tt) tt d r' Hn Hd eq_refl).
    reflexivity.
  - reflexivity.
  - reflexivity.
Qed.

Lemma closes_intro (w r : text) :
  Forall (fun a => in_cls Space a = true) w -> ahead_ok r ->
  closes (w ++ r) = true.
Proof.
  intros Hw Hr. unfold closes, match_at, tail_re. rewrite rmatch_cat.
  destruct (rmatch (Star Space true) (w ++ r) [] _) eqn:E; [reflexivity|].
  exfalso. revert E. apply star_complete; [|exact Hw].
  rewrite ahead_ok_match by assumption. discriminate.
Qed.

Lemma prefix_without (c : ascii) (l : text) :
  forall x a r, l ++ r = x ++ c :: a -> ~ In c l -> exists x', x = l ++ x'.
Proof.
  induction l as [|e l IH]; intros x a r H Hc.
  - exists x. reflexivity.
  - destruct x as [|e' x]; cbn in H; injection H as He H.
    + subst e. exfalso. apply Hc. now left.
    + subst e'. destruct (IH x a r H) as [x' ->].
      * intro Hi. apply Hc. now right.
      * exists x'. reflexivity.
Qed.

Lemma brace_not_in_marker (w d : text) :
  Forall (fun a => in_cls Space a = true) w ->
  Forall (fun a => in_cls Digit a = true) d ->
  ~ In "}"%char (w ++ marker d).
Proof.
  intros Hw Hd Hi. unfold marker in Hi.
  rewrite !in_app_iff in Hi. destruct Hi as [Hi | [Hi | [Hi | Hi]]].
  - rewrite Forall_forall in Hw. specialize (Hw _ Hi). discriminate.
  - cbn in Hi. intuition discriminate.
  - rewrite Forall_forall in Hd. specialize (Hd _ Hi). discriminate.
  - cbn in Hi. intuition discriminate.
Qed.

(** Whether a group may end before [x] followed by a closing brace depends
    on [x] only: a marker has no brace in it. *)
Lemma closes_before_brace (x a : text) :
  closes (x ++ "}"%char :: a) = true ->
  exists w d x', x = w ++ marker d ++ x'
                 /\ Forall (fun c => in_cls Space c = true) w
                 /\ d <> [] /\ Forall (fun c => in_cls Digit c = true) d.
Proof.
  intro H. apply closes_elim in H. destruct H as (w & r & E & Hw & Hr).
  destruct Hr as [(d & r' & Hn & Hd & ->) | [-> | ->]].
  - rewrite app_assoc in E. symmetry in E.
    apply prefix_without in E; [|now apply brace_not_in_marker].
    destruct E as [x' ->]. exists w, d, x'. rewrite <- app_assoc. auto.
  - exfalso. rewrite app_nil_r in E. subst w.
    rewrite Forall_forall in Hw.
    specialize (Hw "}"%char). rewrite in_app_iff in Hw.
    discriminate Hw. right. now left.
  - exfalso.
    assert (Hi : In "}"%char (w ++ [newline])).
    { rewrite <- E. rewrite in_app_iff. right. now left. }
    rewrite in_app_iff in Hi. destruct Hi as [Hi | Hi].
    + rewrite Forall_forall in Hw. specialize (Hw _ Hi). discriminate.
    + cbn in Hi. intuition discriminate.
Qed.

Lemma closes_local (x a : text) :
  closes (x ++ "}"%char :: a) = closes (x ++ ["}"%char]).
Proof.
  assert (H : forall a b, closes (x ++ "}"%char :: a) = true ->
                          closes (x ++ "}"%char :: b) = true).
  { intros a0 b Ha. apply closes_before_brace in Ha.
    destruct Ha as (w & d & x' & -> & Hw & Hn & Hd).
    rewrite <- !app_assoc. apply closes_intro; [exact Hw|].
    left. exists d, (x' ++ "}"%char :: b). auto. }
  destruct (closes (x ++ "}"%char :: a)) eqn:E1,
           (closes (x ++ ["}"%char])) eqn:E2; try reflexivity.
  - apply (H a []) in E1. congruence.
  - apply (H [] a) in E2. congruence.
Qed.

Lemma early_close_split (body : text) :
  early_close body = false ->
  forall p1 p2, body = p1 ++ "}"%char :: p2 -> closes (p2 ++ ["}"%char]) = false.
Proof.
  induction body as [|c body IH]; intros H p1 p2 E.
  - destruct p1; discriminate.
  - cbn in H. apply orb_false_iff in H. destruct H as [H1 H2].
    destruct p1 as [|e p1]; cbn in E; injection E as -> ->.
    + cbn in H1. exact H1.
    + eapply IH; eauto.
Qed.

Lemma braced_app (body rest : text) :
  braced body ++ rest = "{"%char :: body ++ "}"%char :: rest.
Proof. unfold braced. cbn. now rewrite <- app_assoc. Qed.

(** The end of the pattern at a place where a group may end: no whitespace
    to take, and the lookahead holds. *)
Lemma tail_match (rest : text) (caps : list text) :
  rest = [] \/ at_marker_text rest ->
  rmatch tail_re rest caps (fun s c => Some (s, c)) = Some (rest, caps).
Proof.
  intros Hr. unfold tail_re. rewrite rmatch_cat.
  apply star_greedy_max with (p := []); [| |constructor].
  - destruct Hr as [-> | (d' & r' & _ & _ & ->)]; [exact I|reflexivity].
  - apply ahead_ok_match.
    destruct Hr as [-> | H]; [right; left; reflexivity|left; exact H].
Qed.

(** [early_close] says that some closing brace of the body is followed by
    optional whitespace and a marker. *)
Lemma early_close_marker (body : text) :
  early_close body = true <->
  exists p w d x,
    body = p ++ "}"%char :: w ++ marker d ++ x
    /\ Forall (fun c => in_cls Space c = true) w
    /\ d <> [] /\ Forall (fun c => in_cls Digit c = true) d.
Proof.
  split.
  - induction body as [|c body IH]; [discriminate|]. cbn [early_close].
    intro H. apply orb_true_iff in H. destruct H as [H | H].
    + apply andb_true_iff in H. destruct H as [Hc H].
      apply Ascii.eqb_eq in Hc. subst c.
      apply closes_before_brace in H.
      destruct H as (w & d & x & -> & Hw & Hn & Hd).
      exists [], w, d, x. auto.
    + destruct (IH H) as (p & w & d & x & -> & Hw & Hn & Hd).
      exists (c :: p), w, d, x. auto.
  - intros (p & w & d & x & -> & Hw & Hn & Hd).
    induction p as [|c p IH]; cbn [app early_close].
    + rewrite Ascii.eqb_refl. cbn [andb].
      rewrite <- !app_assoc, closes_intro; [reflexivity|exact Hw|].
      left. exists d, (x ++ ["}"%char]). auto.
    + rewrite IH. apply orb_true_r.
Qed.

(** One delimited block: the match at a marker ends right after the block
    when a marker or the end of the text follows it, and the group is the
    block. *)
Lemma block_match (d ws body rest : text) :
  d <> [] -> all_digits d = true -> all_space ws = true ->
  early_close body = false ->
  rest = [] \/ at_marker_text rest ->
  match_at question_re (marker d ++ ws ++ braced body ++ rest)
  = Some (rest, [braced body]).
Proof.
  intros Hn Hd Hw Hb Hr.
  apply forallb_Forall in Hd. apply forallb_Forall in Hw.
  unfold match_at, question_re. rewrite rmatch_cat.
  apply marker_match; auto. rewrite rmatch_cat.
  apply star_greedy_max; auto; [rewrite braced_app; reflexivity|].
  rewrite rmatch_cat.
  change (rmatch (Group ?r) ?s ?c ?k)
    with (rmatch r s c (fun s' caps' => k s' (caps' ++ [consumed s s']))).
  rewrite braced_app at 1. rewrite rmatch_cat, rmatch_lit, rmatch_cat.
  apply star_lazy_first.
  - rewrite rmatch_lit. rewrite consumed_app. now apply tail_match.
  - apply Forall_forall. reflexivity.
  - intros p1 p2 -> Hp2. destruct p2 as [|c p2]; [congruence|].
    cbn [app]. destruct (Ascii.eqb c "}") eqn:Ec.
    + apply Ascii.eqb_eq in Ec. subst c. rewrite rmatch_lit.
      pose proof (@early_close_split _ Hb p1 p2 eq_refl) as Hc.
      rewrite <- (closes_local p2 rest) in Hc.
      unfold closes, match_at in Hc.
      destruct (rmatch tail_re (p2 ++ "}"%char :: rest) [] _) eqn:E;
        [discriminate|].
      revert E. apply rmatch_none_indep. intros; split; discriminate.
    + cbn. now rewrite Ec.
Qed.

(** ** [findall] and the candidate blocks *)

Lemma findall_skip (r : regex) (x y : text) :
  findall_from r (x ++ y) (length x) = findall_from r y 0.
Proof. induction x as [|a x IH]; [reflexivity|exact IH]. Qed.

(** After a match the search goes on where the match ended. *)
Lemma findall_step (r : regex) (p rest : text) (caps : list text) :
  p <> [] -> match_at r (p ++ rest) = Some (rest, caps) ->
  findall r (p ++ rest) = nth 0 caps [] :: findall r rest.
Proof.
  intros Hp Hm. destruct p as [|a p]; [congruence|].
  unfold findall. cbn [app findall_from]. cbn [app] in Hm. rewrite Hm.
  f_equal.
  replace (length (a :: p ++ rest) - length rest - 1) with (length p)
    by (cbn [length]; rewrite length_app; lia).
  apply findall_skip.
Qed.

Lemma findall_from_matches (r : regex) (b : text) :
  forall s skip,
    In b (findall_from r s skip) ->
    exists s0 rest caps, match_at r s0 = Some (rest, caps) /\ b = nth 0 caps [].
Proof.
  induction s as [|a s IH]; intros skip H; cbn in H; [contradiction|].
  destruct skip as [|n]; [|eauto].
  destruct (match_at r (a :: s)) as [[rest caps]|] eqn:E; [|eauto].
  destruct H as [<- | H]; eauto.
Qed.

(** The group of a match of the parser's pattern is a braced text. *)
Lemma question_match_group (s rest : text) (caps : list text) :
  match_at question_re s = Some (rest, caps) ->
  exists body, caps = [braced body].
Proof.
  unfold match_at. intro H. apply rmatch_sound in H.
  destruct H as (s1 & caps1 & M & E). injection E as -> ->.
  unfold question_re in M.
  inversion M as [| | |? ? ? ? sa ca ? ? Mm M1| | | | | |]; subst; clear M.
  apply matches_marker in Mm. destruct Mm as (-> & _).
  inversion M1 as [| | |? ? ? ? sb cb ? ? Mw M2| | | | | |]; subst; clear M1.
  inversion Mw; subst; clear Mw.
  inversion M2 as [| | |? ? ? ? sc cc ? ? Mg M3| | | | | |]; subst; clear M2.
  inversion M3 as [| | |? ? ? ? sd cd ? ? Mw2 Ma| | | | | |]; subst; clear M3.
  inversion Mw2; subst; clear Mw2. inversion Ma; subst; clear Ma.
  inversion Mg as [| | | | | |? ? ? ? ci Mi| | |]; subst; clear Mg.
  inv_matches.
  match goal with
  | |- context [consumed ("{"%char :: ?p ++ "}"%char :: ?q ++ ?z) (?q ++ ?z)] =>
      exists p;
      replace ("{"%char :: p ++ "}"%char :: q ++ z)
        with (braced p ++ q ++ z) by apply braced_app;
      rewrite consumed_app
  end.
  reflexivity.
Qed.

Lemma findall_braced (response b : text) :
  In b (findall question_re response) -> exists body, b = braced body.
Proof.
  intro H. apply findall_from_matches in H.
  destruct H as (s0 & rest & caps & Hm & ->).
  apply question_match_group in Hm. destruct Hm as [body ->].
  exists body. reflexivity.
Qed.

(** ** Normalization and decoding of a braced text *)

Lemma normalize_braced (body : text) :
  exists s, normalize (braced body) = "{"%char :: s.
Proof.
  unfold normalize, re_sub, braced. cbn. eauto.
Qed.

Lemma object_members_dict (scan : text -> jres pyval) (gas : nat) :
  forall s acc v r, object_members scan gas s acc = JOk v r -> is_dict v.
Proof.
  induction gas as [|g IH]; intros s acc v r; cbn; [discriminate|].
  destruct (after dquote s) as [sk|]; [|discriminate].
  destruct (scanstring s sk 0 []) as [key r0| | |]; try discriminate.
  destruct (after ":" (skip_ws r0)) as [r1|]; [|discriminate].
  destruct (scan (skip_ws r1)) as [v1 r2| | |]; try discriminate.
  destruct (after "}" (skip_ws r2)) as [r3|].
  - intro H. injection H as <- _. eexists. reflexivity.
  - destruct (after "," (skip_ws r2)); [apply IH|discriminate].
Qed.

Lemma scan_once_object (cfg : interp) (d : nat) (s : text) :
  scan_once cfg (S d) ("{"%char :: s)
  = match after "}" (skip_ws s) with
    | Some s3 => JOk (PDict []) s3
    | None => object_members (scan_once cfg d)
                             (S (length (skip_ws s))) (skip_ws s) []
    end.
Proof. reflexivity. Qed.

Lemma scan_once_array (cfg : interp) (d : nat) (s : text) :
  scan_once cfg (S d) ("["%char :: s)
  = match after "]" (skip_ws s) with
    | Some s3 => JOk (PList []) s3
    | None => array_items (scan_once cfg d)
                          (S (length (skip_ws s))) (skip_ws s) []
    end.
Proof. reflexivity. Qed.

(** A text that starts with an opening brace decodes to a dict, if it
    decodes. *)
Lemma json_loads_brace (cfg : interp) (s : text) (v : pyval) :
  json_loads cfg ("{"%char :: s) = Ok v -> is_dict v.
Proof.
  unfold json_loads. cbn [skip_ws]. cbn -[scan_once skip_ws].
  destruct (scan_once cfg (recursion_depth cfg) ("{"%char :: s))
    as [v0 r| | |] eqn:E; try discriminate.
  destruct (skip_ws r); [|discriminate]. intro H. injection H as ->.
  destruct (recursion_depth cfg) as [|d]; [discriminate|].
  rewrite scan_once_object in E.
  destruct (after "}" (skip_ws s)).
  - injection E as <- _. eexists. reflexivity.
  - eapply object_members_dict, E.
Qed.

(** ** The loop over the blocks *)

Lemma parse_blocks_spec (cfg : interp) (blocks : list text) :
  forall qs errs,
    match parse_blocks cfg blocks qs errs with
    | (Ok qs', errs') =>
        qs' = qs ++ decoded cfg blocks
        /\ errs' = errs ++ diagnosed cfg blocks
        /\ existsb (hits_limit cfg) blocks = false
    | (Error e, errs') =>
        limit_error e
        /\ exists pre b post,
             blocks = pre ++ b :: post
             /\ json_loads cfg (normalize b) = Error e
             /\ existsb (hits_limit cfg) pre = false
             /\ errs' = errs ++ diagnosed cfg pre
    end.
Proof.
  induction blocks as [|b bs IH]; intros qs errs.
  - cbn. now rewrite !app_nil_r.
  - cbn [parse_blocks]. unfold decoded, diagnosed, hits_limit.
    cbn [flat_map existsb].
    pose proof (json_loads_outcome cfg (normalize b)) as Ho.
    destruct (json_loads cfg (normalize b)) as [v|e] eqn:E.
    + specialize (IH (qs ++ [v]) errs).
      destruct (parse_blocks cfg bs (qs ++ [v]) errs) as [[qs'|e] errs'].
      * destruct IH as (-> & -> & H). rewrite <- app_assoc. auto.
      * destruct IH as (Hl & pre & b' & post & -> & Hb & Hp & ->).
        split; [exact Hl|]. exists (b :: pre), b', post.
        unfold diagnosed, hits_limit. cbn [flat_map existsb app]. rewrite E.
        auto.
    + assert (Hstop : limit_error e ->
                      limit_error e
                      /\ exists pre b0 post,
                           b :: bs = pre ++ b0 :: post
                           /\ json_loads cfg (normalize b0) = Error e
                           /\ existsb (hits_limit cfg) pre = false
                           /\ errs = errs ++ diagnosed cfg pre).
      { intro Hl. split; [exact Hl|]. exists [], b, bs. cbn.
        rewrite app_nil_r. auto. }
      destruct e as [m doc pos| | | | | | | |]; try (apply Hstop; exact Ho).
      specialize (IH qs (errs ++ [diagnostic b m doc pos])).
      fold (diagnostic b m doc pos).
      destruct (parse_blocks cfg bs qs (errs ++ [diagnostic b m doc pos]))
        as [[qs'|e] errs'].
      * destruct IH as (-> & -> & H). rewrite <- app_assoc. auto.
      * destruct IH as (Hl & pre & b' & post & -> & Hb & Hp & ->).
        split; [exact Hl|]. exists (b :: pre), b', post.
        unfold diagnosed, hits_limit. cbn [flat_map existsb app]. rewrite E.
        rewrite <- app_assoc. auto.
Qed.

Lemma decoded_diagnosed_length (cfg : interp) (blocks : list text) :
  existsb (hits_limit cfg) blocks = false ->
  length (decoded cfg blocks) + length (diagnosed cfg blocks) = length blocks.
Proof.
  induction blocks as [|b bs IH]; [reflexivity|].
  unfold decoded, diagnosed, hits_limit in *. cbn [flat_map existsb].
  rewrite !length_app.
  destruct (json_loads cfg (normalize b)) as [v|[]]; cbn; try discriminate;
    intro H; specialize (IH H); lia.
Qed.

Lemma decoded_from_blocks (cfg : interp) (blocks : list text) (v : pyval) :
  In v (decoded cfg blocks) ->
  exists b, In b blocks /\ json_loads cfg (normalize b) = Ok v.
Proof.
  unfold decoded. rewrite in_flat_map. intros (b & Hb & Hv).
  exists b. split; [exact Hb|].
  destruct (json_loads cfg (normalize b)) as [v'|]; [|contradiction].
  destruct Hv as [-> | []]. reflexivity.
Qed.

Lemma set_parsing_errors_same (q : Quiz) :
  set_parsing_errors q (parsing_errors q) = q.
Proof. destruct q. reflexivity. Qed.

(** ** Answer comparison *)

Lemma ustr_eqb_eq (a b : ustr) : ustr_eqb a b = true <-> a = b.
Proof.
  unfold ustr_eqb. destruct (list_eq_dec N.eq_dec a b); split; congruence.
Qed.

Lemma generate_feedback_history (q : Quiz) (w : World) :
  history (snd (fst (generate_feedback q w))) = history q
  /\ score (snd (fst (generate_feedback q w))) = score q
  /\ questions (snd (fst (generate_feedback q w))) = questions q.
Proof.
  unfold generate_feedback, get_groq_client, create_completion.
  destruct (user_details q); [|now cbn].
  destruct (truthy (api_key q)); [|now cbn].
  cbn. destruct (net w (calls w)); now cbn.
Qed.

(** What a submission that passes the comparison does to the state. *)
Lemma process_answer_recorded (d : list (ustr * pyval)) (qt : pyval)
      (a ua : ustr) (q : Quiz) (w : World) :
  dict_get d (u "Question") = Some qt ->
  dict_get d (u "Answer") = Some (PStr a) ->
  let r := {| question := qt; user_answer := PStr ua;
              correct_answer := PStr a;
              is_correct := ustr_eqb (strip ua) (strip a) |} in
  let q' := snd (fst (process_answer (PDict d) (PStr ua) q w)) in
  history q' = history q ++ [r]
  /\ score q' = (if is_correct r then score q + 1 else score q)%Z.
Proof.
  intros Hq Ha r q'. subst q'. unfold process_answer, answer_matches, py_strip, subscript.
  rewrite Ha, Hq. fold r.
  destruct (_ <? _)%Z; cbn [fst snd].
  - split; reflexivity.
  - destruct (generate_feedback_history (record_answer q r) w) as (H1 & H2 & _).
    rewrite H1, H2. split; reflexivity.
Qed.

(** C6: the comparison made by [process_answer] is equality of the two
    texts after [strip] on both sides, and nothing else: for a question
    whose answer is the text [a] and a submitted text [ua], the flag stored
    in the history is true exactly when [strip ua = strip a]. *)
Theorem answer_comparison_is_trimmed_equality
        (d : list (ustr * pyval)) (qt : pyval) (a ua : ustr)
        (q : Quiz) (w : World) :
  dict_get d (u "Question") = Some qt ->
  dict_get d (u "Answer") = Some (PStr a) ->
  exists flag : bool,
    answer_matches (PDict d) (PStr ua) = Ok flag
    /\ (flag = true <-> strip ua = strip a)
    /\ history (snd (fst (process_answer (PDict d) (PStr ua) q w)))
       = history q ++ [{| question := qt; user_answer := PStr ua;
                          correct_answer := PStr a; is_correct := flag |}].
Proof.
  intros Hq Ha. exists (ustr_eqb (strip ua) (strip a)). split; [|split].
  - unfold answer_matches, py_strip, subscript. now rewrite Ha.
  - apply ustr_eqb_eq.
  - apply process_answer_recorded; assumption.
Qed.

(** " 4 " matches "4"; "four" does not; nor does a different case. *)
Lemma answer_comparison_examples :
  (exists flag, answer_matches sample_question (PStr (u " 4 ")) = Ok flag
                /\ (flag = true <-> strip (u " 4 ") = strip (u "4")))
  /\ strip (u " 4 ") = strip (u "4")
  /\ strip (u "four") <> strip (u "4")
  /\ strip (u "Paris") <> strip (u "paris").
Proof.
  split; [|split; [|split]].
  - destruct (@answer_comparison_is_trimmed_equality
                [(u "Question", PStr (u "What is 2+2?"));
                 (u "Options", sample_options);
                 (u "Answer", PStr (u "4"))]
                (PStr (u "What is 2+2?")) (u "4") (u " 4 ")
                ready_quiz steady_world eq_refl eq_refl)
      as (flag & H1 & H2 & _).
    exists flag. split; assumption.
  - reflexivity.
  - discriminate.
  - discriminate.
Defined.

(** ** The retrying generation *)

Lemma generate_questions_body_outcome (cfg : interp) (q : Quiz) (w : World) :
  match fst (fst (generate_questions_body cfg q w)) with
  | Return _ | Stop => True
  | Raise _ | Rerun => False
  end.
Proof.
  unfold generate_questions_body, get_groq_client, attempt_failed.
  destruct (truthy (api_key q)); [|exact I].
  cbn. destruct (net w (calls w)); [|exact I].
  destruct (extract_questions _ _ _) as [[qs|e'] q2]; exact I.
Qed.

Lemma generate_questions_body_returns (cfg : interp) (q : Quiz) (w : World) :
  forall e, fst (fst (generate_questions_body cfg q w)) <> Raise e.
Proof.
  intros e H. pose proof (generate_questions_body_outcome cfg q w) as Ho.
  rewrite H in Ho. exact Ho.
Qed.

(** The decorator never gets to repeat the call: the body turns every
    exception into the return value [None]. *)
Lemma generate_questions_single_attempt (cfg : interp) (q : Quiz) (w : World) :
  generate_questions cfg q w = generate_questions_body cfg q w
  /\ slept (snd (generate_questions cfg q w)) = slept w
  /\ calls (snd (generate_questions cfg q w)) <= S (calls w).
Proof.
  assert (E : generate_questions cfg q w = generate_questions_body cfg q w).
  { unfold generate_questions. cbn [retrying].
    pose proof (generate_questions_body_returns cfg q w) as H.
    destruct (generate_questions_body cfg q w) as [[o q1] w1].
    destruct o; try reflexivity. exfalso. apply (H e). reflexivity. }
  rewrite E. split; [reflexivity|].
  unfold generate_questions_body, get_groq_client, attempt_failed.
  destruct (truthy (api_key q)); [|cbn; lia].
  cbn. destruct (net w (calls w)); [|cbn; lia].
  destruct (extract_questions _ _ _) as [[qs|e'] q2]; cbn; lia.
Qed.

(** C7: when the first call of the API fails and a second one would
    succeed, [generate_questions] makes the first call only: it returns
    [None] with the attempt counter incremented, without sleeping or calling
    again, although the same call on the state it leaves yields the
    question. *)
Theorem generate_questions_gives_up_after_first_failure :
  let '(o, q1, w1) := generate_questions default_interp ready_quiz flaky_world in
  o = Return None
  /\ calls w1 = 1 /\ slept w1 = 0
  /\ attempt_count q1 = (attempt_count ready_quiz + 1)%Z
  /\ shown w1 = [AttemptFailed 2 (APIError (t "connection reset"))]
  /\ fst (fst (generate_questions default_interp q1 w1))
     = Return (Some [sample_question]).
Proof.
  vm_compute. repeat split; reflexivity.
Qed.

(** A reply that parses to no question is final as well: one call, the
    empty list returned, and [generate_quiz] reports the failure. *)
Lemma empty_parse_is_not_retried :
  let w := world_of (fun _ => Ok (t "I cannot help with that.")) in
  let '(o, q1, w1) := generate_quiz default_interp ready_quiz w in
  o = Return tt /\ calls w1 = 1 /\ slept w1 = 0
  /\ questions q1 = [] /\ shown w1 = [GenerationFailed].
Proof.
  vm_compute. repeat split; reflexivity.
Qed.

(** ** Submitting without a selection *)

(** C8: with no option selected the radio group yields [None], and
    [process_answer] raises [AttributeError] at its first statement, whatever
    the question and the state; nothing is recorded. *)
Theorem process_answer_without_selection_raises
        (qd : pyval) (q : Quiz) (w : World) :
  process_answer qd PNone q w = (Raise AttributeError, q, w).
Proof. reflexivity. Qed.

Lemma submit_without_selection_raises :
  let q := start_quiz ready_quiz [sample_question] in
  submit PNone q steady_world = (Raise AttributeError, q, steady_world).
Proof. reflexivity. Qed.

(** ** Score and history *)

Lemma count_correct_app (h1 h2 : list AnswerRecord) :
  count_correct (h1 ++ h2) = count_correct h1 + count_correct h2.
Proof. unfold count_correct. now rewrite filter_app, length_app. Qed.

Lemma count_correct_le (h : list AnswerRecord) : count_correct h <= length h.
Proof. unfold count_correct. apply filter_length_le. Qed.

(** One call of [process_answer]: either it raises before touching the
    state, or it appends one record and adds that record's flag to the
    score. *)
Lemma process_answer_step (qd ua : pyval) (q : Quiz) (w : World) :
  let '(o, q', w') := process_answer qd ua q w in
  (exists e, o = Raise e /\ q' = q /\ w' = w)
  \/ (exists r, history q' = history q ++ [r]
                /\ score q' = (score q + if is_correct r then 1 else 0)%Z
                /\ questions q' = questions q).
Proof.
  unfold process_answer.
  destruct (answer_matches qd ua) as [flag|e]; [|left; eauto].
  destruct (subscript qd "Question") as [qt|e]; [|left; eauto].
  destruct (subscript qd "Answer") as [a|e]; [|left; eauto].
  set (r := {| question := qt; user_answer := ua; correct_answer := a;
               is_correct := flag |}).
  destruct (_ <? _)%Z.
  - right. exists r. cbn. repeat split. destruct flag; lia.
  - destruct (generate_feedback_history (record_answer q r) w) as (H1 & H2 & H3).
    destruct (generate_feedback (record_answer q r) w) as [[o q'] w'].
    cbn in H1, H2, H3. right. exists r. rewrite H1, H2, H3. cbn.
    repeat split. destruct flag; lia.
Qed.

Lemma submit_step (ua : pyval) (q : Quiz) (w : World) :
  let '(o, q', w') := submit ua q w in
  (exists e, o = Raise e /\ q' = q /\ w' = w)
  \/ (exists r, history q' = history q ++ [r]
                /\ score q' = (score q + if is_correct r then 1 else 0)%Z
                /\ questions q' = questions q).
Proof.
  unfold submit. destruct (py_index (questions q) (current_q q)) as [qd|];
    [|left; eauto].
  destruct (subscript qd "Question"); [|left; eauto].
  destruct (option_values qd); [|left; eauto].
  apply process_answer_step.
Qed.

Lemma submit_all_steps (answers : list pyval) :
  forall (q : Quiz) (w : World),
    let q' := fst (submit_all answers q w) in
    exists new,
      history q' = history q ++ new
      /\ score q' = (score q + Z.of_nat (count_correct new))%Z
      /\ length new <= length answers
      /\ questions q' = questions q.
Proof.
  induction answers as [|a rest IH]; intros q w; cbn.
  - exists []. rewrite app_nil_r. cbn. repeat split; lia.
  - pose proof (submit_step a q w) as Hs.
    destruct (submit a q w) as [[o q1] w1].
    destruct (IH q1 w1) as (new & Hh & Hsc & Hl & Hq).
    destruct Hs as [(e & _ & -> & _) | (r & Hh1 & Hs1 & Hq1)].
    + exists new. repeat split; auto.
    + exists (r :: new). rewrite Hh, Hsc, Hh1, Hs1, Hq, Hq1, <- app_assoc.
      change (r :: new) with ([r] ++ new). rewrite count_correct_app.
      cbn [length app]. repeat split; try lia.
      unfold count_correct at 2. cbn. destruct (is_correct r); cbn; lia.
Qed.

(** One question, answered twice: the last question stays on the page after
    it has been answered, and every further submission is recorded and
    scored. *)
Lemma history_outgrows_questions :
  let q := start_quiz ready_quiz [sample_question] in
  let q' := fst (submit_all [PStr (u "4"); PStr (u "4")] q steady_world) in
  length (questions q') = 1 /\ length (history q') = 2 /\ score q' = 2%Z.
Proof. vm_compute. repeat split. Qed.

(** C10: after any sequence of submissions on a freshly started quiz the
    score is the number of history entries flagged correct, and
    0 <= score <= length of the history <= number of submissions; one
    submission either raises before it touches the state or appends exactly
    one entry.  The history is not bounded by the number of questions. *)
Theorem score_counts_correct_entries
        (answers : list pyval) (q0 : Quiz) (qs : list pyval) (w : World) :
  (let q' := fst (submit_all answers (start_quiz q0 qs) w) in
   score q' = Z.of_nat (count_correct (history q'))
   /\ (0 <= score q' <= Z.of_nat (length (history q')))%Z
   /\ length (history q') <= length answers
   /\ questions q' = qs)
  /\
  (forall (ua : pyval) (q : Quiz),
     let '(o, q', w') := submit ua q w in
     (exists e, o = Raise e /\ q' = q /\ w' = w)
     \/ (exists r, history q' = history q ++ [r]
                   /\ score q' = (score q + if is_correct r then 1 else 0)%Z
                   /\ questions q' = questions q)).
Proof.
  split.
  - destruct (submit_all_steps answers (start_quiz q0 qs) w)
      as (new & Hh & Hs & Hl & Hq).
    cbn in Hh, Hs, Hq. cbn zeta. rewrite Hh, Hs, Hq.
    pose proof (count_correct_le new). repeat split; lia.
  - intros ua q. apply submit_step.
Qed.

(** ** The parser on replies *)

(** What [extract_questions] returns, for every reply: the blocks that
    decode, in order, and one diagnostic for each block that does not; or
    the limit error of the first block whose decoding ran into one. *)
Lemma extract_questions_spec (cfg : interp) (response : text) (q : Quiz) :
  let blocks := findall question_re response in
  match extract_questions cfg response q with
  | (Ok qs, q') =>
      qs = decoded cfg blocks
      /\ parsing_errors q' = parsing_errors q ++ diagnosed cfg blocks
      /\ existsb (hits_limit cfg) blocks = false
  | (Error e, q') =>
      limit_error e
      /\ exists pre b post,
           blocks = pre ++ b :: post
           /\ json_loads cfg (normalize b) = Error e
           /\ parsing_errors q' = parsing_errors q ++ diagnosed cfg pre
  end.
Proof.
  cbn zeta. unfold extract_questions.
  pose proof (parse_blocks_spec cfg (findall question_re response) []
                                (parsing_errors q)) as H.
  destruct (parse_blocks cfg (findall question_re response) []
                         (parsing_errors q)) as [[qs|e] errs].
  - destruct H as (-> & -> & H). cbn. auto.
  - destruct H as (Hl & pre & b & post & E & Hb & _ & ->).
    split; [exact Hl|]. exists pre, b, post. cbn. auto.
Qed.

(** C1: a reply with one block in the format of the system instruction,
    whose texts hold ratios such as 2:4.  The only candidate block is the
    whole block, and with the quotes replaced it decodes to a record with
    four options; but the key pattern also quotes the word before each colon
    inside the texts, the decoder rejects the result, and the parser returns
    no record and one diagnostic. *)
Theorem ratio_question_is_dropped :
  let '(r, q') := extract_questions default_interp ratio_reply initial_quiz in
  findall question_re ratio_reply = [ratio_block]
  /\ (exists v, json_loads default_interp (replace_char squote dquote ratio_block)
                = Ok v /\ well_formed_record v = true)
  /\ r = Ok []
  /\ parsing_errors q'
     = [diagnostic ratio_block ExpectingComma (normalize ratio_block) 33].
Proof.
  vm_compute. repeat split. eexists. split; reflexivity.
Qed.

(** The example of the system instruction itself is parsed: one record with
    answer "4" and four options, no diagnostic. *)
Lemma sample_reply_parsed :
  extract_questions default_interp sample_reply initial_quiz
  = (Ok [sample_question], initial_quiz)
  /\ well_formed_record sample_question = true.
Proof. vm_compute. split; reflexivity. Qed.

(** The same with an apostrophe in the question text: no record, one
    diagnostic holding the block. *)
Lemma apostrophe_reply_dropped :
  let b := t "{'Question': 'What's 2+2?', 'Options': {'OptionA': '3','OptionB': '4','OptionC': '5','OptionD': '6'}, 'Answer': '4'}" in
  let '(r, q') := extract_questions default_interp
                    (t "**Question1**" ++ nl ++ b) initial_quiz in
  r = Ok [] /\ map block (parsing_errors q') = [b].
Proof. vm_compute. split; reflexivity. Qed.

(** ** Exceptions that leave the parser *)

Lemma early_close_no_brace (body : text) :
  ~ In "}"%char body -> early_close body = false.
Proof.
  induction body as [|c body IH]; intro H; [reflexivity|]. cbn.
  destruct (Ascii.eqb c "}") eqn:E.
  - apply Ascii.eqb_eq in E. subst c. exfalso. apply H. now left.
  - cbn. apply IH. intro Hi. apply H. now right.
Qed.

Lemma findall_single_block (d body : text) :
  d <> [] -> all_digits d = true -> early_close body = false ->
  findall question_re (marker d ++ braced body) = [braced body].
Proof.
  intros Hn Hd Hb.
  pose proof (@block_match d [] body [] Hn Hd eq_refl Hb (or_introl eq_refl))
    as Hm.
  cbn [app] in Hm. rewrite app_nil_r in Hm.
  rewrite <- (app_nil_r (marker d ++ braced body)).
  rewrite (@findall_step question_re (marker d ++ braced body) [] [braced body]).
  - reflexivity.
  - unfold marker. cbn. discriminate.
  - rewrite app_nil_r. exact Hm.
Qed.

Lemma sub_from_brackets (n : nat) (rest : text) :
  sub_from key_re key_repl (repeat "["%char n ++ rest) 0
  = repeat "["%char n ++ sub_from key_re key_repl rest 0.
Proof.
  induction n as [|n IH]; [reflexivity|].
  cbn [repeat app]. cbn [sub_from]. rewrite <- IH. reflexivity.
Qed.

Lemma sub_from_nomatch (r : regex) (repl : list text -> text)
      (a : ascii) (s : text) :
  match_at r (a :: s) = None ->
  sub_from r repl (a :: s) 0 = a :: sub_from r repl s 0.
Proof. intro H. cbn [sub_from]. now rewrite H. Qed.

Lemma normalize_nested (n : nat) :
  normalize (braced (nested_body n))
  = "{"%char :: dquote :: "a"%char :: dquote :: ":"%char
      :: repeat "["%char n ++ ["}"%char].
Proof.
  unfold normalize, re_sub, braced, nested_body, replace_char.
  rewrite <- app_assoc. cbn [t list_ascii_of_string app map].
  rewrite map_app.
  replace (map _ (repeat "["%char n)) with (repeat "["%char n).
  2:{ induction n as [|n IH]; [reflexivity|]. cbn. now rewrite <- IH. }
  cbn [map Ascii.eqb Bool.eqb squote dquote].
  rewrite !sub_from_nomatch by reflexivity.
  rewrite sub_from_brackets. reflexivity.
Qed.

Lemma skip_ws_stop (a : ascii) (s : text) :
  is_json_ws a = false -> skip_ws (a :: s) = a :: s.
Proof. intro H. cbn. now rewrite H. Qed.

Lemma scan_once_nested (cfg : interp) (d : nat) :
  forall n rest, d < n ->
    scan_once cfg d (repeat "["%char n ++ rest) = JRaise RecursionError.
Proof.
  induction d as [|d IH]; intros n rest Hn;
    (destruct n as [|n]; [lia|]); cbn [repeat app].
  - reflexivity.
  - rewrite scan_once_array.
    destruct n as [|n]; [lia|].
    specialize (IH (S n) rest ltac:(lia)).
    cbn [repeat app] in *.
    rewrite skip_ws_stop by reflexivity.
    cbn [after Ascii.eqb Bool.eqb array_items].
    rewrite IH. reflexivity.
Qed.

(** Whatever the recursion limit leaves, a reply nested that deep makes
    [extract_questions] raise [RecursionError]. *)
Lemma deep_nesting_raises (cfg : interp) (q : Quiz) :
  fst (extract_questions cfg (nested_reply (recursion_depth cfg)) q)
  = Error RecursionError.
Proof.
  unfold extract_questions, nested_reply.
  rewrite findall_single_block;
    [|discriminate|reflexivity|].
  2:{ apply early_close_no_brace. unfold nested_body. rewrite in_app_iff.
      intros [H | H]; [cbn in H; intuition discriminate|].
      apply repeat_spec in H. discriminate. }
  cbn [parse_blocks]. rewrite normalize_nested.
  assert (E : json_loads cfg
                ("{"%char :: dquote :: "a"%char :: dquote :: ":"%char
                   :: repeat "["%char (recursion_depth cfg) ++ ["}"%char])
              = Error RecursionError).
  { unfold json_loads.
    rewrite skip_ws_stop by reflexivity.
    destruct (recursion_depth cfg) as [|d] eqn:Ed; [reflexivity|].
    rewrite scan_once_object.
    rewrite skip_ws_stop by reflexivity.
    cbn [after Ascii.eqb Bool.eqb dquote object_members].
    assert (Ek : forall b x, scanstring b ("a"%char :: dquote :: x) 0 []
                             = JOk [97%N] x) by reflexivity.
    rewrite Ek. rewrite (@skip_ws_stop ":"%char) by reflexivity.
    cbn [after Ascii.eqb Bool.eqb].
    cbn [repeat app]. rewrite skip_ws_stop by reflexivity.
    change ("["%char :: repeat "["%char d ++ ["}"%char])
      with (repeat "["%char (S d) ++ ["}"%char]).
    rewrite scan_once_nested by lia. reflexivity. }
  rewrite E. reflexivity.
Qed.

(** A block nested deeper than the recursion limit allows: the decoder
    raises [RecursionError], which [extract_questions] does not catch. *)
Lemma recursion_error_escapes :
  fst (extract_questions default_interp (nested_reply 1000) initial_quiz)
  = Error RecursionError.
Proof. exact (deep_nesting_raises default_interp initial_quiz). Qed.

(** C2: for every reply, [extract_questions] either returns or raises one of
    the decoder's limit errors.  When it returns, the records are the values
    of the candidate blocks that decode, in order; one diagnostic is appended
    for each block that fails with a decode error, holding the raw block and
    the decoder's message; records and new diagnostics together are as many
    as the blocks, so that with exactly one failing block out of N there are
    N-1 records and one diagnostic.  When it raises, the exception is
    [RecursionError] or [ValueError] raised by the decoder on one of the
    blocks; a decode error never leaves the parser. *)
Theorem extract_questions_isolates_decode_errors
        (cfg : interp) (response : text) (q : Quiz) :
  let blocks := findall question_re response in
  match extract_questions cfg response q with
  | (Ok qs, q') =>
      qs = decoded cfg blocks
      /\ parsing_errors q' = parsing_errors q ++ diagnosed cfg blocks
      /\ length qs + length (diagnosed cfg blocks) = length blocks
      /\ Forall (fun e =>
                   exists m doc pos,
                     In (block e) blocks
                     /\ json_loads cfg (normalize (block e))
                        = Error (JSONDecodeError m doc pos)
                     /\ message e = decode_error_str m doc pos)
                (diagnosed cfg blocks)
  | (Error e, q') =>
      limit_error e
      /\ exists b, In b blocks /\ json_loads cfg (normalize b) = Error e
  end.
Proof.
  cbn zeta. pose proof (extract_questions_spec cfg response q) as H.
  cbn zeta in H.
  destruct (extract_questions cfg response q) as [[qs|e] q'].
  - destruct H as (-> & -> & Hl). repeat split.
    + now apply decoded_diagnosed_length.
    + apply Forall_forall. intros e He. unfold diagnosed in He.
      apply in_flat_map in He. destruct He as (b & Hb & He).
      destruct (json_loads cfg (normalize b)) as [v|[m doc pos| | | | | | | |]] eqn:E;
        try contradiction.
      destruct He as [<- | []]. cbn. exists m, doc, pos. auto.
  - destruct H as (Hl & pre & b & post & E & Hb & _).
    split; [exact Hl|]. exists b. split; [|exact Hb].
    rewrite E. apply in_or_app. right. now left.
Qed.

(** A reply whose only block is the empty object: it decodes, and is
    returned as a question although it has none of the fields. *)
Lemma empty_object_is_returned :
  fst (extract_questions default_interp empty_object_reply initial_quiz)
  = Ok [PDict []]
  /\ well_formed_record (PDict []) = false.
Proof. vm_compute. split; reflexivity. Qed.

(** C3: the records that [extract_questions] returns are the values of all
    the candidate blocks that decode, whatever their fields, and each is a
    dict: nothing checks for [Question], [Options] or [Answer]. *)
Theorem returned_records_are_decoded_objects
        (cfg : interp) (response : text) (q : Quiz) :
  match fst (extract_questions cfg response q) with
  | Ok qs =>
      qs = decoded cfg (findall question_re response)
      /\ Forall (fun v =>
                   is_dict v
                   /\ exists body,
                        In (braced body) (findall question_re response)
                        /\ json_loads cfg (normalize (braced body)) = Ok v)
                qs
  | Error _ => True
  end.
Proof.
  pose proof (extract_questions_spec cfg response q) as H. cbn zeta in H.
  destruct (extract_questions cfg response q) as [[qs|e] q']; cbn [fst];
    [|exact I].
  destruct H as (-> & _). split; [reflexivity|].
  apply Forall_forall. intros v Hv. apply decoded_from_blocks in Hv.
  destruct Hv as (b & Hb & Hv).
  destruct (findall_braced _ _ Hb) as [body ->].
  split; [|eauto].
  destruct (normalize_braced body) as [s Es]. rewrite Es in Hv.
  eapply json_loads_brace, Hv.
Qed.

(** ** Back-to-back blocks *)

Lemma findall_two_blocks (d1 ws1 body1 d2 ws2 body2 : text) :
  d1 <> [] -> all_digits d1 = true -> all_space ws1 = true ->
  early_close body1 = false ->
  d2 <> [] -> all_digits d2 = true -> all_space ws2 = true ->
  early_close body2 = false ->
  findall question_re
          (marker d1 ++ ws1 ++ braced body1 ++ marker d2 ++ ws2 ++ braced body2)
  = [braced body1; braced body2].
Proof.
  intros Hn1 Hd1 Hw1 Hb1 Hn2 Hd2 Hw2 Hb2.
  set (rest := marker d2 ++ ws2 ++ braced body2).
  assert (Hr : at_marker_text rest).
  { exists d2, (ws2 ++ braced body2). repeat split; auto.
    now apply forallb_Forall. }
  pose proof (@block_match d1 ws1 body1 rest Hn1 Hd1 Hw1 Hb1 (or_intror Hr))
    as M1.
  pose proof (@block_match d2 ws2 body2 [] Hn2 Hd2 Hw2 Hb2 (or_introl eq_refl))
    as M2.
  replace (marker d1 ++ ws1 ++ braced body1 ++ rest)
    with ((marker d1 ++ ws1 ++ braced body1) ++ rest) in *
    by now rewrite <- !app_assoc.
  rewrite (@findall_step question_re _ rest [braced body1]); [|
    unfold marker; cbn; discriminate | exact M1].
  cbn [nth]. f_equal. subst rest.
  replace (marker d2 ++ ws2 ++ braced body2)
    with ((marker d2 ++ ws2 ++ braced body2) ++ [])
    by now rewrite app_nil_r.
  replace (marker d2 ++ ws2 ++ braced body2 ++ [])
    with ((marker d2 ++ ws2 ++ braced body2) ++ []) in M2
    by now rewrite <- !app_assoc.
  rewrite (@findall_step question_re _ [] [braced body2]); [reflexivity|
    unfold marker; cbn; discriminate | exact M2].
Qed.

(** The first block quotes a brace followed by a marker in its question
    text: each block decodes on its own to a record with four options, yet
    the first group ends at the quoted brace and only the second block
    yields a record. *)
Lemma quoted_marker_splits_block :
  let '(r, q') := extract_questions default_interp quoting_reply initial_quiz in
  map well_formed_record
      (decoded default_interp [braced quoting_body; braced sample_body])
  = [true; true]
  /\ r = Ok [sample_question]
  /\ map block (parsing_errors q')
     = [t "{'Question': 'What follows {x}"].
Proof. vm_compute. repeat split. Qed.

(** C4: two blocks back to back, each a marker, optional whitespace and a
    braced body in which no closing brace is followed by optional whitespace
    and a marker.  [findall] cuts the reply into exactly the two blocks, in
    order, and when both decode after normalization the parser returns the
    two records and logs nothing. *)
Theorem back_to_back_blocks
        (cfg : interp) (d1 ws1 body1 d2 ws2 body2 : text) (v1 v2 : pyval)
        (q : Quiz) :
  d1 <> [] -> all_digits d1 = true -> all_space ws1 = true ->
  early_close body1 = false ->
  d2 <> [] -> all_digits d2 = true -> all_space ws2 = true ->
  early_close body2 = false ->
  json_loads cfg (normalize (braced body1)) = Ok v1 ->
  json_loads cfg (normalize (braced body2)) = Ok v2 ->
  let reply :=
    marker d1 ++ ws1 ++ braced body1 ++ marker d2 ++ ws2 ++ braced body2 in
  findall question_re reply = [braced body1; braced body2]
  /\ extract_questions cfg reply q = (Ok [v1; v2], q).
Proof.
  intros Hn1 Hd1 Hw1 Hb1 Hn2 Hd2 Hw2 Hb2 E1 E2 reply.
  assert (F : findall question_re reply = [braced body1; braced body2])
    by now apply findall_two_blocks.
  split; [exact F|].
  unfold extract_questions. rewrite F. cbn [parse_blocks].
  rewrite E1, E2. cbn [app]. now rewrite set_parsing_errors_same.
Qed.

Lemma back_to_back_sample :
  findall question_re two_block_reply = [braced sample_body; braced sample_body]
  /\ extract_questions default_interp two_block_reply ready_quiz
     = (Ok [sample_question; sample_question], ready_quiz).
Proof.
  apply (@back_to_back_blocks default_interp (t "1") nl sample_body
           (t "2") nl sample_body sample_question sample_question ready_quiz);
    try reflexivity; discriminate.
Defined.

(** ** Resets *)

(** A session in which the attempt counter and the stored reply differ from
    what a successful generation leaves. *)
Lemma generate_quiz_touches_more_than_five_fields :
  let '(o, q1, _) := generate_quiz default_interp ready_quiz steady_world in
  o = Rerun
  /\ attempt_count q1 <> attempt_count ready_quiz
  /\ raw_response q1 <> raw_response ready_quiz
  /\ questions q1 <> [].
Proof.
  vm_compute. repeat split; discriminate.
Qed.

Lemma extract_questions_frame (cfg : interp) (response : text) (q : Quiz) :
  let q' := snd (extract_questions cfg response q) in
  api_key q' = api_key q /\ user_details q' = user_details q
  /\ questions q' = questions q /\ current_q q' = current_q q
  /\ score q' = score q /\ difficulty q' = difficulty q
  /\ history q' = history q /\ feedback q' = feedback q
  /\ chat_history q' = chat_history q /\ raw_response q' = raw_response q
  /\ attempt_count q' = attempt_count q.
Proof.
  unfold extract_questions.
  destruct (parse_blocks _ _ _ _) as [r errs]. cbn. repeat split.
Qed.

Lemma generate_questions_frame (cfg : interp) (q : Quiz) (w : World) :
  let q' := snd (fst (generate_questions cfg q w)) in
  api_key q' = api_key q /\ user_details q' = user_details q
  /\ questions q' = questions q /\ current_q q' = current_q q
  /\ score q' = score q /\ difficulty q' = difficulty q
  /\ history q' = history q /\ feedback q' = feedback q
  /\ chat_history q' = chat_history q.
Proof.
  destruct (generate_questions_single_attempt cfg q w) as [E _]. rewrite E.
  unfold generate_questions_body, get_groq_client, attempt_failed.
  destruct (truthy (api_key q)); [|cbn; repeat split].
  cbn. destruct (net w (calls w)); [|cbn; repeat split].
  pose proof (extract_questions_frame cfg a (set_raw_response q a)) as H.
  destruct (extract_questions _ _ _) as [[qs|e'] q2]; cbn in *;
    repeat split; intuition congruence.
Qed.

(** A generation that returns questions made one call of the API, stored its
    reply, and appended the diagnostics of that reply. *)
Lemma generate_questions_success (cfg : interp) (q : Quiz) (w : World) :
  match generate_questions cfg q w with
  | (Return (Some qs), q', _) =>
      exists raw,
        net w (calls w) = Ok raw
        /\ qs = decoded cfg (findall question_re raw)
        /\ raw_response q' = Some raw
        /\ parsing_errors q'
           = parsing_errors q ++ diagnosed cfg (findall question_re raw)
        /\ attempt_count q' = attempt_count q
  | _ => True
  end.
Proof.
  destruct (generate_questions_single_attempt cfg q w) as [E _]. rewrite E.
  unfold generate_questions_body, get_groq_client, attempt_failed.
  destruct (truthy (api_key q)); [|exact I].
  cbn. destruct (net w (calls w)) as [raw|e]; [|exact I].
  pose proof (extract_questions_spec cfg raw (set_raw_response q raw)) as H.
  pose proof (extract_questions_frame cfg raw (set_raw_response q raw)) as F.
  cbn zeta in H, F.
  destruct (extract_questions cfg raw (set_raw_response q raw))
    as [[qs|e'] q2]; [|exact I].
  destruct H as (-> & Hp & _). cbn in F, Hp.
  exists raw. intuition.
Qed.

(** C9: "Retake Quiz" empties the question list, the history and the
    feedback, sets index and score to 0 and changes no other field.
    [generate_quiz], when it succeeds, stores the new questions, empties
    history and feedback, sets index, score and also the attempt counter to
    0, replaces the stored reply by the new one and appends the diagnostics
    of the new reply, and keeps key, user details, difficulty and chat
    transcript; when it does not succeed it resets none of the five
    fields. *)
Theorem reset_actions_frame (cfg : interp) (q : Quiz) (w : World) :
  (let q' := snd (retake_quiz q) in
   questions q' = [] /\ current_q q' = 0%Z /\ score q' = 0%Z
   /\ history q' = [] /\ feedback q' = []
   /\ api_key q' = api_key q /\ user_details q' = user_details q
   /\ difficulty q' = difficulty q /\ chat_history q' = chat_history q
   /\ raw_response q' = raw_response q
   /\ parsing_errors q' = parsing_errors q
   /\ attempt_count q' = attempt_count q)
  /\
  (let '(o, q', _) := generate_quiz cfg q w in
   api_key q' = api_key q /\ user_details q' = user_details q
   /\ difficulty q' = difficulty q /\ chat_history q' = chat_history q
   /\ match o with
      | Rerun =>
          questions q' <> [] /\ current_q q' = 0%Z /\ score q' = 0%Z
          /\ history q' = [] /\ feedback q' = [] /\ attempt_count q' = 0%Z
          /\ exists raw,
               net w (calls w) = Ok raw
               /\ questions q' = decoded cfg (findall question_re raw)
               /\ raw_response q' = Some raw
               /\ parsing_errors q'
                  = parsing_errors q
                      ++ diagnosed cfg (findall question_re raw)
      | _ =>
          questions q' = questions q /\ current_q q' = current_q q
          /\ score q' = score q /\ history q' = history q
          /\ feedback q' = feedback q
      end).
Proof.
  split; [cbn; repeat split|].
  unfold generate_quiz. destruct (user_details q) eqn:Hd; [|repeat split; assumption].
  pose proof (generate_questions_frame cfg q w) as H.
  pose proof (generate_questions_body_outcome cfg q w) as Hr.
  pose proof (generate_questions_success cfg q w) as Hs.
  destruct (generate_questions_single_attempt cfg q w) as [E _].
  rewrite <- E in Hr.
  destruct (generate_questions cfg q w) as [[o q1] w1]. cbn in H, Hr.
  destruct H as (H1 & H2 & H3 & H4 & H5 & H6 & H7 & H8 & H9).
  destruct o as [[[|x qs]|]| | |]; try contradiction; cbn; rewrite ?Hd in *;
    repeat split; try congruence.
  destruct Hs as (raw & Hn & Hq & Hraw & Hp & _).
  exists raw. auto.
Qed.

(** ** Re-serialized records: the text of a string *)

Lemma code_ascii_of_N (c : N) : (c < 256)%N -> code (ascii_of_N c) = c.
Proof. intro H. unfold code. now apply N_ascii_embedding. Qed.

Lemma hexval_hexdigit (x : N) : (x < 16)%N -> hexval (hexdigit x) = Some x.
Proof.
  intro H.
  assert (E : (x = 0 \/ x = 1 \/ x = 2 \/ x = 3 \/ x = 4 \/ x = 5 \/ x = 6
               \/ x = 7 \/ x = 8 \/ x = 9 \/ x = 10 \/ x = 11 \/ x = 12
               \/ x = 13 \/ x = 14 \/ x = 15)%N) by lia.
  repeat (destruct E as [-> | E]; [reflexivity|]). subst. reflexivity.
Qed.

Ltac div_lia := zify; Z.to_euclidean_division_equations; lia.

Lemma hex4_u_escape (n : N) (tail : text) :
  (n < 65536)%N ->
  hex4 (map hexdigit [n / 4096; (n / 256) mod 16; (n / 16) mod 16; n mod 16]%N
          ++ tail) = Some n.
Proof.
  intro H. cbn [map app hex4].
  rewrite !hexval_hexdigit.
  - f_equal. div_lia.
  - apply N.mod_lt. discriminate.
  - apply N.mod_lt. discriminate.
  - apply N.mod_lt. discriminate.
  - apply N.Div0.div_lt_upper_bound. lia.
Qed.

Lemma scanstring_skip (start p tail : text) (acc : ustr) :
  tail <> [] ->
  scanstring start (p ++ tail) (length p) acc = scanstring start tail 0 acc.
Proof.
  intro Ht. induction p as [|a p IH]; [reflexivity|].
  cbn [app length scanstring]. exact IH.
Qed.

Lemma scanstring_escape (start s1 : text) (acc : ustr) (x : N) (n : nat) :
  s1 <> [] -> escape s1 = Esc x n ->
  scanstring start ("\"%char :: s1) 0 acc = scanstring start s1 n (x :: acc).
Proof.
  intros Hs He. cbn [scanstring]. cbn [Ascii.eqb Bool.eqb dquote].
  destruct s1 as [|e s2]; [congruence|]. now rewrite He.
Qed.

Lemma escape_u (n : N) (tail : text) :
  (n < 65536)%N -> between 55296 56319 n = false -> tail <> [] ->
  escape (tl (u_escape n) ++ tail) = Esc n 5.
Proof.
  intros Hn Hs Ht. unfold u_escape. cbn [tl]. cbn [app].
  unfold escape. cbn [Ascii.eqb Bool.eqb].
  change ("u"%char :: ?x ++ tail) with ("u"%char :: (x ++ tail)).
  replace (length (map hexdigit _ ++ tail) <? 5) with false.
  2:{ symmetry. apply Nat.ltb_ge. rewrite length_app. cbn.
      destruct tail; [congruence|]. cbn. lia. }
  rewrite hex4_u_escape by assumption. rewrite Hs. reflexivity.
Qed.

(** A surrogate pair is read back as the code point it stands for. *)
Lemma escape_pair (c : N) (tail : text) :
  (65536 <= c < 1114112)%N -> tail <> [] ->
  escape (tl (u_escape (55296 + ((c - 65536) / 1024) mod 1024))
            ++ u_escape (56320 + (c - 65536) mod 1024) ++ tail) = Esc c 11.
Proof.
  intros Hc Ht.
  set (hi := (55296 + ((c - 65536) / 1024) mod 1024)%N).
  set (lo := (56320 + (c - 65536) mod 1024)%N).
  assert (Hhi : (55296 <= hi < 56320)%N).
  { subst hi. div_lia. }
  assert (Hlo : (56320 <= lo < 57344)%N).
  { subst lo. div_lia. }
  unfold u_escape at 1. cbn [tl]. cbn [app].
  unfold escape. cbn [Ascii.eqb Bool.eqb].
  replace (length _ <? 5) with false.
  2:{ symmetry. apply Nat.ltb_ge. rewrite length_app. cbn. lia. }
  rewrite hex4_u_escape by lia.
  replace (between 55296 56319 hi) with true
    by (symmetry; unfold between; apply andb_true_iff; split;
        apply N.leb_le; lia).
  cbn [map app skipn].
  unfold u_escape. cbn [map app length Nat.leb andb Ascii.eqb Bool.eqb skipn].
  change (hexdigit (lo / 4096) :: hexdigit ((lo / 256) mod 16)
            :: hexdigit ((lo / 16) mod 16) :: hexdigit (lo mod 16) :: tail)
    with (map hexdigit [lo / 4096; (lo / 256) mod 16; (lo / 16) mod 16;
                        lo mod 16]%N ++ tail).
  rewrite hex4_u_escape by lia.
  replace (between 56320 57343 lo) with true
    by (symmetry; unfold between; apply andb_true_iff; split;
        apply N.leb_le; lia).
  destruct tail as [|a0 tail]; [congruence|]. cbn [length andb].
  f_equal. subst hi lo. div_lia.
Qed.

(** One character written by [json.dumps] is read back by [scanstring]. *)
Lemma scanstring_escape_char (start tail : text) (acc : ustr) (c : N) :
  scalar c -> tail <> [] ->
  scanstring start (escape_char c ++ tail) 0 acc
  = scanstring start tail 0 (c :: acc).
Proof.
  intros Hc Ht. unfold escape_char.
  assert (Hshort : forall e x,
             escape [e] = Esc x 1 ->
             (forall z, escape (e :: z) = escape [e]) ->
             scanstring start (["\"%char; e] ++ tail) 0 acc
             = scanstring start tail 0 (x :: acc)).
  { intros e x He Hz. cbn [app].
    rewrite (@scanstring_escape start (e :: tail) acc x 1);
      [|discriminate|now rewrite Hz].
    apply (@scanstring_skip start [e] tail (x :: acc) Ht). }
  destruct (c =? 34)%N eqn:E1; [apply N.eqb_eq in E1; subst c; now apply Hshort|].
  destruct (c =? 92)%N eqn:E2; [apply N.eqb_eq in E2; subst c; now apply Hshort|].
  destruct (c =? 10)%N eqn:E3; [apply N.eqb_eq in E3; subst c; now apply Hshort|].
  destruct (c =? 13)%N eqn:E4; [apply N.eqb_eq in E4; subst c; now apply Hshort|].
  destruct (c =? 9)%N eqn:E5; [apply N.eqb_eq in E5; subst c; now apply Hshort|].
  destruct (c =? 8)%N eqn:E6; [apply N.eqb_eq in E6; subst c; now apply Hshort|].
  destruct (c =? 12)%N eqn:E7; [apply N.eqb_eq in E7; subst c; now apply Hshort|].
  apply N.eqb_neq in E1, E2.
  destruct (between 32 126 c) eqn:E8.
  - unfold between in E8. apply andb_true_iff in E8. destruct E8 as [L U].
    apply N.leb_le in L, U.
    cbn [app scanstring].
    assert (Hcode : code (ascii_of_N c) = c) by (apply code_ascii_of_N; lia).
    destruct (Ascii.eqb (ascii_of_N c) dquote) eqn:Q.
    { apply Ascii.eqb_eq in Q. rewrite Q in Hcode. cbn in Hcode. lia. }
    destruct (Ascii.eqb (ascii_of_N c) "\") eqn:B.
    { apply Ascii.eqb_eq in B. rewrite B in Hcode. cbn in Hcode. lia. }
    rewrite Hcode.
    replace (c <=? 31)%N with false by (symmetry; apply N.leb_gt; lia).
    reflexivity.
  - destruct (c <? 65536)%N eqn:E9.
    + apply N.ltb_lt in E9.
      assert (Hs : between 55296 56319 c = false).
      { unfold between. apply andb_false_iff. unfold scalar in Hc.
        destruct (N.le_gt_cases 55296 c); [right|left];
          [apply N.leb_gt|apply N.leb_gt]; lia. }
      change (u_escape c) with ("\"%char :: tl (u_escape c)).
      cbn [app].
      rewrite (@scanstring_escape start (tl (u_escape c) ++ tail) acc c 5);
        [| unfold u_escape; cbn; discriminate | now apply escape_u].
      apply (@scanstring_skip start (tl (u_escape c)) tail (c :: acc) Ht).
    + apply N.ltb_ge in E9.
      assert (Hr : (65536 <= c < 1114112)%N) by (unfold scalar in Hc; lia).
      set (hi := (55296 + ((c - 65536) / 1024) mod 1024)%N).
      set (lo := (56320 + (c - 65536) mod 1024)%N).
      change (u_escape hi) with ("\"%char :: tl (u_escape hi)).
      cbn [app]. rewrite <- app_assoc.
      rewrite (@scanstring_escape start _ acc c 11);
        [| unfold u_escape; cbn; discriminate | now apply escape_pair].
      rewrite app_assoc.
      apply (@scanstring_skip start (tl (u_escape hi) ++ u_escape lo) tail
                              (c :: acc) Ht).
Qed.

Lemma scanstring_dumps (start tail : text) (s : ustr) :
  Forall scalar s ->
  forall acc,
    scanstring start (flat_map escape_char s ++ dquote :: tail) 0 acc
    = JOk (rev acc ++ s) tail.
Proof.
  induction 1 as [|c s Hc Hs IH]; intro acc.
  - cbn. now rewrite app_nil_r.
  - cbn [flat_map]. rewrite <- app_assoc.
    rewrite scanstring_escape_char; [|exact Hc|destruct (flat_map _ _); discriminate].
    rewrite IH. cbn [rev]. now rewrite <- app_assoc.
Qed.

(** ** Re-serialized records: objects *)

Lemma skip_ws_solid (x tail : text) :
  solid x -> skip_ws (x ++ tail) = x ++ tail.
Proof. intros (a & r & -> & H). cbn. now rewrite H. Qed.

Lemma ustr_eqb_sym (a b : ustr) : ustr_eqb a b = ustr_eqb b a.
Proof.
  unfold ustr_eqb.
  destruct (list_eq_dec N.eq_dec a b), (list_eq_dec N.eq_dec b a);
    congruence.
Qed.

Lemma dict_set_fresh (acc : list (ustr * pyval)) (k : ustr) (v : pyval) :
  existsb (fun kv => ustr_eqb k (fst kv)) acc = false ->
  dict_set acc k v = acc ++ [(k, v)].
Proof.
  induction acc as [|[k' v'] acc IH]; [reflexivity|].
  cbn. intro H. apply orb_false_iff in H. destruct H as [H1 H2].
  rewrite H1. now rewrite IH.
Qed.

Lemma unique_keys_fresh (A : Type) (acc d : list (ustr * A)) (k : ustr) (v : A) :
  unique_keys (acc ++ (k, v) :: d) = true ->
  existsb (fun kv => ustr_eqb k (fst kv)) acc = false.
Proof.
  induction acc as [|[k' v'] acc IH]; [reflexivity|].
  cbn. intro H. apply andb_true_iff in H. destruct H as [H1 H2].
  apply negb_true_iff in H1. rewrite existsb_app in H1.
  apply orb_false_iff in H1. destruct H1 as [_ H1]. cbn in H1.
  apply orb_false_iff in H1. destruct H1 as [H1 _].
  rewrite ustr_eqb_sym, H1. cbn. now apply IH.
Qed.

Lemma join_cons (sep p : text) (ps : list text) :
  join sep (p :: ps)
  = p ++ match ps with [] => [] | _ :: _ => sep ++ join sep ps end.
Proof. destruct ps; cbn; [now rewrite app_nil_r|reflexivity]. Qed.

Lemma join_length (sep : text) (ps : list text) :
  Forall (fun p => p <> []) ps -> length ps <= length (join sep ps).
Proof.
  induction 1 as [|p ps Hp Hps IH]; [cbn; lia|].
  rewrite join_cons, length_app. destruct p; [congruence|].
  destruct ps; cbn [length] in *; [lia|]. rewrite length_app. lia.
Qed.

Section Members.
Variable scan : text -> jres pyval.

Lemma object_members_dumps (d : list (ustr * pyval)) :
  Forall (fun kv => Forall scalar (fst kv) /\ reads scan (snd kv)) d ->
  d <> [] ->
  forall acc gas rest,
    length d <= gas ->
    unique_keys (acc ++ d) = true ->
    object_members scan gas
                   (join (t ", ") (map entry d) ++ "}"%char :: rest) acc
    = JOk (PDict (acc ++ d)) rest.
Proof.
  induction 1 as [|[k v] d [Hk [Hsolid Hread]] Hd IH];
    [intro H; now destruct H|].
  intros _ acc gas rest Hg Hu. destruct gas as [|g]; [cbn in Hg; lia|].
  cbn [map]. rewrite join_cons. unfold entry at 1. cbn [fst snd].
  unfold dumps_str. cbn [app]. rewrite <- !app_assoc. cbn [app].
  set (X := match map entry d with
            | [] => []
            | _ :: _ => t ", " ++ join (t ", ") (map entry d)
            end ++ "}"%char :: rest).
  cbn [object_members after]. cbn [Ascii.eqb Bool.eqb dquote].
  change ("034"%char) with dquote.
  rewrite (@scanstring_dumps _ (t ": " ++ dumps v ++ X) k Hk []).
  cbn [rev app t list_ascii_of_string].
  rewrite (@skip_ws_stop ":"%char) by reflexivity.
  cbn [after Ascii.eqb Bool.eqb].
  change (skip_ws (" "%char :: ?x)) with (skip_ws x).
  rewrite skip_ws_solid by assumption. rewrite Hread.
  rewrite dict_set_fresh by (eapply unique_keys_fresh; eauto).
  destruct d as [|kv d'].
  - subst X. cbn [map app]. rewrite skip_ws_stop by reflexivity.
    cbn [after Ascii.eqb Bool.eqb]. reflexivity.
  - subst X. cbn [map]. cbn [t list_ascii_of_string app].
    rewrite skip_ws_stop by reflexivity.
    cbn [after Ascii.eqb Bool.eqb].
    change (skip_ws (" "%char :: ?x)) with (skip_ws x).
    change (entry kv :: map entry d') with (map entry (kv :: d')).
    assert (Hs : solid (join (t ", ") (map entry (kv :: d')))).
    { cbn [map]. rewrite join_cons. unfold entry at 1, dumps_str.
      cbn [app]. eexists _, _. split; [reflexivity|reflexivity]. }
    rewrite skip_ws_solid by assumption.
    rewrite IH.
    + now rewrite <- app_assoc.
    + discriminate.
    + cbn [length] in *. lia.
    + now rewrite <- app_assoc.
Qed.
End Members.

Lemma entry_nonempty (d : list (ustr * pyval)) :
  Forall (fun p => p <> []) (map entry d).
Proof.
  apply Forall_forall. intros p Hp. apply in_map_iff in Hp.
  destruct Hp as (kv & <- & _). unfold entry, dumps_str. discriminate.
Qed.

Lemma scan_once_dumps_str (cfg : interp) (depth : nat) (s : ustr) :
  Forall scalar s -> reads (scan_once cfg depth) (PStr s).
Proof.
  intro Hs. split.
  - cbn [dumps]. unfold dumps_str. eexists _, _. split; reflexivity.
  - intro tail. cbn [dumps]. unfold dumps_str. cbn [app].
    rewrite <- app_assoc. cbn [app].
    destruct depth; cbn [scan_once Ascii.eqb Bool.eqb dquote];
      change ("034"%char) with dquote;
      rewrite (@scanstring_dumps _ tail s Hs []); reflexivity.
Qed.

Lemma scan_once_dumps_dict (cfg : interp) (depth : nat)
      (d : list (ustr * pyval)) :
  Forall (fun kv => Forall scalar (fst kv)
                    /\ reads (scan_once cfg depth) (snd kv)) d ->
  unique_keys d = true ->
  reads (scan_once cfg (S depth)) (PDict d).
Proof.
  intros Hd Hu. split.
  - cbn [dumps]. eexists _, _. split; reflexivity.
  - intro tail. cbn [dumps app]. rewrite scan_once_object.
    change (map (fun kv => dumps_str (fst kv) ++ t ": " ++ dumps (snd kv)) d)
      with (map entry d).
    rewrite <- app_assoc. cbn [app].
    destruct d as [|kv d'].
    + cbn [map join app]. rewrite skip_ws_stop by reflexivity. reflexivity.
    + assert (Hs : solid (join (t ", ") (map entry (kv :: d')))).
      { cbn [map]. rewrite join_cons. unfold entry at 1, dumps_str.
        cbn [app]. eexists _, _. split; [reflexivity|reflexivity]. }
      rewrite skip_ws_solid by assumption.
      replace (after "}" _) with (@None text).
      2:{ destruct Hs as (a & r & E & _). revert E. cbn [map].
          rewrite join_cons. unfold entry at 1, dumps_str. cbn [app].
          intro E. injection E as <- _. reflexivity. }
      rewrite (@object_members_dumps (scan_once cfg depth) (kv :: d') Hd
                 ltac:(discriminate) [] _ tail); [reflexivity| |exact Hu].
      rewrite length_app.
      pose proof (join_length (t ", ") (entry_nonempty (kv :: d'))) as Hl.
      rewrite length_map in Hl. lia.
Qed.

(** ** Re-serialized records: normalization *)

Lemma last_default (a : text) (d1 d2 : ascii) :
  a <> [] -> last a d1 = last a d2.
Proof.
  induction a as [|c a IH]; [congruence|]. intros _.
  destruct a as [|c' a]; [reflexivity|]. apply IH. discriminate.
Qed.

Lemma guarded_app (a b : text) :
  forall prev, guarded prev (a ++ b) = guarded prev a && guarded (last a prev) b.
Proof.
  induction a as [|c a IH]; intro prev; [reflexivity|].
  cbn [app guarded]. rewrite IH, andb_assoc.
  destruct a as [|c' a]; [reflexivity|].
  now rewrite (@last_default (c' :: a) c prev) by discriminate.
Qed.

Lemma guarded_no_colon (a : text) :
  ~ In ":"%char a -> forall prev, guarded prev a = true.
Proof.
  induction a as [|c a IH]; intros H prev; [reflexivity|].
  cbn [guarded]. rewrite IH by (intro Hi; apply H; now right).
  destruct (Ascii.eqb c ":") eqn:E; [|reflexivity].
  apply Ascii.eqb_eq in E. subst c. exfalso. apply H. now left.
Qed.

Lemma guarded_colon (s : text) :
  forall prev p r,
    guarded prev s = true -> s = p ++ ":"%char :: r -> last p prev = dquote.
Proof.
  intros prev p r H ->. rewrite guarded_app in H.
  apply andb_true_iff in H. destruct H as [_ H]. cbn in H.
  apply andb_true_iff in H. destruct H as [H _].
  now apply Ascii.eqb_eq in H.
Qed.

(** What the key pattern matches: word characters, optional whitespace and
    a colon. *)
Lemma key_match_shape (r rest : text) (caps : list text) :
  match_at key_re r = Some (rest, caps) ->
  exists w sp tail,
    r = w ++ sp ++ ":"%char :: tail /\ w <> []
    /\ Forall (fun a => in_cls Word a = true) w
    /\ Forall (fun a => in_cls Space a = true) sp.
Proof.
  unfold match_at. intro H. apply rmatch_sound in H.
  destruct H as (s1 & caps1 & M & _). unfold key_re in M. inv_matches.
  match goal with
  | Hw : Forall (fun a => in_cls Word a = true) ?w,
    Hs : Forall (fun a => in_cls Space a = true) ?sp |- _ =>
      exists w, sp; eexists; repeat split; eauto
  end.
Qed.

Lemma last_app_nonempty (a b : text) (prev : ascii) :
  b <> [] -> last (a ++ b) prev = last b prev.
Proof.
  intro Hb. induction a as [|c a IH]; [reflexivity|].
  cbn [app]. destruct (a ++ b) eqn:E.
  - destruct a; [cbn in E; congruence|discriminate].
  - cbn [last]. exact IH.
Qed.

Lemma last_in (a : text) (prev : ascii) : a <> [] -> In (last a prev) a.
Proof.
  induction a as [|c a IH]; [congruence|]. intros _.
  destruct a as [|c' a]; [now left|]. right. apply IH. discriminate.
Qed.

(** In a guarded text the key pattern matches nowhere. *)
Lemma guarded_no_key (s : text) (prev : ascii) :
  guarded prev s = true ->
  forall p r, s = p ++ r -> match_at key_re r = None.
Proof.
  intros Hg p r E.
  destruct (match_at key_re r) as [[rest caps]|] eqn:M; [|reflexivity].
  exfalso. apply key_match_shape in M.
  destruct M as (w & sp & tail & -> & Hn & Hw & Hs).
  rewrite !app_assoc in E.
  pose proof (@guarded_colon _ _ _ _ Hg E) as Hl.
  assert (Hin : In dquote (w ++ sp)).
  { rewrite <- Hl. rewrite <- app_assoc.
    rewrite last_app_nonempty by (destruct w; [congruence|discriminate]).
    apply last_in. destruct w; [congruence|discriminate]. }
  apply in_app_or in Hin. rewrite Forall_forall in Hw, Hs.
  destruct Hin as [Hi | Hi]; [apply Hw in Hi|apply Hs in Hi]; discriminate.
Qed.

Lemma sub_from_identity (r : regex) (repl : list text -> text) (s : text) :
  (forall p x, s = p ++ x -> match_at r x = None) ->
  sub_from r repl s 0 = s.
Proof.
  induction s as [|a s IH]; intro H; [reflexivity|].
  rewrite sub_from_nomatch by (apply (H []); reflexivity).
  f_equal. apply IH. intros p x ->. apply (H (a :: p)). reflexivity.
Qed.

Lemma replace_char_absent (old new : ascii) (s : text) :
  ~ In old s -> replace_char old new s = s.
Proof.
  induction s as [|c s IH]; intro H; [reflexivity|]. cbn.
  destruct (Ascii.eqb c old) eqn:E.
  - apply Ascii.eqb_eq in E. subst c. exfalso. apply H. now left.
  - f_equal. apply IH. intro Hi. apply H. now right.
Qed.

(** A text without apostrophe that is guarded is left as it is. *)
Lemma normalize_identity (s : text) (prev : ascii) :
  ~ In squote s -> guarded prev s = true -> normalize s = s.
Proof.
  intros Hq Hg. unfold normalize, re_sub.
  rewrite replace_char_absent by assumption.
  apply sub_from_identity. now apply (@guarded_no_key _ _ Hg).
Qed.

Lemma hexdigit_tame (x : N) : (x < 16)%N -> tame (hexdigit x) = true.
Proof.
  intro H.
  assert (E : (x = 0 \/ x = 1 \/ x = 2 \/ x = 3 \/ x = 4 \/ x = 5 \/ x = 6
               \/ x = 7 \/ x = 8 \/ x = 9 \/ x = 10 \/ x = 11 \/ x = 12
               \/ x = 13 \/ x = 14 \/ x = 15)%N) by lia.
  repeat (destruct E as [-> | E]; [reflexivity|]). subst. reflexivity.
Qed.

Lemma u_escape_tame (n : N) : (n < 65536)%N -> forallb tame (u_escape n) = true.
Proof.
  intro H. unfold u_escape. cbn [map forallb].
  rewrite !hexdigit_tame by div_lia. reflexivity.
Qed.

Lemma escape_char_tame (c : N) :
  plain_char c = true -> forallb tame (escape_char c) = true.
Proof.
  unfold plain_char, escape_char. intro H.
  apply andb_true_iff in H. destruct H as [H H58].
  apply andb_true_iff in H. destruct H as [Hr H39].
  apply negb_true_iff, N.eqb_neq in H58, H39.
  repeat match goal with
         | |- context [if (c =? ?k)%N then _ else _] =>
             destruct (c =? k)%N; [reflexivity|]
         end.
  destruct (between 32 126 c) eqn:E8.
  - unfold between in E8. apply andb_true_iff in E8. destruct E8 as [L U].
    apply N.leb_le in L, U.
    assert (Hcode : code (ascii_of_N c) = c) by (apply code_ascii_of_N; lia).
    cbn [forallb]. unfold tame.
    destruct (Ascii.eqb (ascii_of_N c) squote) eqn:Q.
    { apply Ascii.eqb_eq in Q. rewrite Q in Hcode. cbn in Hcode. lia. }
    destruct (Ascii.eqb (ascii_of_N c) ":") eqn:B.
    { apply Ascii.eqb_eq in B. rewrite B in Hcode. cbn in Hcode. lia. }
    reflexivity.
  - destruct (c <? 65536)%N eqn:E9.
    + apply N.ltb_lt in E9. now apply u_escape_tame.
    + rewrite forallb_app, !u_escape_tame by div_lia. reflexivity.
Qed.

Lemma tame_text (s : ustr) :
  plain_text s = true -> forallb tame (flat_map escape_char s) = true.
Proof.
  unfold plain_text. induction s as [|c s IH]; [reflexivity|].
  cbn [forallb flat_map]. intro H. apply andb_true_iff in H.
  destruct H as [Hc Hs]. rewrite forallb_app, escape_char_tame, IH; auto.
Qed.

Lemma tame_not_in (s : text) :
  forallb tame s = true -> ~ In squote s /\ ~ In ":"%char s.
Proof.
  intro H. rewrite forallb_forall in H.
  split; intro Hi; apply H in Hi; discriminate.
Qed.

Lemma plain_text_scalar (s : ustr) : plain_text s = true -> Forall scalar s.
Proof.
  unfold plain_text. intro H. apply Forall_forall. intros c Hc.
  rewrite forallb_forall in H. apply H in Hc. unfold plain_char in Hc.
  apply andb_true_iff in Hc. destruct Hc as [Hc _].
  apply andb_true_iff in Hc. destruct Hc as [Hc _].
  apply orb_true_iff in Hc. unfold scalar.
  destruct Hc as [Hc | Hc].
  - apply N.ltb_lt in Hc. lia.
  - apply andb_true_iff in Hc. destruct Hc as [H1 H2].
    apply N.leb_le in H1. apply N.ltb_lt in H2. lia.
Qed.

Lemma settled_dumps_str (s : ustr) :
  plain_text s = true ->
  settled (dumps_str s) /\ forall prev, last (dumps_str s) prev = dquote.
Proof.
  intro H. apply tame_text, tame_not_in in H. destruct H as [Hq Hc].
  unfold dumps_str. split; [split|].
  - cbn. rewrite in_app_iff. intros [E | [Hi | [E | []]]];
      try discriminate; auto.
  - intro prev. apply guarded_no_colon. cbn. rewrite in_app_iff.
    intros [E | [Hi | [E | []]]]; try discriminate; auto.
  - intro prev.
    change (dquote :: flat_map escape_char s ++ [dquote])
      with ((dquote :: flat_map escape_char s) ++ [dquote]).
    now rewrite last_app_nonempty by discriminate.
Qed.

Lemma settled_app (a b : text) : settled a -> settled b -> settled (a ++ b).
Proof.
  intros [Ha1 Ha2] [Hb1 Hb2]. split.
  - rewrite in_app_iff. tauto.
  - intro prev. now rewrite guarded_app, Ha2, Hb2.
Qed.

Lemma settled_sep : settled (t ", ").
Proof.
  split; [cbn; unfold squote; intuition discriminate|intro prev; reflexivity].
Qed.

Lemma settled_entry (k : ustr) (v : pyval) :
  plain_text k = true -> settled (dumps v) -> settled (entry (k, v)).
Proof.
  intros Hk [Hv1 Hv2]. destruct (settled_dumps_str k Hk) as [[Hk1 Hk2] Hl].
  unfold entry. cbn [fst snd]. split.
  - rewrite !in_app_iff. cbn. unfold squote.
    intros [H | [[H | [H | []]] | H]]; try discriminate; auto.
  - intro prev. rewrite guarded_app, Hk2, Hl. cbn. apply Hv2.
Qed.

Lemma settled_join (ps : list text) :
  Forall settled ps -> settled (join (t ", ") ps).
Proof.
  induction 1 as [|p ps Hp Hps IH].
  - split; [intros []|reflexivity].
  - rewrite join_cons. apply settled_app; [exact Hp|].
    destruct ps; [split; [intros []|reflexivity]|].
    apply settled_app; [apply settled_sep|exact IH].
Qed.

Lemma settled_dict (d : list (ustr * pyval)) :
  Forall (fun kv => plain_text (fst kv) = true /\ settled (dumps (snd kv))) d ->
  settled (dumps (PDict d)).
Proof.
  intro H. cbn [dumps].
  change (map (fun kv => dumps_str (fst kv) ++ t ": " ++ dumps (snd kv)) d)
    with (map entry d).
  change ("{"%char :: join (t ", ") (map entry d) ++ ["}"%char])
    with (["{"%char] ++ join (t ", ") (map entry d) ++ ["}"%char]).
  apply settled_app; [|apply settled_app].
  - split; [cbn; unfold squote; intuition discriminate|reflexivity].
  - apply settled_join. apply Forall_forall. intros p Hp.
    apply in_map_iff in Hp. destruct Hp as ([k v] & <- & Hi).
    rewrite Forall_forall in H. destruct (H _ Hi) as [Hk Hv].
    now apply settled_entry.
  - split; [cbn; unfold squote; intuition discriminate|reflexivity].
Qed.

(** ** Re-serialized records: the round trip *)

Lemma plain_options_facts (cfg : interp) (depth : nat) (v : pyval) :
  plain_options v = true ->
  settled (dumps v) /\ reads (scan_once cfg (S depth)) v.
Proof.
  destruct v as [| | | | |l|d]; try discriminate. cbn [plain_options].
  intro H. apply andb_true_iff in H. destruct H as [Hu Hd].
  rewrite forallb_forall in Hd. split.
  - apply settled_dict. apply Forall_forall. intros [k x] Hi.
    specialize (Hd _ Hi). cbn [fst snd] in *.
    apply andb_true_iff in Hd. destruct Hd as [Hk Hx].
    destruct x; try discriminate.
    split; [exact Hk|]. now apply settled_dumps_str.
  - apply scan_once_dumps_dict; [|exact Hu].
    apply Forall_forall. intros [k x] Hi.
    specialize (Hd _ Hi). cbn [fst snd] in *.
    apply andb_true_iff in Hd. destruct Hd as [Hk Hx].
    destruct x; try discriminate.
    split; [now apply plain_text_scalar|].
    apply scan_once_dumps_str. now apply plain_text_scalar.
Qed.

Lemma plain_record_facts (cfg : interp) (depth : nat) (v : pyval) :
  plain_record v = true ->
  settled (dumps v) /\ reads (scan_once cfg (S (S depth))) v.
Proof.
  destruct v as [| | | | |l|d]; try discriminate. cbn [plain_record].
  intro H. apply andb_true_iff in H. destruct H as [Hu Hd].
  rewrite forallb_forall in Hd.
  assert (Hx : forall k x, In (k, x) d ->
                 plain_text k = true
                 /\ settled (dumps x)
                 /\ reads (scan_once cfg (S depth)) x).
  { intros k x Hi. specialize (Hd _ Hi). cbn [fst snd] in Hd.
    apply andb_true_iff in Hd. destruct Hd as [Hk Hv].
    split; [exact Hk|].
    destruct x as [| | | |s|l|o];
      try (apply (@plain_options_facts cfg depth) in Hv; exact Hv).
    split; [now apply settled_dumps_str|].
    apply scan_once_dumps_str. now apply plain_text_scalar. }
  split.
  - apply settled_dict. apply Forall_forall. intros [k x] Hi.
    destruct (Hx k x Hi) as (Hk & Hs & _). auto.
  - apply scan_once_dumps_dict; [|exact Hu].
    apply Forall_forall. intros [k x] Hi.
    destruct (Hx k x Hi) as (Hk & _ & Hr).
    split; [now apply plain_text_scalar|exact Hr].
Qed.

(** The record decoded from the reply with the escaped apostrophe is the one
    with the apostrophe in its text; its serialization has the apostrophe
    as it is, normalization turns it into a double quote, and the decoder
    rejects the result. *)
Lemma reserialized_apostrophe_fails :
  fst (extract_questions default_interp escaped_reply initial_quiz)
  = Ok [escaped_question]
  /\ json_loads default_interp (normalize (dumps escaped_question))
     = Error (JSONDecodeError ExpectingComma
                              (normalize (dumps escaped_question)) 19)
  /\ snd (parse_blocks default_interp [dumps escaped_question] [] [])
     = [diagnostic (dumps escaped_question) ExpectingComma
                   (normalize (dumps escaped_question)) 19].
Proof. vm_compute. repeat split. Qed.

(** C5: a record whose keys and texts have no apostrophe and no colon (a
    dict of texts and of dicts of texts, the texts made of Unicode scalar
    values), serialized the way [json.dumps] does: normalization leaves the
    serialized text as it is, the decoder reads the record back from it, and
    the loop of the parser returns the record and logs nothing. *)
Theorem reserialized_record_decodes
        (cfg : interp) (v : pyval) (errs : list ParseError) :
  2 <= recursion_depth cfg ->
  plain_record v = true ->
  normalize (dumps v) = dumps v
  /\ json_loads cfg (normalize (dumps v)) = Ok v
  /\ parse_blocks cfg [dumps v] [] errs = (Ok [v], errs).
Proof.
  intros Hdepth Hv.
  destruct (recursion_depth cfg) as [|[|depth]] eqn:Ed; try lia.
  destruct (@plain_record_facts cfg depth v Hv) as [[Hq Hg] [Hsolid Hread]].
  assert (Hn : normalize (dumps v) = dumps v)
    by (apply (@normalize_identity _ "{"%char); auto).
  assert (Hl : json_loads cfg (dumps v) = Ok v).
  { unfold json_loads. rewrite Ed.
    rewrite <- (app_nil_r (dumps v)) at 1.
    rewrite skip_ws_solid by assumption. now rewrite Hread. }
  split; [exact Hn|]. split; [now rewrite Hn|].
  cbn [parse_blocks]. now rewrite Hn, Hl.
Qed.

Lemma reserialized_sample_decodes :
  normalize (dumps sample_question) = dumps sample_question
  /\ json_loads default_interp (normalize (dumps sample_question))
     = Ok sample_question
  /\ parse_blocks default_interp [dumps sample_question] [] []
     = (Ok [sample_question], []).
Proof.
  apply (@reserialized_record_decodes default_interp sample_question []).
  - cbn. lia.
  - reflexivity.
Defined.

(** * Further properties of the parser *)

(** ** Replies of several blocks *)

Lemma tail_match_trail (ws rest : text) (caps : list text) :
  Forall (fun a => in_cls Space a = true) ws ->
  rest = [] \/ at_marker_text rest ->
  rmatch tail_re (ws ++ rest) caps (fun s c => Some (s, c)) = Some (rest, caps).
Proof.
  intros Hw Hr. unfold tail_re. rewrite rmatch_cat.
  apply star_greedy_max; [| |exact Hw].
  - destruct Hr as [-> | (d' & r' & _ & _ & ->)]; [exact I|reflexivity].
  - apply ahead_ok_match.
    destruct Hr as [-> | H]; [right; left; reflexivity|left; exact H].
Qed.

(** A block with whitespace after it: the match takes the whitespace too. *)
Lemma block_match_trail (d ws bd ws' rest : text) :
  d <> [] -> all_digits d = true -> all_space ws = true ->
  early_close bd = false -> all_space ws' = true ->
  rest = [] \/ at_marker_text rest ->
  match_at question_re (marker d ++ ws ++ braced bd ++ ws' ++ rest)
  = Some (rest, [braced bd]).
Proof.
  intros Hn Hd Hw Hb Hw' Hr.
  apply forallb_Forall in Hd. apply forallb_Forall in Hw.
  apply forallb_Forall in Hw'.
  unfold match_at, question_re. rewrite rmatch_cat.
  apply marker_match; auto. rewrite rmatch_cat.
  apply star_greedy_max; auto; [rewrite braced_app; reflexivity|].
  rewrite rmatch_cat.
  change (rmatch (Group ?r) ?s ?c ?k)
    with (rmatch r s c (fun s' caps' => k s' (caps' ++ [consumed s s']))).
  rewrite braced_app at 1. rewrite rmatch_cat, rmatch_lit, rmatch_cat.
  apply star_lazy_first.
  - rewrite rmatch_lit. rewrite consumed_app. now apply tail_match_trail.
  - apply Forall_forall. reflexivity.
  - intros p1 p2 -> Hp2. destruct p2 as [|c p2]; [congruence|].
    cbn [app]. destruct (Ascii.eqb c "}") eqn:Ec.
    + apply Ascii.eqb_eq in Ec. subst c. rewrite rmatch_lit.
      pose proof (@early_close_split _ Hb p1 p2 eq_refl) as Hc.
      rewrite <- (closes_local p2 (ws' ++ rest)) in Hc.
      unfold closes, match_at in Hc.
      destruct (rmatch tail_re (p2 ++ "}"%char :: ws' ++ rest) [] _) eqn:E;
        [discriminate|].
      revert E. apply rmatch_none_indep. intros; split; discriminate.
    + cbn. now rewrite Ec.
Qed.

Lemma clean_layout_parts (b : Layout) :
  clean_layout b = true ->
  digits b <> [] /\ all_digits (digits b) = true /\ all_space (gap b) = true
  /\ all_space (trail b) = true /\ early_close (body b) = false.
Proof.
  unfold clean_layout. intro H.
  repeat (apply andb_true_iff in H; destruct H as [H ?]).
  apply negb_true_iff in H0.
  repeat split; auto. destruct (digits b); [discriminate|discriminate].
Qed.

Lemma laid_out_at_marker (b : Layout) (rest : text) :
  digits b <> [] -> all_digits (digits b) = true ->
  at_marker_text (laid_out b ++ rest).
Proof.
  intros Hn Hd.
  exists (digits b), (gap b ++ braced (body b) ++ trail b ++ rest).
  repeat split; auto.
  - now apply forallb_Forall.
  - unfold laid_out. now rewrite <- !app_assoc.
Qed.

Lemma reply_of_ahead (bs : list Layout) (rest : text) :
  Forall (fun b => clean_layout b = true) bs ->
  rest = [] \/ at_marker_text rest ->
  reply_of bs ++ rest = [] \/ at_marker_text (reply_of bs ++ rest).
Proof.
  intros [|b bs' Hb _] Hr; [exact Hr|right].
  apply clean_layout_parts in Hb. destruct Hb as (Hn & Hd & _).
  cbn [reply_of flat_map]. rewrite <- app_assoc.
  now apply laid_out_at_marker.
Qed.

(** Clean blocks one after the other are cut into exactly the braced
    bodies, and the search goes on after them. *)
Lemma findall_layouts (bs : list Layout) (rest : text) :
  Forall (fun b => clean_layout b = true) bs ->
  rest = [] \/ at_marker_text rest ->
  findall question_re (reply_of bs ++ rest)
  = map (fun b => braced (body b)) bs ++ findall question_re rest.
Proof.
  intros Hbs Hrest. induction Hbs as [|b bs Hb Hbs IH]; [reflexivity|].
  pose proof (@reply_of_ahead bs rest Hbs Hrest) as Hr.
  apply clean_layout_parts in Hb. destruct Hb as (Hn & Hd & Hg & Ht & He).
  pose proof (@block_match_trail (digits b) (gap b) (body b) (trail b)
                (reply_of bs ++ rest) Hn Hd Hg He Ht Hr) as Hm.
  cbn [reply_of flat_map map]. fold (reply_of bs). unfold laid_out.
  rewrite <- (app_assoc _ (reply_of bs) rest).
  replace (marker (digits b) ++ gap b ++ braced (body b) ++ trail b
             ++ reply_of bs ++ rest)
    with ((marker (digits b) ++ gap b ++ braced (body b) ++ trail b)
            ++ reply_of bs ++ rest) in Hm by now rewrite <- !app_assoc.
  rewrite (@findall_step question_re _ (reply_of bs ++ rest)
             [braced (body b)]);
    [|unfold marker; cbn; discriminate|exact Hm].
  cbn [nth app]. now rewrite IH.
Qed.

Lemma parse_blocks_all_decode (cfg : interp) (blocks : list text)
      (vs : list pyval) :
  Forall2 (fun b v => json_loads cfg (normalize b) = Ok v) blocks vs ->
  forall qs errs, parse_blocks cfg blocks qs errs = (Ok (qs ++ vs), errs).
Proof.
  induction 1 as [|b v blocks vs Hb _ IH]; intros qs errs.
  - cbn. now rewrite app_nil_r.
  - cbn [parse_blocks]. rewrite Hb, IH. now rewrite <- app_assoc.
Qed.

(** X1: a reply made of any number of clean blocks, with any whitespace between
    marker and brace and after each block, is cut into exactly the braced
    bodies, in the order they appear; when all of them decode after
    normalization, the parser returns their records, as many as the blocks
    and in their order, and leaves the session state as it was. *)
Theorem clean_blocks_all_parsed
        (cfg : interp) (bs : list Layout) (vs : list pyval) (q : Quiz) :
  Forall (fun b => clean_layout b = true) bs ->
  Forall2 (fun b v => json_loads cfg (normalize (braced (body b))) = Ok v)
          bs vs ->
  findall question_re (reply_of bs) = map (fun b => braced (body b)) bs
  /\ extract_questions cfg (reply_of bs) q = (Ok vs, q)
  /\ length vs = length bs.
Proof.
  intros Hc Hd.
  assert (F : findall question_re (reply_of bs)
              = map (fun b => braced (body b)) bs).
  { pose proof (@findall_layouts bs [] Hc (or_introl eq_refl)) as F.
    now rewrite !app_nil_r in F. }
  split; [exact F|]. split; [|symmetry; eapply Forall2_length; eauto].
  unfold extract_questions. rewrite F.
  rewrite (@parse_blocks_all_decode cfg _ vs).
  - cbn [app]. now rewrite set_parsing_errors_same.
  - clear Hc F. induction Hd; constructor; auto.
Qed.

Lemma sample_layouts_parsed :
  findall question_re (reply_of sample_layouts)
  = map (fun b => braced (body b)) sample_layouts
  /\ extract_questions default_interp (reply_of sample_layouts) ready_quiz
     = (Ok [sample_question; sample_question], ready_quiz)
  /\ length [sample_question; sample_question] = length sample_layouts.
Proof.
  apply (@clean_blocks_all_parsed default_interp sample_layouts
           [sample_question; sample_question] ready_quiz).
  - repeat constructor.
  - repeat constructor.
Defined.

(** ** Replies without a block *)

(** What a match of the parser's pattern looks like: a marker, whitespace,
    a braced text, and then a place where a group may end. *)
Lemma question_match_shape (s rest : text) (caps : list text) :
  match_at question_re s = Some (rest, caps) ->
  exists d w p w2,
    s = marker d ++ w ++ braced p ++ w2 ++ rest
    /\ d <> [] /\ Forall (fun a => in_cls Digit a = true) d
    /\ closes (w2 ++ rest) = true.
Proof.
  unfold match_at. intro H. apply rmatch_sound in H.
  destruct H as (s1 & caps1 & M & E). injection E as -> ->.
  unfold question_re in M.
  inversion M as [| | |? ? ? ? sa ca ? ? Mm M1| | | | | |]; subst; clear M.
  apply matches_marker in Mm. destruct Mm as (-> & d & Hn & Hd & ->).
  inversion M1 as [| | |? ? ? ? sb cb ? ? Mw M2| | | | | |]; subst; clear M1.
  inversion Mw; subst; clear Mw.
  inversion M2 as [| | |? ? ? ? sc cc ? ? Mg M3| | | | | |]; subst; clear M2.
  inversion M3 as [| | |? ? ? ? sd cd ? ? Mw2 Ma| | | | | |]; subst; clear M3.
  inversion Mw2; subst; clear Mw2.
  inversion Ma as [| | | | | | |? ? ? sx cx Mx| |]; subst; clear Ma.
  inversion Mg as [| | | | | |? ? ? ? ci Mi| | |]; subst; clear Mg.
  inv_matches.
  match goal with
  | Hw : Forall (fun a => in_cls Space a = true) ?w,
    Hw2 : Forall (fun a => in_cls Space a = true) ?w2
    |- context [?w ++ "{"%char :: ?p ++ "}"%char :: ?w2 ++ ?z] =>
      exists d, w, p, w2; rewrite braced_app; repeat split; auto;
      apply closes_intro; [exact Hw2|]
  end.
  inversion Mx; subst.
  - match goal with
    | H : matches marker_re _ _ _ _ |- _ =>
        apply matches_marker in H; destruct H as (_ & d' & Hn' & Hd' & ->)
    end.
    left. exists d'. eauto.
  - match goal with
    | H : matches Eos _ _ _ _ |- _ => inversion H; subst; clear H
    end; [right; left|right; right]; reflexivity.
Qed.

Lemma question_match_marker (s rest : text) (caps : list text) :
  match_at question_re s = Some (rest, caps) -> at_marker_text s.
Proof.
  intro H. apply question_match_shape in H.
  destruct H as (d & w & p & w2 & -> & Hn & Hd & _).
  exists d, (w ++ braced p ++ w2 ++ rest). auto.
Qed.

Lemma at_marker_text_match (s : text) :
  at_marker_text s -> match_at marker_re s <> None.
Proof.
  intros (d & r & Hn & Hd & ->). unfold match_at.
  rewrite (@marker_match _ [] (fun s' caps => Some (s', caps)) (r, [])
             d r Hn Hd eq_refl).
  discriminate.
Qed.

Lemma findall_no_match (r : regex) (s : text) :
  (forall p x, s = p ++ x -> match_at r x = None) ->
  forall skip, findall_from r s skip = [].
Proof.
  induction s as [|a s IH]; intros H skip; [reflexivity|].
  cbn [findall_from].
  assert (Hs : forall p x, s = p ++ x -> match_at r x = None).
  { intros p x ->. apply (H (a :: p)). reflexivity. }
  destruct skip; [|now apply IH].
  rewrite (H [] (a :: s) eq_refl). now apply IH.
Qed.

Lemma has_marker_suffix (s : text) :
  has_marker s = false ->
  forall p x, s = p ++ x -> match_at question_re x = None.
Proof.
  induction s as [|a s IH]; intros H p x E.
  - destruct p; [|discriminate]. cbn in E. subst x. reflexivity.
  - cbn [has_marker] in H.
    destruct (match_at marker_re (a :: s)) eqn:Em; [discriminate|].
    destruct p as [|a' p]; cbn in E.
    + subst x.
      destruct (match_at question_re (a :: s)) as [[rest caps]|] eqn:Eq;
        [|reflexivity].
      apply question_match_marker, at_marker_text_match in Eq. congruence.
    + injection E as _ ->. now apply (IH H p).
Qed.

(** X2: a reply in which no marker occurs has no candidate block: the parser
    returns the empty list, logs nothing and leaves the state as it was,
    whatever braces and quotes the reply holds. *)
Theorem no_marker_no_questions (cfg : interp) (response : text) (q : Quiz) :
  has_marker response = false ->
  findall question_re response = []
  /\ extract_questions cfg response q = (Ok [], q).
Proof.
  intro H.
  assert (F : findall question_re response = []).
  { apply findall_no_match. now apply has_marker_suffix. }
  split; [exact F|].
  unfold extract_questions. rewrite F. cbn. now rewrite set_parsing_errors_same.
Qed.

Lemma unmarked_block_has_no_questions :
  findall question_re (t "Question 1: " ++ sample_block) = []
  /\ extract_questions default_interp (t "Question 1: " ++ sample_block)
                       ready_quiz
     = (Ok [], ready_quiz).
Proof.
  apply (@no_marker_no_questions default_interp
           (t "Question 1: " ++ sample_block) ready_quiz).
  reflexivity.
Defined.

Lemma at_marker_text_star (s : text) :
  at_marker_text s -> exists r, s = "*"%char :: r.
Proof. intros (d & r & _ & _ & ->). unfold marker. cbn. eauto. Qed.

Lemma findall_from_preamble (pre s : text) :
  no_char "*" pre = true ->
  findall_from question_re (pre ++ s) 0 = findall_from question_re s 0.
Proof.
  induction pre as [|a pre IH]; intro H; [reflexivity|].
  cbn [no_char forallb] in H. apply andb_true_iff in H. destruct H as [Ha H].
  cbn [app findall_from].
  destruct (match_at question_re (a :: pre ++ s)) as [[rest caps]|] eqn:E.
  - apply question_match_marker, at_marker_text_star in E.
    destruct E as [r E]. injection E as -> _. discriminate.
  - now apply IH.
Qed.

(** X3: text before the first marker is passed over, whatever it is, as long as
    it has no asterisk: the parser returns what it returns without it. *)
Theorem preamble_is_skipped
        (cfg : interp) (pre response : text) (q : Quiz) :
  no_char "*" pre = true ->
  extract_questions cfg (pre ++ response) q = extract_questions cfg response q.
Proof.
  intro H. unfold extract_questions, findall.
  now rewrite findall_from_preamble.
Qed.

Lemma greeting_is_skipped :
  extract_questions default_interp
                    (t "Sure! Here are your questions: " ++ sample_reply)
                    ready_quiz
  = extract_questions default_interp sample_reply ready_quiz.
Proof.
  apply (@preamble_is_skipped default_interp
           (t "Sure! Here are your questions: ") sample_reply ready_quiz).
  reflexivity.
Defined.

(** ** Text after the last block *)

Lemma split_at (c : ascii) (x : text) :
  forall y p r,
    x ++ y = p ++ c :: r ->
    (exists l, x = p ++ c :: l /\ r = l ++ y)
    \/ (exists l, p = x ++ l /\ y = l ++ c :: r).
Proof.
  induction x as [|e x IH]; intros y p r H.
  - right. exists p. auto.
  - destruct p as [|e' p]; cbn in H; injection H as -> H.
    + left. exists x. subst r. auto.
    + destruct (IH _ _ _ H) as [(l & -> & ->) | (l & -> & ->)].
      * left. exists l. auto.
      * right. exists l. auto.
Qed.

Lemma no_char_not_in (c : ascii) (s : text) : no_char c s = true -> ~ In c s.
Proof.
  unfold no_char. intros H Hi. rewrite forallb_forall in H.
  specialize (H _ Hi). now rewrite Ascii.eqb_refl in H.
Qed.

(** Where no closing brace is followed by a place at which a group may end,
    the pattern matches nowhere. *)
Lemma no_close_no_match (s : text) :
  (forall p r, s = p ++ "}"%char :: r -> closes r = false) ->
  forall p x, s = p ++ x -> match_at question_re x = None.
Proof.
  intros H p x ->.
  destruct (match_at question_re x) as [[rest caps]|] eqn:E; [|reflexivity].
  exfalso. apply question_match_shape in E.
  destruct E as (d & w & pb & w2 & -> & _ & _ & Hc).
  rewrite (H (p ++ marker d ++ w ++ "{"%char :: pb) (w2 ++ rest)) in Hc;
    [discriminate|].
  rewrite braced_app, <- !app_assoc. reflexivity.
Qed.

Lemma cut_off_layout_parts (b : Layout) :
  cut_off_layout b = true ->
  digits b <> [] /\ all_digits (digits b) = true /\ all_space (gap b) = true
  /\ early_close (body b) = false
  /\ no_char "}" (trail b) = true /\ closes (trail b) = false.
Proof.
  unfold cut_off_layout. intro H.
  repeat (apply andb_true_iff in H; destruct H as [H ?]).
  apply negb_true_iff in H0. apply negb_true_iff in H2.
  repeat split; auto. destruct (digits b); [discriminate|discriminate].
Qed.

Lemma cut_off_no_close (b : Layout) :
  cut_off_layout b = true ->
  forall p r, laid_out b = p ++ "}"%char :: r -> closes r = false.
Proof.
  intros H p r E. apply cut_off_layout_parts in H.
  destruct H as (Hn & Hd & Hg & He & Ht & Hc).
  unfold laid_out in E. rewrite braced_app in E.
  replace (marker (digits b) ++ gap b ++ "{"%char :: body b
             ++ "}"%char :: trail b)
    with ((marker (digits b) ++ gap b ++ ["{"%char])
            ++ body b ++ "}"%char :: trail b) in E
    by (rewrite <- !app_assoc; reflexivity).
  apply split_at in E. destruct E as [(l & E & _) | (l & -> & E)].
  - exfalso.
    assert (Hi : In "}"%char (marker (digits b) ++ gap b ++ ["{"%char])).
    { rewrite E. apply in_or_app. right. now left. }
    unfold marker in Hi. rewrite !in_app_iff in Hi.
    apply forallb_Forall in Hd. apply forallb_Forall in Hg.
    rewrite Forall_forall in Hd, Hg.
    destruct Hi as [[Hi | [Hi | Hi]] | [Hi | Hi]].
    + cbn in Hi. intuition discriminate.
    + apply Hd in Hi. discriminate.
    + cbn in Hi. intuition discriminate.
    + apply Hg in Hi. discriminate.
    + cbn in Hi. intuition discriminate.
  - apply split_at in E. destruct E as [(l' & E & ->) | (l' & -> & E)].
    + rewrite closes_local. eapply early_close_split; eauto.
    + destruct l' as [|e l']; cbn in E.
      * injection E as <-. exact Hc.
      * injection E as _ E2.
        exfalso. apply no_char_not_in in Ht. apply Ht. rewrite E2.
        apply in_or_app. right. now left.
Qed.

(** X4: text after the last block of a reply that is not whitespace, a remark
    or a sentence without a closing brace, makes that block and only that
    block disappear: the blocks before it are found as before, and the
    parser returns and logs exactly what it does for the reply without the
    last block.  No diagnostic tells of the lost block. *)
Theorem trailing_text_hides_last_block
        (cfg : interp) (bs : list Layout) (b : Layout) (q : Quiz) :
  Forall (fun b => clean_layout b = true) bs ->
  cut_off_layout b = true ->
  findall question_re (reply_of bs ++ laid_out b)
  = map (fun b => braced (body b)) bs
  /\ extract_questions cfg (reply_of bs ++ laid_out b) q
     = extract_questions cfg (reply_of bs) q.
Proof.
  intros Hbs Hb.
  assert (Hl : findall question_re (laid_out b) = []).
  { apply findall_no_match, no_close_no_match. now apply cut_off_no_close. }
  assert (Hm : at_marker_text (laid_out b)).
  { apply cut_off_layout_parts in Hb. destruct Hb as (Hn & Hd & _).
    rewrite <- (app_nil_r (laid_out b)). now apply laid_out_at_marker. }
  assert (F : findall question_re (reply_of bs ++ laid_out b)
              = map (fun b => braced (body b)) bs).
  { rewrite (@findall_layouts bs (laid_out b) Hbs (or_intror Hm)), Hl.
    apply app_nil_r. }
  split; [exact F|].
  pose proof (@findall_layouts bs [] Hbs (or_introl eq_refl)) as F0.
  rewrite !app_nil_r in F0.
  unfold extract_questions. now rewrite F, F0.
Qed.

Lemma closing_remark_hides_block :
  findall question_re (reply_of sample_layouts ++ laid_out remark_layout)
  = map (fun b => braced (body b)) sample_layouts
  /\ extract_questions default_interp
                       (reply_of sample_layouts ++ laid_out remark_layout)
                       ready_quiz
     = extract_questions default_interp (reply_of sample_layouts) ready_quiz.
Proof.
  apply (@trailing_text_hides_last_block default_interp sample_layouts
           remark_layout ready_quiz).
  - repeat constructor.
  - reflexivity.
Defined.

(** ** The diagnostics log *)

Lemma diagnosed_facts (cfg : interp) (blocks : list text) :
  length (diagnosed cfg blocks) <= length blocks
  /\ Forall (fun e => error_type e = t "JSON Decode" /\ In (block e) blocks)
            (diagnosed cfg blocks).
Proof.
  induction blocks as [|b bs [IHl IHf]]; [split; [reflexivity|constructor]|].
  unfold diagnosed in *. cbn [flat_map]. rewrite length_app.
  assert (Hin : Forall (fun e => error_type e = t "JSON Decode"
                                 /\ In (block e) (b :: bs))
                       (flat_map
                          (fun b0 =>
                             match json_loads cfg (normalize b0) with
                             | Error (JSONDecodeError m doc pos) =>
                                 [diagnostic b0 m doc pos]
                             | _ => []
                             end) bs)).
  { eapply Forall_impl; [|exact IHf]. intros e [H1 H2].
    split; [exact H1|now right]. }
  destruct (json_loads cfg (normalize b)) as [v|[m doc pos| | | | | | | |]];
    cbn [length app]; (split; [lia|]); try exact Hin.
  constructor; [|exact Hin]. split; [reflexivity|now left].
Qed.

Lemma extract_questions_appends (cfg : interp) (response : text) (q : Quiz) :
  exists new,
    snd (extract_questions cfg response q)
    = set_parsing_errors q (parsing_errors q ++ new)
    /\ length new <= length (findall question_re response)
    /\ Forall (fun e => error_type e = t "JSON Decode"
                        /\ In (block e) (findall question_re response)) new.
Proof.
  pose proof (extract_questions_spec cfg response q) as H.
  cbn zeta in H.
  assert (E : snd (extract_questions cfg response q)
              = set_parsing_errors q
                  (parsing_errors (snd (extract_questions cfg response q)))).
  { unfold extract_questions.
    destruct (parse_blocks _ _ _ _) as [r errs]. reflexivity. }
  destruct (extract_questions cfg response q) as [[qs|e] q']; cbn [snd] in *.
  - destruct H as (_ & Hp & _).
    exists (diagnosed cfg (findall question_re response)).
    rewrite <- Hp. split; [exact E|]. apply diagnosed_facts.
  - destruct H as (_ & pre & b & post & Hb & _ & Hp).
    exists (diagnosed cfg pre). rewrite <- Hp. split; [exact E|].
    destruct (diagnosed_facts cfg pre) as [Hl Hf]. split.
    + rewrite Hb, length_app. cbn. lia.
    + eapply Forall_impl; [|exact Hf]. intros e' [H1 H2].
      split; [exact H1|]. rewrite Hb. apply in_or_app. now left.
Qed.

(** X5: whatever the reply, and whether the parser returns or raises, the only
    field of the session state it changes is the diagnostics log, and it only
    appends to it: at most one entry for each candidate block, each of type
    "JSON Decode" and holding one of the candidate blocks. *)
Theorem extract_questions_only_appends_diagnostics
        (cfg : interp) (response : text) (q : Quiz) :
  let blocks := findall question_re response in
  let q' := snd (extract_questions cfg response q) in
  exists new,
    q' = set_parsing_errors q (parsing_errors q ++ new)
    /\ length new <= length blocks
    /\ Forall (fun e => error_type e = t "JSON Decode"
                        /\ In (block e) blocks) new.
Proof. cbn zeta. apply extract_questions_appends. Qed.

(** ** Normalization *)

Lemma key_match_full (r rest : text) (caps : list text) :
  match_at key_re r = Some (rest, caps) ->
  exists w sep,
    r = w ++ sep ++ rest /\ caps = [w; sep] /\ w <> []
    /\ ~ In squote w /\ ~ In squote sep.
Proof.
  unfold match_at. intro H. apply rmatch_sound in H.
  destruct H as (s1 & caps1 & M & E). injection E as -> ->.
  unfold key_re in M. inv_matches.
  match goal with
  | Hw : Forall (fun a => in_cls Word a = true) ?w,
    Hs : Forall (fun a => in_cls Space a = true) ?sp,
    Hs2 : Forall (fun a => in_cls Space a = true) ?sp2
    |- context [?sp ++ ":"%char :: ?sp2 ++ ?z] =>
      exists w, (sp ++ ":"%char :: sp2);
      replace (sp ++ ":"%char :: sp2 ++ z)
        with ((sp ++ ":"%char :: sp2) ++ z)
        by (rewrite <- app_assoc; reflexivity);
      rewrite !consumed_app; repeat split; auto;
      rewrite Forall_forall in Hw, Hs, Hs2
  end.
  - intro Hi. match goal with Hw : forall x, In x ?w -> _, Hi : In _ ?w |- _ =>
                apply Hw in Hi end. discriminate.
  - intro Hi. apply in_app_or in Hi. destruct Hi as [Hi | [Hi | Hi]].
    + match goal with Hs : forall x, In x ?w -> _, Hi : In _ ?w |- _ =>
        apply Hs in Hi end. discriminate.
    + discriminate.
    + match goal with Hs : forall x, In x ?w -> _, Hi : In _ ?w |- _ =>
        apply Hs in Hi end. discriminate.
Qed.

Lemma sub_from_skip (r : regex) (repl : list text -> text) (x y : text) :
  sub_from r repl (x ++ y) (length x) = sub_from r repl y 0.
Proof. induction x as [|a x IH]; [reflexivity|exact IH]. Qed.

(** At a match of the key pattern the replacement is written, and the
    substitution goes on after the match. *)
Lemma sub_from_key_step (w sep rest : text) :
  w <> [] ->
  match_at key_re (w ++ sep ++ rest) = Some (rest, [w; sep]) ->
  sub_from key_re key_repl (w ++ sep ++ rest) 0
  = key_repl [w; sep] ++ sub_from key_re key_repl rest 0.
Proof.
  intros Hn Hm. destruct w as [|a w]; [congruence|].
  cbn [app] in *. cbn [sub_from]. rewrite Hm.
  assert (Hl : (length rest <? length (a :: w ++ sep ++ rest)) = true).
  { apply Nat.ltb_lt. cbn [length]. rewrite !length_app. lia. }
  rewrite Hl. f_equal.
  replace (length (a :: w ++ sep ++ rest) - length rest - 1)
    with (length (w ++ sep))
    by (cbn [length]; rewrite !length_app; lia).
  rewrite app_assoc. apply sub_from_skip.
Qed.

Lemma unquoted_app (a b : text) : unquoted (a ++ b) = unquoted a ++ unquoted b.
Proof. apply filter_app. Qed.

Lemma unquoted_key_repl (w sep : text) :
  unquoted (key_repl [w; sep]) = unquoted (w ++ sep).
Proof.
  unfold key_repl. cbn [nth]. unfold unquoted at 1. cbn [filter].
  rewrite Ascii.eqb_refl, andb_false_r.
  change (filter _ (w ++ dquote :: sep)) with (unquoted (w ++ dquote :: sep)).
  rewrite !unquoted_app. f_equal.
Qed.

(** The substitution of the key pattern only inserts double quotes. *)
Lemma sub_from_key_quotes (n : nat) :
  forall s, length s <= n ->
            unquoted (sub_from key_re key_repl s 0) = unquoted s
            /\ (~ In squote s -> ~ In squote (sub_from key_re key_repl s 0)).
Proof.
  induction n as [|n IH]; intros s Hl.
  - destruct s; [split; auto|cbn in Hl; lia].
  - destruct s as [|a s]; [split; auto|].
    destruct (match_at key_re (a :: s)) as [[rest caps]|] eqn:E.
    + pose proof E as E'. apply key_match_full in E'.
      destruct E' as (w & sep & Hs & -> & Hn & Hqw & Hqs).
      rewrite Hs in *. rewrite sub_from_key_step by assumption.
      assert (Hr : length rest <= n).
      { cbn [length] in Hl. rewrite <- Hs in Hl. cbn [length] in Hl.
        assert (length (a :: s) = length (w ++ sep ++ rest)) by now rewrite Hs.
        cbn [length] in H. rewrite !length_app in H.
        destruct w; [congruence|]. cbn [length] in H. lia. }
      destruct (IH rest Hr) as [IHu IHq]. split.
      * rewrite unquoted_app, unquoted_key_repl, IHu, <- unquoted_app.
        now rewrite <- app_assoc.
      * intros Hq Hi. apply in_app_or in Hi. destruct Hi as [Hi | Hi].
        -- unfold key_repl in Hi. cbn [nth] in Hi.
           destruct Hi as [Hi | Hi]; [discriminate|].
           apply in_app_or in Hi. destruct Hi as [Hi | [Hi | Hi]];
             [now apply Hqw|discriminate|now apply Hqs].
        -- revert Hi. apply IHq. intro Hi. apply Hq.
           apply in_or_app. right. apply in_or_app. now right.
    + rewrite sub_from_nomatch by assumption.
      assert (Hr : length s <= n) by (cbn in Hl; lia).
      destruct (IH s Hr) as [IHu IHq]. split.
      * change (a :: sub_from key_re key_repl s 0)
          with ([a] ++ sub_from key_re key_repl s 0).
        change (a :: s) with ([a] ++ s).
        now rewrite !unquoted_app, IHu.
      * intros Hq [Hi | Hi].
        -- apply Hq. now left.
        -- revert Hi. apply IHq. intro Hi. apply Hq. now right.
Qed.

Lemma replace_quote_facts (s : text) :
  unquoted (replace_char squote dquote s) = unquoted s
  /\ ~ In squote (replace_char squote dquote s).
Proof.
  induction s as [|c s [IHu IHq]]; [split; auto|].
  cbn [replace_char map]. fold (replace_char squote dquote s).
  destruct (Ascii.eqb c squote) eqn:Ec.
  - apply Ascii.eqb_eq in Ec. subst c. split.
    + unfold unquoted in *. cbn [filter]. rewrite !Ascii.eqb_refl.
      rewrite andb_false_r. cbn. exact IHu.
    + intros [Hi | Hi]; [discriminate|]. now apply IHq.
  - split.
    + unfold unquoted in *. cbn [filter]. now rewrite IHu.
    + intros [Hi | Hi]; [|now apply IHq].
      subst c. now rewrite Ascii.eqb_refl in Ec.
Qed.

(** X6: the conversion of a block before decoding touches nothing but quotes:
    leaving the quote characters of either kind aside, the converted text is
    the block itself, character for character, and no single quote is left
    in it.  What the conversion does is replace single quotes and insert
    double quotes. *)
Theorem normalization_only_rewrites_quotes (block : text) :
  unquoted (normalize block) = unquoted block
  /\ ~ In squote (normalize block).
Proof.
  unfold normalize, re_sub.
  destruct (replace_quote_facts block) as [Hu Hq].
  destruct (@sub_from_key_quotes (length (replace_char squote dquote block))
              (replace_char squote dquote block) (le_n _)) as [Su Sq].
  split; [now rewrite Su|now apply Sq].
Qed.

(** * Further properties of the handlers *)

(** ** Generation *)


(** X8: with a key, the reply of the API is stored as the raw response before
    it is parsed, and stays there whatever the parser does; an exception of
    the parser is turned into the result [None], with the attempt counter
    incremented and the failure shown, like an error of the API itself, which
    leaves the stored reply and the diagnostics as they were. *)
Theorem generate_questions_stores_reply
        (cfg : interp) (q : Quiz) (w : World) :
  truthy (api_key q) = true ->
  let '(o, q', w') := generate_questions cfg q w in
  match net w (calls w) with
  | Ok raw =>
      raw_response q' = Some raw
      /\ match fst (extract_questions cfg raw (set_raw_response q raw)) with
         | Ok qs =>
             o = Return (Some qs) /\ attempt_count q' = attempt_count q
             /\ shown w' = shown w
         | Error e =>
             o = Return None
             /\ attempt_count q' = (attempt_count q + 1)%Z
             /\ shown w'
                = shown w ++ [AttemptFailed (attempt_count q + 1) e]
         end
  | Error e =>
      o = Return None
      /\ q' = bump_attempt_count q
      /\ shown w' = shown w ++ [AttemptFailed (attempt_count q + 1) e]
  end.
Proof.
  intro Hk.
  destruct (generate_questions_single_attempt cfg q w) as [E _]. rewrite E.
  unfold generate_questions_body, get_groq_client, attempt_failed.
  rewrite Hk. cbn.
  destruct (net w (calls w)) as [raw|e]; [|cbn; auto].
  pose proof (extract_questions_frame cfg raw (set_raw_response q raw)) as F.
  cbn zeta in F.
  destruct (extract_questions cfg raw (set_raw_response q raw))
    as [[qs|e'] q2]; cbn [fst snd] in *;
    destruct F as (_ & _ & _ & _ & _ & _ & _ & _ & _ & Hr & Ha); cbn in *;
    rewrite ?Hr, ?Ha; auto.
Qed.

Lemma generation_on_sample_reply :
  let '(o, q', w') := generate_questions default_interp ready_quiz steady_world in
  match net steady_world (calls steady_world) with
  | Ok raw =>
      raw_response q' = Some raw
      /\ match fst (extract_questions default_interp raw
                                      (set_raw_response ready_quiz raw)) with
         | Ok qs =>
             o = Return (Some qs)
             /\ attempt_count q' = attempt_count ready_quiz
             /\ shown w' = shown steady_world
         | Error e =>
             o = Return None
             /\ attempt_count q' = (attempt_count ready_quiz + 1)%Z
             /\ shown w'
                = shown steady_world
                    ++ [AttemptFailed (attempt_count ready_quiz + 1) e]
         end
  | Error e =>
      o = Return None
      /\ q' = bump_attempt_count ready_quiz
      /\ shown w'
         = shown steady_world
             ++ [AttemptFailed (attempt_count ready_quiz + 1) e]
  end.
Proof.
  apply (@generate_questions_stores_reply default_interp ready_quiz
           steady_world).
  reflexivity.
Defined.

Lemma hits_limit_of_error (cfg : interp) (b : text) (e : exn) :
  limit_error e -> json_loads cfg (normalize b) = Error e ->
  hits_limit cfg b = true.
Proof.
  intros Hl Hb. unfold hits_limit. rewrite Hb.
  destruct Hl as [-> | ->]; reflexivity.
Qed.

(** When no block runs into a limit of the decoder, the parser returns. *)
Lemma extract_questions_returns (cfg : interp) (response : text) (q : Quiz) :
  existsb (hits_limit cfg) (findall question_re response) = false ->
  fst (extract_questions cfg response q)
  = Ok (decoded cfg (findall question_re response)).
Proof.
  intro H. pose proof (extract_questions_spec cfg response q) as S.
  cbn zeta in S.
  destruct (extract_questions cfg response q) as [[qs|e] q']; cbn [fst].
  - destruct S as (-> & _). reflexivity.
  - exfalso. destruct S as (Hl & pre & b & post & Hb & He & _).
    rewrite Hb, existsb_app in H. cbn [existsb] in H.
    rewrite (@hits_limit_of_error cfg b e Hl He) in H.
    rewrite orb_true_r in H. discriminate.
Qed.

Lemma extract_questions_raises (cfg : interp) (response : text) (q : Quiz) :
  existsb (hits_limit cfg) (findall question_re response) = true ->
  exists e, fst (extract_questions cfg response q) = Error e.
Proof.
  intro H. pose proof (extract_questions_spec cfg response q) as S.
  cbn zeta in S.
  destruct (extract_questions cfg response q) as [[qs|e] q']; cbn [fst].
  - destruct S as (_ & _ & S). congruence.
  - eauto.
Qed.

(** X9: with the form filled in and a key, a reply of the API starts a quiz
    exactly when at least one of its candidate blocks decodes and none of
    them runs into a limit of the decoder: one block nested too deeply
    discards the whole reply, whatever the other blocks hold.  The quiz then
    started has the decoded blocks as its questions. *)
Theorem generate_quiz_starts_iff
        (cfg : interp) (q : Quiz) (w : World) (raw : text) :
  user_details q <> None -> truthy (api_key q) = true ->
  net w (calls w) = Ok raw ->
  let blocks := findall question_re raw in
  let '(o, q', w') := generate_quiz cfg q w in
  (o = Rerun <-> existsb (hits_limit cfg) blocks = false
                 /\ decoded cfg blocks <> [])
  /\ (o = Rerun -> questions q' = decoded cfg blocks)
  /\ (o <> Rerun -> o = Return tt /\ questions q' = questions q
                    /\ In GenerationFailed (shown w')).
Proof.
  intros Hd Hk Hn. cbn zeta. unfold generate_quiz.
  destruct (user_details q) as [d|]; [clear Hd|congruence].
  destruct (generate_questions_single_attempt cfg q w) as [E _]. rewrite E.
  unfold generate_questions_body, get_groq_client, attempt_failed.
  rewrite Hk. cbn. rewrite Hn.
  pose proof (extract_questions_frame cfg raw (set_raw_response q raw)) as F.
  cbn zeta in F. destruct F as (_ & _ & Fq & _).
  destruct (existsb (hits_limit cfg) (findall question_re raw)) eqn:Hl.
  - destruct (@extract_questions_raises cfg raw (set_raw_response q raw) Hl)
      as [e He].
    destruct (extract_questions cfg raw (set_raw_response q raw))
      as [[qs|e'] q2]; cbn [fst snd] in *; [discriminate|].
    split; [split; [discriminate|intros [H _]; discriminate]|].
    split; [discriminate|]. intros _. split; [reflexivity|].
    split; [exact Fq|]. cbn. apply in_or_app. right. now left.
  - pose proof (@extract_questions_returns cfg raw (set_raw_response q raw) Hl)
      as Hr.
    destruct (extract_questions cfg raw (set_raw_response q raw))
      as [[qs|e'] q2]; cbn [fst snd] in *; [|discriminate].
    injection Hr as ->.
    destruct (decoded cfg (findall question_re raw)) as [|x qs]; cbn.
    + split; [split; [discriminate|intros [_ H]; congruence]|].
      split; [discriminate|]. intros _. split; [reflexivity|].
      split; [exact Fq|]. apply in_or_app. right. now left.
    + split; [split; [intros _; split; [reflexivity|discriminate]|reflexivity]|].
      split; [reflexivity|]. intro H. congruence.
Qed.

Lemma sample_reply_starts_quiz :
  let blocks := findall question_re sample_reply in
  let '(o, q', w') := generate_quiz default_interp ready_quiz steady_world in
  (o = Rerun <-> existsb (hits_limit default_interp) blocks = false
                 /\ decoded default_interp blocks <> [])
  /\ (o = Rerun -> questions q' = decoded default_interp blocks)
  /\ (o <> Rerun -> o = Return tt /\ questions q' = questions ready_quiz
                    /\ In GenerationFailed (shown w')).
Proof.
  apply (@generate_quiz_starts_iff default_interp ready_quiz steady_world
           sample_reply).
  - discriminate.
  - reflexivity.
  - reflexivity.
Defined.

(** ** The form *)

(** X10: the form stores the values of its widgets as the user details every
    time it is drawn, pressed or not, and never raises: the [KeyError] of
    [generate_quiz] on missing details cannot occur behind the form.  Key,
    difficulty and chat transcript stay as they were; without the button
    pressed nothing else happens. *)
Theorem user_details_form_stores_details
        (cfg : interp) (form : UserDetails) (pressed : bool)
        (q : Quiz) (w : World) :
  let '(o, q', w') := user_details_form cfg form pressed q w in
  user_details q' = Some form
  /\ (forall e, o <> Raise e)
  /\ api_key q' = api_key q /\ difficulty q' = difficulty q
  /\ chat_history q' = chat_history q
  /\ (pressed = false ->
      o = Return tt /\ q' = set_user_details q form /\ w' = w).
Proof.
  unfold user_details_form. destruct pressed.
  - unfold generate_quiz. cbn [user_details set_user_details].
    pose proof (generate_questions_frame cfg (set_user_details q form) w) as H.
    pose proof (generate_questions_body_outcome cfg (set_user_details q form) w)
      as Hr.
    destruct (generate_questions_single_attempt cfg (set_user_details q form) w)
      as [E _].
    rewrite <- E in Hr.
    destruct (generate_questions cfg (set_user_details q form) w)
      as [[o q1] w1].
    cbn in H, Hr. destruct H as (H1 & H2 & _ & _ & _ & H6 & _ & _ & H9).
    destruct o as [[[|x qs]|]| | |]; try contradiction; cbn;
      repeat split; try congruence; try discriminate; intros; discriminate.
  - cbn. repeat split; intros; discriminate.
Qed.

(** ** Feedback *)

(** X11: [generate_feedback] changes no field of the state but the feedback
    text, never sleeps, and makes at most one call.  It raises only for want
    of user details, a [KeyError] before anything is done; the feedback text
    changes only to the reply of a successful call, and an error of the API
    leaves the state as it was and is shown. *)
Theorem generate_feedback_changes_only_feedback (q : Quiz) (w : World) :
  let '(o, q', w') := generate_feedback q w in
  q' = set_feedback q (feedback q')
  /\ slept w' = slept w /\ calls w <= calls w' <= S (calls w)
  /\ (forall e, o = Raise e ->
                e = KeyError /\ user_details q = None /\ q' = q /\ w' = w)
  /\ (feedback q' <> feedback q ->
      o = Return tt /\ net w (calls w) = Ok (feedback q'))
  /\ (forall e, user_details q <> None -> truthy (api_key q) = true ->
                net w (calls w) = Error e ->
                o = Return tt /\ q' = q
                /\ shown w' = shown w ++ [FeedbackError e]).
Proof.
  unfold generate_feedback, get_groq_client, create_completion.
  assert (Hq : q = set_feedback q (feedback q)) by (destruct q; reflexivity).
  destruct (user_details q) as [d|].
  - destruct (truthy (api_key q)).
    + cbn. destruct (net w (calls w)) as [reply|e]; cbn.
      * repeat split; try lia; try discriminate; try congruence.
      * repeat split; try lia; try discriminate; try congruence;
          try (intros; congruence).
    + cbn. repeat split; try lia; try discriminate; try congruence;
        intros; congruence.
  - repeat split; try lia; try discriminate; try congruence;
      intros; congruence.
Qed.

(** ** The chat *)



(** ** Submitting an answer *)

Lemma generate_feedback_outcome (q : Quiz) (w : World) :
  user_details q <> None ->
  forall e, fst (fst (generate_feedback q w)) <> Raise e.
Proof.
  intros Hd e. unfold generate_feedback, get_groq_client, create_completion.
  destruct (user_details q); [|congruence].
  destruct (truthy (api_key q)); cbn; [|discriminate].
  destruct (net w (calls w)); discriminate.
Qed.

(** X13: with user details in the state, [process_answer] raises exactly when
    the submitted answer is not a text, the record's answer is not a text,
    or the record has no question; and when it raises, state and page are
    as they were. *)
Theorem process_answer_raises_exactly
        (qd ua : pyval) (q : Quiz) (w : World) :
  user_details q <> None ->
  let '(o, q', w') := process_answer qd ua q w in
  ((exists e, o = Raise e)
   <-> ~ (is_text ua = true /\ is_text (field qd "Answer") = true
          /\ exists qt, subscript qd "Question" = Ok qt))
  /\ ((exists e, o = Raise e) -> q' = q /\ w' = w).
Proof.
  intro Hd. unfold process_answer, answer_matches, py_strip, field.
  destruct ua as [| | | |ua| |];
    try (split; [split; [intros _ (H & _); discriminate|eauto]|auto]).
  destruct (subscript qd "Answer") as [a|e].
  2: { split; [split; [intros _ (_ & H & _); discriminate|eauto]|auto]. }
  destruct a as [| | | |a| |];
    try (split; [split; [intros _ (_ & H & _); discriminate|eauto]|auto]).
  destruct (subscript qd "Question") as [qt|e].
  2: { split; [split; [intros _ (_ & _ & qt & H); discriminate|eauto]|auto]. }
  set (r := {| question := qt; user_answer := PStr ua;
               correct_answer := PStr a;
               is_correct := ustr_eqb (strip ua) (strip a) |}).
  assert (Hgood : is_text (PStr ua) = true /\ is_text (PStr a) = true
                  /\ exists qt0, Ok qt = Ok qt0) by (cbn; eauto).
  destruct (_ <? _)%Z.
  - split; [split|].
    + intros [e He]. discriminate.
    + intro H. exfalso. apply H. exact Hgood.
    + intros [e He]. discriminate.
  - pose proof (@generate_feedback_outcome (record_answer q r) w Hd) as Hf.
    destruct (generate_feedback (record_answer q r) w) as [[o q'] w'].
    cbn in Hf. split; [split|].
    + intros [e He]. subst o. exfalso. now apply (Hf e).
    + intro H. exfalso. apply H. exact Hgood.
    + intros [e He]. subst o. exfalso. now apply (Hf e).
Qed.

Lemma submitting_a_number_raises :
  let '(o, q', w') := process_answer sample_question (PInt 4) ready_quiz
                                     steady_world in
  ((exists e, o = Raise e)
   <-> ~ (is_text (PInt 4) = true
          /\ is_text (field sample_question "Answer") = true
          /\ exists qt, subscript sample_question "Question" = Ok qt))
  /\ ((exists e, o = Raise e) -> q' = ready_quiz /\ w' = steady_world).
Proof.
  apply (@process_answer_raises_exactly sample_question (PInt 4) ready_quiz
           steady_world).
  discriminate.
Defined.

Lemma process_answer_score (qd ua : pyval) (q : Quiz) (w : World) :
  answer_matches qd ua <> Ok true ->
  score (snd (fst (process_answer qd ua q w))) = score q.
Proof.
  intro H. unfold process_answer.
  destruct (answer_matches qd ua) as [[|]|e]; [congruence| |reflexivity].
  destruct (subscript qd "Question") as [qt|e]; [|reflexivity].
  destruct (subscript qd "Answer") as [a|e]; [|reflexivity].
  set (r := {| question := qt; user_answer := ua; correct_answer := a;
               is_correct := false |}).
  destruct (_ <? _)%Z; [reflexivity|].
  destruct (generate_feedback_history (record_answer q r) w) as (_ & H2 & _).
  rewrite H2. reflexivity.
Qed.

(** X14: a question whose answer, stripped, equals none of its option texts,
    stripped, can never be scored: whatever the radio group returns, an
    option or nothing, the score stays as it was.  Nothing checks this when
    the reply is parsed. *)
Theorem unmatched_answer_never_scores
        (qd choice : pyval) (q : Quiz) (w : World) :
  radio_value qd choice ->
  (forall opts o, option_values qd = Ok opts -> In (PStr o) opts ->
                  verdict qd o = false) ->
  score (snd (fst (process_answer qd choice q w))) = score q.
Proof.
  intros Hc Hv. apply process_answer_score.
  destruct Hc as [-> | (opts & Ho & Hi)]; [discriminate|].
  unfold answer_matches, py_strip.
  destruct choice as [| | | |o| |]; try discriminate.
  specialize (Hv opts o Ho Hi). unfold verdict, field in Hv.
  destruct (subscript qd "Answer") as [a|e]; [|discriminate].
  destruct a as [| | | |c| |]; try discriminate.
  rewrite Hv. discriminate.
Qed.

Lemma mismatched_question_never_scores :
  score (snd (fst (process_answer mismatched_question (PStr (u "4"))
                                  ready_quiz steady_world)))
  = score ready_quiz.
Proof.
  apply (@unmatched_answer_never_scores mismatched_question (PStr (u "4"))
           ready_quiz steady_world).
  - right. exists [PStr (u "3"); PStr (u "4"); PStr (u "5"); PStr (u "6")].
    split; [reflexivity|]. right. left. reflexivity.
  - intros opts o Ho Hi. injection Ho as <-.
    destruct Hi as [Hi | [Hi | [Hi | [Hi | []]]]]; injection Hi as <-;
      reflexivity.
Defined.

(** ** Whitespace around an answer *)

Lemma lstrip_spaces (ws s : ustr) :
  forallb uni_space ws = true -> lstrip (ws ++ s) = lstrip s.
Proof.
  induction ws as [|c ws IH]; [reflexivity|]. cbn [forallb app lstrip].
  intro H. apply andb_true_iff in H. destruct H as [Hc H].
  rewrite Hc. now apply IH.
Qed.

Lemma lstrip_cases (s : ustr) :
  (lstrip s = [] /\ forallb uni_space s = true)
  \/ (exists c s', lstrip s = c :: s' /\ uni_space c = false).
Proof.
  induction s as [|c s IH]; [left; split; reflexivity|].
  cbn [lstrip forallb]. destruct (uni_space c) eqn:E.
  - destruct IH as [[H1 H2] | H]; [left|right]; auto.
  - right. exists c, s. auto.
Qed.

Lemma lstrip_app_solid (s r : ustr) (c : N) (s' : ustr) :
  lstrip s = c :: s' -> lstrip (s ++ r) = c :: s' ++ r.
Proof.
  induction s as [|a s IH]; [discriminate|]. cbn [lstrip app].
  destruct (uni_space a); [exact IH|]. intro H. injection H as -> ->.
  reflexivity.
Qed.

Lemma forallb_rev_true (A : Type) (f : A -> bool) (l : list A) :
  forallb f l = true -> forallb f (rev l) = true.
Proof.
  rewrite !forallb_forall. intros H x Hx. apply H. now apply in_rev.
Qed.

(** [strip] takes off whatever whitespace is put around a text. *)
Lemma strip_pad (l s r : ustr) :
  forallb uni_space l = true -> forallb uni_space r = true ->
  strip (l ++ s ++ r) = strip s.
Proof.
  intros Hl Hr. unfold strip. rewrite lstrip_spaces by assumption.
  destruct (lstrip_cases s) as [[H1 H2] | (c & s' & H1 & H2)].
  - rewrite H1.
    assert (H : lstrip (s ++ r) = []).
    { destruct (lstrip_cases (s ++ r)) as [[H _] | (c & s' & H & Hc)];
        [exact H|].
      exfalso.
      assert (Ha : forallb uni_space (s ++ r) = true).
      { rewrite forallb_app, H2, Hr. reflexivity. }
      clear - H Hc Ha. induction (s ++ r) as [|a x IH]; [discriminate|].
      cbn in Ha, H. apply andb_true_iff in Ha. destruct Ha as [Ha1 Ha2].
      rewrite Ha1 in H. now apply IH. }
    now rewrite H.
  - rewrite (@lstrip_app_solid s r c s' H1), H1. f_equal.
    change (c :: s' ++ r) with ((c :: s') ++ r). rewrite rev_app_distr.
    apply lstrip_spaces. now apply forallb_rev_true.
Qed.

(** X15: whitespace put around the submitted answer or around the record's
    answer never changes what the comparison of [process_answer] yields. *)
Theorem padding_never_changes_the_verdict
        (d d' : list (ustr * pyval)) (c ua l r l' r' : ustr) :
  forallb uni_space l = true -> forallb uni_space r = true ->
  forallb uni_space l' = true -> forallb uni_space r' = true ->
  dict_get d (u "Answer") = Some (PStr c) ->
  dict_get d' (u "Answer") = Some (PStr (l' ++ c ++ r')) ->
  answer_matches (PDict d') (PStr (l ++ ua ++ r))
  = answer_matches (PDict d) (PStr ua).
Proof.
  intros Hl Hr Hl' Hr' Hd Hd'. unfold answer_matches, py_strip, subscript.
  rewrite Hd, Hd'. now rewrite !strip_pad by assumption.
Qed.

Lemma padded_four_matches :
  answer_matches
    (PDict [(u "Question", PStr (u "What is 2+2?"));
            (u "Options", sample_options);
            (u "Answer", PStr (u " " ++ u "4" ++ [10%N]))])
    (PStr ([9%N; 32%N] ++ u "4" ++ [160%N]))
  = answer_matches
      (PDict [(u "Question", PStr (u "What is 2+2?"));
              (u "Options", sample_options);
              (u "Answer", PStr (u "4"))])
      (PStr (u "4")).
Proof.
  apply (@padding_never_changes_the_verdict
           [(u "Question", PStr (u "What is 2+2?"));
            (u "Options", sample_options);
            (u "Answer", PStr (u "4"))]
           [(u "Question", PStr (u "What is 2+2?"));
            (u "Options", sample_options);
            (u "Answer", PStr (u " " ++ u "4" ++ [10%N]))]
           (u "4") (u "4") [9%N; 32%N] [160%N] (u " ") [10%N]);
    reflexivity.
Defined.

(** ** A quiz taken to its end *)

Lemma well_formed_fields (qd : pyval) :
  well_formed_record qd = true ->
  exists qt c opts,
    subscript qd "Question" = Ok (PStr qt)
    /\ subscript qd "Answer" = Ok (PStr c)
    /\ option_values qd = Ok (map snd opts)
    /\ subscript qd "Options" = Ok (PDict opts)
    /\ forallb (fun kv => is_text (snd kv)) opts = true.
Proof.
  unfold well_formed_record, option_values, subscript.
  destruct qd as [| | | | | |d]; try discriminate.
  destruct (dict_get d (u "Question")) as [qt|]; [|discriminate].
  destruct (dict_get d (u "Options")) as [[| | | | | |opts]|]; try discriminate.
  destruct (dict_get d (u "Answer")) as [a|]; [|discriminate].
  intro H. repeat (apply andb_true_iff in H; destruct H as [H ?]).
  destruct qt; try discriminate. destruct a; try discriminate.
  eexists _, _, opts. repeat split; auto.
Qed.

Lemma submit_well_formed (qd : pyval) (a : ustr) (q : Quiz) (w : World) :
  py_index (questions q) (current_q q) = Some qd ->
  well_formed_record qd = true ->
  submit (PStr a) q w
  = if (current_q q <? Z.of_nat (length (questions q)) - 1)%Z
    then (Rerun, next_question (record_answer q (answer_record qd a)), w)
    else generate_feedback (record_answer q (answer_record qd a)) w.
Proof.
  intros Hi Hw. unfold submit. rewrite Hi.
  destruct (well_formed_fields _ Hw) as (qt & c & opts & Hq & Ha & Ho & _).
  rewrite Hq, Ho. unfold process_answer, answer_matches, py_strip.
  rewrite Ha, Hq. unfold answer_record, verdict, field. rewrite Ha, Hq.
  reflexivity.
Qed.






(** * Runs of the script *)

(** ** What every handler keeps to *)

Lemma prefix_of_refl (A : Type) (l : list A) : prefix_of l l.
Proof. exists []. now rewrite app_nil_r. Qed.

Lemma prefix_of_app (A : Type) (l m : list A) : prefix_of l (l ++ m).
Proof. exists m. reflexivity. Qed.

Lemma prefix_of_trans (A : Type) (a b c : list A) :
  prefix_of a b -> prefix_of b c -> prefix_of a c.
Proof.
  intros [x ->] [y ->]. exists (x ++ y). now rewrite app_assoc.
Qed.

Lemma shown_say (m : notice) (w : World) :
  m <> KeyMissing ->
  In KeyMissing (shown (say m w)) -> In KeyMissing (shown w).
Proof.
  intros Hm Hi. cbn in Hi. apply in_app_or in Hi.
  destruct Hi as [Hi | [Hi | []]]; [exact Hi|congruence].
Qed.

Ltac orderly_goals :=
  unfold orderly; cbn; repeat split;
  try reflexivity; try lia; try discriminate;
  try apply prefix_of_refl; try apply prefix_of_app; auto;
  try (intros; discriminate);
  try (let Hin := fresh "Hin" in
       intro Hin; repeat (apply shown_say in Hin; [|discriminate]);
       exact Hin);
  try congruence.

Lemma generate_feedback_orderly (q : Quiz) (w : World) :
  let '(o, q', w') := generate_feedback q w in
  orderly q w o q' w'
  /\ q' = set_feedback q (feedback q')
  /\ (forall e, o = Raise e -> e = KeyError /\ user_details q = None).
Proof.
  unfold generate_feedback, get_groq_client, create_completion.
  assert (Hq : q = set_feedback q (feedback q)) by (destruct q; reflexivity).
  destruct (user_details q) as [d|] eqn:Hd.
  - destruct (truthy (api_key q)) eqn:Hk.
    + cbn. destruct (net w (calls w)) as [reply|e]; cbn;
        (split; [orderly_goals|split; [auto|intros; discriminate]]).
    + cbn. split; [orderly_goals|split; [auto|intros; discriminate]].
  - split; [orderly_goals|split; [auto|]].
    intros e He. injection He as <-. auto.
Qed.

(** Transfer along states that agree on what [orderly] looks at. *)
Lemma orderly_from (A : Type) (q0 q : Quiz) (w : World) (o : outcome A)
      (q' : Quiz) (w' : World) :
  api_key q = api_key q0 ->
  (user_details q0 <> None -> user_details q <> None) ->
  prefix_of (parsing_errors q0) (parsing_errors q) ->
  prefix_of (chat_history q0) (chat_history q) ->
  orderly q w o q' w' -> orderly q0 w o q' w'.
Proof.
  intros Hk Hd Hp Hc (H1 & H2 & H3 & H4 & H5 & H6 & H7).
  unfold orderly. rewrite <- Hk.
  split; [exact H1|]. split; [auto|].
  split; [eapply prefix_of_trans; eauto|].
  split; [eapply prefix_of_trans; eauto|].
  split; [exact H5|]. split; [exact H6|exact H7].
Qed.

Lemma process_answer_orderly (qd ua : pyval) (q : Quiz) (w : World) :
  let '(o, q', w') := process_answer qd ua q w in
  orderly q w o q' w'.
Proof.
  unfold process_answer.
  destruct (answer_matches qd ua) as [flag|e]; [|orderly_goals].
  destruct (subscript qd "Question") as [qt|e]; [|orderly_goals].
  destruct (subscript qd "Answer") as [a|e]; [|orderly_goals].
  set (r := {| question := qt; user_answer := ua; correct_answer := a;
               is_correct := flag |}).
  destruct (_ <? _)%Z; [orderly_goals|].
  pose proof (generate_feedback_orderly (record_answer q r) w) as H.
  destruct (generate_feedback (record_answer q r) w) as [[o q'] w'].
  destruct H as (H & _).
  eapply orderly_from; [| | | |exact H]; cbn; auto;
    apply prefix_of_refl.
Qed.

Lemma show_question_orderly (choice : pyval) (pressed : bool)
      (q : Quiz) (w : World) :
  let '(o, q', w') := show_question choice pressed q w in
  orderly q w o q' w'.
Proof.
  unfold show_question.
  destruct (py_index (questions q) (current_q q)) as [qd|]; [|orderly_goals].
  destruct (subscript qd "Question"); [|orderly_goals].
  destruct (option_values qd); [|orderly_goals].
  destruct pressed; [apply process_answer_orderly|orderly_goals].
Qed.

Lemma generate_questions_orderly (cfg : interp) (q : Quiz) (w : World) :
  let '(o, q', w') := generate_questions cfg q w in
  orderly q w o q' w'.
Proof.
  destruct (generate_questions_single_attempt cfg q w) as [E _]. rewrite E.
  unfold generate_questions_body, get_groq_client, attempt_failed,
    create_completion.
  destruct (truthy (api_key q)) eqn:Hk.
  - cbn. destruct (net w (calls w)) as [raw|e]; [|orderly_goals].
    destruct (extract_questions_appends cfg raw (set_raw_response q raw))
      as (new & Hq & _).
    destruct (extract_questions cfg raw (set_raw_response q raw))
      as [[qs|e'] q2]; cbn [snd] in Hq; subst q2; orderly_goals.
  - cbn. unfold orderly. cbn. rewrite Hk.
    repeat split; auto; try lia; try apply prefix_of_refl; discriminate.
Qed.

Lemma generate_quiz_orderly (cfg : interp) (q : Quiz) (w : World) :
  let '(o, q', w') := generate_quiz cfg q w in
  orderly q w o q' w'
  /\ (forall e, o = Raise e -> e = KeyError /\ user_details q = None).
Proof.
  unfold generate_quiz. destruct (user_details q) as [d|] eqn:Hd.
  - pose proof (generate_questions_orderly cfg q w) as H.
    pose proof (generate_questions_body_outcome cfg q w) as Hr.
    destruct (generate_questions_single_attempt cfg q w) as [E _].
    rewrite <- E in Hr.
    destruct (generate_questions cfg q w) as [[o q1] w1]. cbn in Hr.
    destruct H as (H1 & H2 & H3 & H4 & H5 & H6 & H7).
    destruct o as [[[|x qs]|]| | |]; try contradiction;
      (split; [|intros; discriminate]);
      unfold orderly; cbn; repeat split; auto; try lia;
      match goal with
      | Hk : truthy _ = true |- _ => destruct (H7 Hk) as [Hs Hi]
      end;
      try discriminate; try exact Hi;
      try (exfalso; apply Hs; reflexivity);
      try (intro Hin; apply in_app_or in Hin;
           destruct Hin as [Hin | [Hin | []]]; [auto|discriminate]).
  - split; [orderly_goals|]. intros e He. injection He as <-. auto.
Qed.

Lemma user_details_form_orderly (cfg : interp) (form : UserDetails)
      (pressed : bool) (q : Quiz) (w : World) :
  let '(o, q', w') := user_details_form cfg form pressed q w in
  orderly q w o q' w' /\ (forall e, o <> Raise e).
Proof.
  unfold user_details_form. destruct pressed.
  - pose proof (generate_quiz_orderly cfg (set_user_details q form) w) as H.
    destruct (generate_quiz cfg (set_user_details q form) w) as [[o q'] w'].
    destruct H as [H Hr]. split.
    + eapply orderly_from; [| | | |exact H]; cbn; auto;
        try apply prefix_of_refl. discriminate.
    + intros e He. destruct (Hr e He) as [_ Hn]. discriminate.
  - split; [orderly_goals|discriminate].
Qed.

Lemma quiz_stage_orderly (cfg : interp) (inp : Inputs) (q : Quiz) (w : World) :
  let '(o, q', w') := quiz_stage cfg inp q w in
  orderly q w o q' w'.
Proof.
  unfold quiz_stage.
  pose proof (user_details_form_orderly cfg (form_values inp)
                (start_pressed inp) q w) as Hf.
  destruct (user_details q) as [d|].
  - destruct (questions q) as [|x qs] eqn:Hq.
    + destruct (user_details_form _ _ _ _ _) as [[o q'] w']. apply Hf.
    + apply show_question_orderly.
  - destruct (user_details_form _ _ _ _ _) as [[o q'] w']. apply Hf.
Qed.

Lemma chat_interface_orderly (prompt : option text) (q : Quiz) (w : World) :
  let '(o, q', w', errs) := chat_interface prompt q w in
  orderly q w o q' w' /\ (forall e, o <> Raise e).
Proof.
  unfold chat_interface, get_groq_client, create_completion.
  destruct prompt as [[|c p]|]; try (split; [orderly_goals|discriminate]).
  cbn [api_key add_chat_turn].
  destruct (truthy (api_key q)) eqn:Hk; cbn.
  - destruct (net w (calls w)) as [reply|e];
      (split; [orderly_goals|discriminate]).
    rewrite <- app_assoc. apply prefix_of_app.
  - split; [|discriminate]. unfold orderly. cbn. rewrite Hk.
    repeat split; auto; try lia; try apply prefix_of_refl;
      try apply prefix_of_app; discriminate.
Qed.

Lemma report_stage_orderly (inp : Inputs) (q : Quiz) (w : World) :
  let '(o, q', w', errs) := report_stage inp q w in
  orderly q w o q' w' /\ (forall e, o <> Raise e).
Proof.
  unfold report_stage.
  pose proof (chat_interface_orderly (chat_box inp) q w) as Hc.
  destruct (feedback q); [exact Hc|].
  destruct (retake_pressed inp); [|exact Hc].
  split; [orderly_goals|discriminate].
Qed.

(** The two stages of a run, one after the other. *)
Lemma main_flow_stages (cfg : interp) (inp : Inputs) (q : Quiz) (w : World) :
  let q0 := set_api_key q (key_box inp) in
  let '(o, q', w', errs) := main_flow cfg inp q w in
  (truthy (Some (key_box inp)) = false
   /\ o = Return tt /\ q' = q0 /\ w' = w /\ errs = [])
  \/ (truthy (Some (key_box inp)) = true
      /\ exists o1 q1 w1,
           quiz_stage cfg inp q0 w = (o1, q1, w1)
           /\ ((o1 = Return tt
                /\ report_stage inp q1 w1 = (o, q', w', errs))
               \/ (o1 <> Return tt
                   /\ (o, q', w', errs) = (o1, q1, w1, [])))).
Proof.
  cbn zeta. unfold main_flow. cbn [api_key set_api_key].
  destruct (truthy (Some (key_box inp))).
  - destruct (quiz_stage cfg inp (set_api_key q (key_box inp)) w)
      as [[o1 q1] w1].
    destruct o1 as [[]| | |].
    + destruct (report_stage inp q1 w1) as [[[o q'] w'] errs] eqn:R.
      right. split; [reflexivity|]. exists (Return tt), q1, w1.
      split; [reflexivity|]. left. auto.
    + right. split; [reflexivity|]. exists (Raise e), q1, w1.
      split; [reflexivity|]. right. split; [discriminate|reflexivity].
    + right. split; [reflexivity|]. exists Stop, q1, w1.
      split; [reflexivity|]. right. split; [discriminate|reflexivity].
    + right. split; [reflexivity|]. exists Rerun, q1, w1.
      split; [reflexivity|]. right. split; [discriminate|reflexivity].
  - left. repeat split; reflexivity.
Qed.

Lemma orderly_then (A B : Type) (q q1 q2 : Quiz) (w w1 w2 : World)
      (o1 : outcome A) (o2 : outcome B) :
  orderly q w o1 q1 w1 -> orderly q1 w1 o2 q2 w2 ->
  api_key q2 = api_key q
  /\ (user_details q <> None -> user_details q2 <> None)
  /\ prefix_of (parsing_errors q) (parsing_errors q2)
  /\ prefix_of (chat_history q) (chat_history q2)
  /\ slept w2 = slept w
  /\ calls w <= calls w2 <= calls w + 2
  /\ (truthy (api_key q) = true ->
      o2 <> Stop /\ (In KeyMissing (shown w2) -> In KeyMissing (shown w))).
Proof.
  intros (H1 & H2 & H3 & H4 & H5 & H6 & H7) (K1 & K2 & K3 & K4 & K5 & K6 & K7).
  split; [congruence|]. split; [auto|].
  split; [eapply prefix_of_trans; eauto|].
  split; [eapply prefix_of_trans; eauto|].
  split; [congruence|]. split; [lia|].
  intro Hk. destruct (H7 Hk) as [_ Hs]. rewrite <- H1 in Hk.
  destruct (K7 Hk) as [Ks Ki]. split; auto.
Qed.

(** One run of the script, as a whole. *)
Lemma main_flow_orderly (cfg : interp) (inp : Inputs) (q : Quiz) (w : World) :
  let '(o, q', w', errs) := main_flow cfg inp q w in
  api_key q' = Some (key_box inp)
  /\ (user_details q <> None -> user_details q' <> None)
  /\ prefix_of (parsing_errors q) (parsing_errors q')
  /\ prefix_of (chat_history q) (chat_history q')
  /\ slept w' = slept w
  /\ calls w <= calls w' <= calls w + 2
  /\ o <> Stop
  /\ (In KeyMissing (shown w') -> In KeyMissing (shown w)).
Proof.
  pose proof (main_flow_stages cfg inp q w) as H. cbn zeta in H.
  destruct (main_flow cfg inp q w) as [[[o q'] w'] errs].
  destruct H as [(Hk & -> & -> & -> & ->)
                | (Hk & o1 & q1 & w1 & Hs & H)].
  - cbn. repeat split; auto; try lia; try apply prefix_of_refl. discriminate.
  - pose proof (quiz_stage_orderly cfg inp (set_api_key q (key_box inp)) w)
      as H1.
    rewrite Hs in H1.
    destruct H as [[-> Hr] | [Hn E]].
    + pose proof (report_stage_orderly inp q1 w1) as H2.
      rewrite Hr in H2. destruct H2 as [H2 _].
      destruct (orderly_then H1 H2) as (K1 & K2 & K3 & K4 & K5 & K6 & K7).
      cbn in K1, K2, K3, K4, K7. destruct (K7 Hk) as [Ks Ki].
      repeat split; auto; lia.
    + injection E as -> -> -> ->.
      destruct H1 as (K1 & K2 & K3 & K4 & K5 & K6 & K7).
      cbn in K1, K2, K3, K4, K7. destruct (K7 Hk) as [Ks Ki].
      repeat split; auto; lia.
Qed.

(** ** The key gate *)


(** ** The cost of a run *)

(** X18: a run of the script never sleeps and makes at most two calls of the
    API, whatever is pressed and whatever the API answers. *)
Theorem main_flow_call_budget
        (cfg : interp) (inp : Inputs) (q : Quiz) (w : World) :
  let '(o, q', w', errs) := main_flow cfg inp q w in
  slept w' = slept w /\ calls w <= calls w' <= calls w + 2.
Proof.
  pose proof (main_flow_orderly cfg inp q w) as H.
  destruct (main_flow cfg inp q w) as [[[o q'] w'] errs].
  destruct H as (_ & _ & _ & _ & H5 & H6 & _). auto.
Qed.

(** ** The logs *)


(** ** Consistency of the session state *)


Lemma py_index_bounds (A : Type) (l : list A) (i : Z) (x : A) :
  py_index l i = Some x ->
  l <> [] /\ (- Z.of_nat (length l) <= i < Z.of_nat (length l))%Z /\ In x l.
Proof.
  unfold py_index.
  destruct (Z.ltb_spec i (- Z.of_nat (length l))); [discriminate|].
  destruct (Z.leb_spec (Z.of_nat (length l)) i); [discriminate|].
  cbn [orb]. intro Hx. split; [|split; [lia|eapply nth_error_In; eauto]].
  intros ->. cbn in *. lia.
Qed.

Lemma py_index_in_range (A : Type) (l : list A) (i : Z) :
  (0 <= i < Z.of_nat (length l))%Z -> exists x, py_index l i = Some x.
Proof.
  intro H. unfold py_index.
  destruct (Z.ltb_spec i (- Z.of_nat (length l))); [lia|].
  destruct (Z.leb_spec (Z.of_nat (length l)) i); [lia|].
  destruct (Z.ltb_spec i 0); [lia|]. cbn [orb].
  destruct (nth_error l (Z.to_nat i)) eqn:E; [eauto|].
  apply nth_error_None in E. lia.
Qed.










(** ** Exceptions of a run *)

Lemma subscript_error (v : pyval) (k : string) (e : exn) :
  subscript v k = Error e -> record_error e.
Proof.
  unfold subscript, record_error. destruct v as [| | | | | |d];
    try (intro H; injection H as <-; auto).
  destruct (dict_get d (u k)); [discriminate|].
  intro H; injection H as <-; auto.
Qed.

Lemma option_values_error (qd : pyval) (e : exn) :
  option_values qd = Error e -> record_error e.
Proof.
  unfold option_values.
  destruct (subscript qd "Options") as [v|e'] eqn:E.
  - destruct v; try discriminate;
      intro H; injection H as <-; unfold record_error; auto.
  - intro H; injection H as <-. eapply subscript_error; eauto.
Qed.

Lemma answer_matches_error (qd ua : pyval) (e : exn) :
  answer_matches qd ua = Error e -> record_error e.
Proof.
  unfold answer_matches, py_strip.
  destruct ua; try (intro H; injection H as <-; unfold record_error; auto).
  destruct (subscript qd "Answer") as [a|e'] eqn:E.
  - destruct a; try discriminate;
      intro H; injection H as <-; unfold record_error; auto.
  - intro H; injection H as <-. eapply subscript_error; eauto.
Qed.

(** An exception of [process_answer], with user details in the state, is
    one of a record or an answer of the wrong shape, and leaves state and
    page as they were. *)
Lemma process_answer_raise (qd ua : pyval) (q : Quiz) (w : World) (e : exn) :
  user_details q <> None ->
  fst (fst (process_answer qd ua q w)) = Raise e ->
  record_error e /\ process_answer qd ua q w = (Raise e, q, w).
Proof.
  intros Hd. unfold process_answer.
  destruct (answer_matches qd ua) as [flag|e'] eqn:Ea.
  - destruct (subscript qd "Question") as [qt|e'] eqn:Eq.
    + destruct (subscript qd "Answer") as [a|e'] eqn:Es.
      * set (r := {| question := qt; user_answer := ua; correct_answer := a;
                     is_correct := flag |}).
        destruct (_ <? _)%Z; [discriminate|].
        intro H. exfalso.
        apply (@generate_feedback_outcome (record_answer q r) w Hd e H).
      * cbn. intro H; injection H as <-. split; [|reflexivity].
        eapply subscript_error; eauto.
    + cbn. intro H; injection H as <-. split; [|reflexivity].
      eapply subscript_error; eauto.
  - cbn. intro H; injection H as <-. split; [|reflexivity].
    eapply answer_matches_error; eauto.
Qed.

Lemma show_question_raise (choice : pyval) (pressed : bool)
      (q : Quiz) (w : World) (e : exn) :
  cursor_ok q -> questions q <> [] -> user_details q <> None ->
  fst (fst (show_question choice pressed q w)) = Raise e ->
  record_error e /\ show_question choice pressed q w = (Raise e, q, w).
Proof.
  intros [Hc | Hc] Hq Hd; [congruence|]. unfold show_question.
  destruct (py_index_in_range (questions q) Hc) as [qd Hi]. rewrite Hi.
  destruct (subscript qd "Question") as [qt|e'] eqn:Eq.
  - destruct (option_values qd) as [opts|e'] eqn:Eo.
    + destruct pressed; [|discriminate]. now apply process_answer_raise.
    + cbn. intro H; injection H as <-. split; [|reflexivity].
      eapply option_values_error; eauto.
  - cbn. intro H; injection H as <-. split; [|reflexivity].
    eapply subscript_error; eauto.
Qed.

Lemma quiz_stage_raise (cfg : interp) (inp : Inputs) (q : Quiz) (w : World)
      (e : exn) :
  cursor_ok q ->
  fst (fst (quiz_stage cfg inp q w)) = Raise e ->
  record_error e /\ questions q <> [] /\ user_details q <> None
  /\ quiz_stage cfg inp q w = (Raise e, q, w)
  /\ quiz_stage cfg inp q w
     = show_question (radio_choice inp) (submit_pressed inp) q w.
Proof.
  intros Hc. unfold quiz_stage.
  pose proof (user_details_form_orderly cfg (form_values inp)
                (start_pressed inp) q w) as Hf.
  destruct (user_details q) as [d|] eqn:Hd.
  - destruct (questions q) as [|x qs] eqn:Hq.
    + destruct (user_details_form _ _ _ _ _) as [[o q'] w'].
      destruct Hf as [_ Hf]. cbn. intro H. exfalso. now apply (Hf e).
    + intro H.
      destruct (@show_question_raise (radio_choice inp) (submit_pressed inp)
                  q w e) as [H1 H2]; auto; try congruence.
      repeat split; auto; congruence.
  - destruct (user_details_form _ _ _ _ _) as [[o q'] w'].
    destruct Hf as [_ Hf]. cbn. intro H. exfalso. now apply (Hf e).
Qed.

Lemma main_flow_raise (cfg : interp) (inp : Inputs) (q : Quiz) (w : World)
      (e : exn) :
  cursor_ok q ->
  fst (fst (fst (main_flow cfg inp q w))) = Raise e ->
  record_error e
  /\ questions q <> [] /\ user_details q <> None
  /\ main_flow cfg inp q w
     = (Raise e, set_api_key q (key_box inp), w, [])
  /\ fst (fst (show_question (radio_choice inp) (submit_pressed inp)
                             (set_api_key q (key_box inp)) w))
     = Raise e.
Proof.
  intros Hc.
  pose proof (main_flow_stages cfg inp q w) as H. cbn zeta in H.
  destruct (main_flow cfg inp q w) as [[[o q'] w'] errs]. cbn [fst].
  intros ->.
  destruct H as [(Hk & Ho & _) | (Hk & o1 & q1 & w1 & Hs & H)];
    [discriminate|].
  destruct H as [[-> Hr] | [Hn E]].
  - exfalso. pose proof (report_stage_orderly inp q1 w1) as H2.
    rewrite Hr in H2. destruct H2 as [_ H2]. now apply (H2 e).
  - injection E as <- -> -> ->.
    assert (Hc0 : cursor_ok (set_api_key q (key_box inp))) by exact Hc.
    destruct (@quiz_stage_raise cfg inp (set_api_key q (key_box inp)) w e Hc0)
      as (H1 & H2 & H3 & H4 & H5); [now rewrite Hs|].
    rewrite <- H5, Hs. rewrite Hs in H4. injection H4 as -> ->. auto.
Qed.

(** X21: whatever the widgets return, an exception that leaves a run of the
    script from a state whose cursor is in range comes from the question
    page, with a quiz under way, and is an [AttributeError], a [KeyError] or
    a [TypeError] of a question record or an answer of the wrong shape; it
    leaves the state as it was, but for the key just stored.  In
    particular no [IndexError] of the question list, no error of the API and
    no error of the decoder ever leaves a run, and the form, the report and
    the chat raise nothing. *)
Theorem run_raises_only_record_errors
        (cfg : interp) (inp : Inputs) (q : Quiz) (w : World) (e : exn) :
  cursor_ok q ->
  fst (fst (fst (main_flow cfg inp q w))) = Raise e ->
  record_error e
  /\ questions q <> [] /\ user_details q <> None
  /\ main_flow cfg inp q w
     = (Raise e, set_api_key q (key_box inp), w, []).
Proof.
  intros Hc He.
  destruct (@main_flow_raise cfg inp q w e Hc He) as (H1 & H2 & H3 & H4 & _).
  auto.
Qed.

Lemma blank_submission_raises_record_error :
  record_error AttributeError
  /\ questions running_quiz <> [] /\ user_details running_quiz <> None
  /\ main_flow default_interp blank_inputs running_quiz steady_world
     = (Raise AttributeError, set_api_key running_quiz (key_box blank_inputs),
        steady_world, []).
Proof.
  apply (@run_raises_only_record_errors default_interp blank_inputs
           running_quiz steady_world AttributeError).
  - right. cbn. lia.
  - reflexivity.
Defined.

Lemma show_question_well_formed (choice : pyval) (pressed : bool)
      (q : Quiz) (w : World) :
  cursor_ok q -> questions q <> [] -> user_details q <> None ->
  Forall (fun v => well_formed_record v = true) (questions q) ->
  (pressed = true -> is_text choice = true) ->
  forall e, fst (fst (show_question choice pressed q w)) <> Raise e.
Proof.
  intros [Hc | Hc] Hq Hd Hw Ht e; [congruence|].
  destruct (py_index_in_range (questions q) Hc) as [qd Hi].
  assert (Hqd : well_formed_record qd = true).
  { apply py_index_bounds in Hi. destruct Hi as (_ & _ & Hin).
    rewrite Forall_forall in Hw. now apply Hw. }
  destruct pressed.
  - specialize (Ht eq_refl). destruct choice as [| | | |a| |]; try discriminate.
    change (show_question (PStr a) true q w) with (submit (PStr a) q w).
    rewrite (submit_well_formed a _ _ Hi Hqd).
    destruct (_ <? _)%Z; [discriminate|].
    apply generate_feedback_outcome. exact Hd.
  - unfold show_question. rewrite Hi.
    destruct (well_formed_fields _ Hqd) as (qt & c & opts & Hq1 & _ & Ho & _).
    rewrite Hq1, Ho. discriminate.
Qed.

(** X22: with well-formed question records and the cursor in range, a run of the
    script raises nothing, provided that a submission comes with a text
    selected. *)
Theorem well_formed_quiz_raises_nothing
        (cfg : interp) (inp : Inputs) (q : Quiz) (w : World) :
  cursor_ok q ->
  Forall (fun v => well_formed_record v = true) (questions q) ->
  (submit_pressed inp = true -> is_text (radio_choice inp) = true) ->
  match fst (fst (fst (main_flow cfg inp q w))) with
  | Raise _ => False
  | _ => True
  end.
Proof.
  intros Hc Hw Ht.
  destruct (fst (fst (fst (main_flow cfg inp q w)))) as [[]|e| |] eqn:He;
    try exact I.
  destruct (@main_flow_raise cfg inp q w e Hc He) as (_ & Hq & Hd & _ & Hs).
  revert Hs.
  apply show_question_well_formed; auto.
Qed.

Lemma running_quiz_raises_nothing :
  match fst (fst (fst (main_flow default_interp sample_inputs
                                 running_quiz steady_world))) with
  | Raise _ => False
  | _ => True
  end.
Proof.
  apply (@well_formed_quiz_raises_nothing default_interp sample_inputs
           running_quiz steady_world).
  - right. cbn. lia.
  - repeat constructor.
  - reflexivity.
Defined.
